(** * Cartable numérique: the quiz (QCM) core of [app_gui.py]

    A shallow embedding of the quiz helpers of [src/app_gui.py]
    ([_extract_json_obj], [_normalize_qcm], [_parse_qcm_from_text],
    [_answer_to_index]), of the quiz session methods of [CartableApp]
    ([gui_generate_qcm], [qcm_render_question], [qcm_save_choice],
    [qcm_prev], [qcm_next], [qcm_finish]) and of [ask_ollama] from
    [src/ollama_client.py], followed by the properties of the quiz
    specification.

    Beside the quiz: the structured CV of [src/ollama_client.py]
    ([_extract_json], [_clean_keys], [_norm_key], [_pick], [_ensure_list],
    [generate_cv_structured]), the notes of [src/storage.py] ([create_note],
    [list_notes], [find_note_path_by_title], [read_note], [edit_note],
    [delete_note]) with the save logic of the notes tab, and the lines of
    the document list ([refresh_cloud], [_get_selected_doc_name]).

    Text model.  A Python [str] is a [string]; one [ascii] stands for one
    code point in U+0000..U+00FF, so the text covered is Latin-1 text.  The
    character classes below are those of CPython's Unicode database on that
    range. *)

From Stdlib Require Import ZArith NArith Ascii String List Bool Lia.
From stdpp Require Import base option list gmap strings pretty.

Local Open Scope string_scope.
Local Open Scope Z_scope.

Set Default Proof Using "Type".
Set Warnings "-comment-terminator-in-string".

(** ** Exceptions and results *)

Inductive exn :=
  | AttributeError
  | TypeError
  | ValueError
  | IndexError
  | RuntimeError.

Inductive result (A : Type) :=
  | Ret (a : A)
  | Raise (e : exn).
Arguments Ret {A} a.
Arguments Raise {A} e.

(** Sequencing: an exception raised by a step is raised by the whole. *)
#[export] Instance result_ret : MRet result := fun _ a => Ret a.
#[export] Instance result_bind : MBind result := fun _ _ f m =>
  match m with
  | Ret a => f a
  | Raise e => Raise e
  end.

(** ** Python text primitives (module [PyText]) *)

Module PyText.

Definition code (c : ascii) : N := N_of_ascii c.

Definition in_range (lo hi : N) (c : ascii) : bool :=
  ((lo <=? code c) && (code c <=? hi))%N.

(** [str.isspace] on one character; also the class [\s] of [re] on [str]
    patterns, and the characters removed by [str.strip()]. *)
Definition is_space (c : ascii) : bool :=
  in_range 9 13 c || in_range 28 32 c || (code c =? 133)%N || (code c =? 160)%N.

(** The decimal digits (category Nd): [str.isdecimal], the class [\d], and
    the only digit characters [int()] accepts. *)
Definition is_decimal (c : ascii) : bool := in_range 48 57 c.

(** [str.isdigit] on one character: the decimal digits and the superscript
    digits U+00B2, U+00B3, U+00B9. *)
Definition is_digit (c : ascii) : bool :=
  is_decimal c || (code c =? 178)%N || (code c =? 179)%N || (code c =? 185)%N.

(** [str.isalpha] on one character. *)
Definition is_alpha (c : ascii) : bool :=
  in_range 65 90 c || in_range 97 122 c
  || (code c =? 170)%N || (code c =? 181)%N || (code c =? 186)%N
  || in_range 192 214 c || in_range 216 246 c || in_range 248 255 c.

(** [str.isnumeric] beyond the digits: the vulgar fractions U+00BC..U+00BE. *)
Definition is_numeric (c : ascii) : bool := is_digit c || in_range 188 190 c.

(** The class [\w] of [re]: alphanumeric or underscore. *)
Definition is_word (c : ascii) : bool :=
  is_alpha c || is_numeric c || (code c =? 95)%N.

(** Simple lower-case mapping, as used by [re.IGNORECASE]. *)
Definition lower (c : ascii) : ascii :=
  if in_range 65 90 c || in_range 192 214 c || in_range 216 222 c
  then ascii_of_N (code c + 32) else c.

(** [str.upper] on one character.  U+00DF upper-cases to two letters.
    U+00B5 and U+00FF upper-case to U+039C and U+0178, outside the range of
    the text model; both images are word characters other than A-F, as the
    characters themselves are, and they are left in place. *)
Definition upper_char (c : ascii) : string :=
  if in_range 97 122 c || in_range 224 246 c || in_range 248 254 c
  then String (ascii_of_N (code c - 32)) EmptyString
  else if (code c =? 223)%N then "SS"
  else String c EmptyString.

Fixpoint upper (s : string) : string :=
  match s with
  | EmptyString => EmptyString
  | String c s' => upper_char c ++ upper s'
  end.

Fixpoint lstrip (s : string) : string :=
  match s with
  | EmptyString => EmptyString
  | String c s' => if is_space c then lstrip s' else s
  end.

(** Removes trailing white space: a character is kept when it is not white
    space or when something is kept after it. *)
Fixpoint rstrip (s : string) : string :=
  match s with
  | EmptyString => EmptyString
  | String c s' =>
      match rstrip s' with
      | EmptyString => if is_space c then EmptyString else String c EmptyString
      | r => String c r
      end
  end.

(** [s.strip()] *)
Definition strip (s : string) : string := rstrip (lstrip s).

(** Truth value of a [str]: non-empty. *)
Definition nonempty (s : string) : bool :=
  match s with
  | EmptyString => false
  | String _ _ => true
  end.

Fixpoint forallb_str (p : ascii -> bool) (s : string) : bool :=
  match s with
  | EmptyString => true
  | String c s' => p c && forallb_str p s'
  end.

(** [s.isdigit()]: at least one character, all of them digits. *)
Definition isdigit (s : string) : bool := nonempty s && forallb_str is_digit s.

Fixpoint int_digits (acc : Z) (s : string) : option Z :=
  match s with
  | EmptyString => Some acc
  | String c s' =>
      if is_decimal c
      then int_digits (10 * acc + Z.of_N (code c - 48)) s'
      else None
  end.

(** [int(s)] on a non-empty text of digit characters: the value in base 10
    when every character is a decimal digit, [ValueError] otherwise (the
    interpreter's optional limit on the number of digits is not modelled). *)
Definition py_int (s : string) : result Z :=
  match s with
  | EmptyString => Raise ValueError
  | _ => match int_digits 0 s with
         | Some z => Ret z
         | None => Raise ValueError
         end
  end.

Fixpoint prefix_rest (p s : string) : option string :=
  match p, s with
  | EmptyString, _ => Some s
  | String a p', String b s' => if Ascii.eqb a b then prefix_rest p' s' else None
  | String _ _, EmptyString => None
  end.

(** [s.replace(old, new)] for a non-empty [old]: left to right, without
    overlap. *)
Fixpoint replace_fuel (fuel : nat) (old new s : string) : string :=
  match fuel with
  | O => s
  | S fuel' =>
      match prefix_rest old s with
      | Some rest => new ++ replace_fuel fuel' old new rest
      | None =>
          match s with
          | EmptyString => EmptyString
          | String c s' => String c (replace_fuel fuel' old new s')
          end
      end
  end.

Definition replace (old new s : string) : string :=
  replace_fuel (S (String.length s)) old new s.

(** [sep.join(l)] *)
Fixpoint join (sep : string) (l : list string) : string :=
  match l with
  | [] => EmptyString
  | [x] => x
  | x :: l' => x ++ sep ++ join sep l'
  end.

(** [s[i:j]] for [0 <= i <= j]. *)
Definition slice (i j : nat) (s : string) : string := String.substring i (j - i) s.

End PyText.

(** ** Python's [re] on [str] patterns (module [Re])

    A backtracking matcher in continuation-passing style: alternatives are
    tried left to right, greedy repetitions take the longest run first and
    lazy ones the shortest, which is the order of CPython's engine.  The
    patterns of the source are written as [regex] terms next to their text. *)

Module Re.
Import PyText.

Inductive cset_item :=
  | CChar (c : ascii)          (* a literal member *)
  | CRange (lo hi : ascii)     (* [lo-hi] *)
  | CSpace                     (* \s *)
  | CNotSpace                  (* \S *)
  | CDigit.                    (* \d *)

Inductive regex :=
  | REps
  | RChar (c : ascii)                        (* a literal character *)
  | RSet (neg : bool) (items : list cset_item) (* [...] and [^...] *)
  | RAny                                     (* . *)
  | RBol                                     (* ^ *)
  | REol                                     (* $ *)
  | RWordB                                   (* \b *)
  | RSeq (r1 r2 : regex)
  | RAlt (r1 r2 : regex)                     (* r1|r2 *)
  | RStar (r : regex)                        (* r* *)
  | RPlus (r : regex)                        (* r+ *)
  | RPlusLazy (r : regex)                    (* r+? *)
  | RGroup (i : nat) (r : regex)             (* the i-th capturing group *)
  | RLook (r : regex).                       (* (?=r), r without groups *)

Record flags := { ignorecase : bool; multiline : bool; dotall : bool }.

Definition no_flags := {| ignorecase := false; multiline := false; dotall := false |}.
Definition IGNORECASE := {| ignorecase := true; multiline := false; dotall := false |}.

(** The position of a match attempt: the character before it (if any), the
    text from it on, its index, and the spans of the groups closed so far
    (the latest first). *)
Record mstate := {
  m_prev : option ascii;
  m_rest : string;
  m_pos : nat;
  m_caps : list (nat * (nat * nat))
}.

Definition start_state (s : string) : mstate :=
  {| m_prev := None; m_rest := s; m_pos := 0; m_caps := [] |}.

Definition advance (c : ascii) (rest : string) (st : mstate) : mstate :=
  {| m_prev := Some c; m_rest := rest; m_pos := S (m_pos st); m_caps := m_caps st |}.

Definition set_cap (i : nat) (span : nat * nat) (st : mstate) : mstate :=
  {| m_prev := m_prev st; m_rest := m_rest st; m_pos := m_pos st;
     m_caps := (i, span) :: m_caps st |}.

Definition clear_caps (st : mstate) : mstate :=
  {| m_prev := m_prev st; m_rest := m_rest st; m_pos := m_pos st; m_caps := [] |}.

Definition item_has (x : ascii) (it : cset_item) : bool :=
  match it with
  | CChar c => Ascii.eqb x c
  | CRange lo hi => ((code lo <=? code x) && (code x <=? code hi))%N
  | CSpace => is_space x
  | CNotSpace => negb (is_space x)
  | CDigit => is_decimal x
  end.

(** Under [IGNORECASE] a member is compared in lower case with the lower-cased
    character. *)
Definition range_chars (lo hi : ascii) : list ascii :=
  map ascii_of_nat (seq (nat_of_ascii lo) (S (nat_of_ascii hi) - nat_of_ascii lo)).

Definition item_has_nocase (x : ascii) (it : cset_item) : bool :=
  match it with
  | CChar c => Ascii.eqb (lower x) (lower c)
  | CRange lo hi => existsb (fun c => Ascii.eqb (lower x) (lower c)) (range_chars lo hi)
  | CSpace => is_space x
  | CNotSpace => negb (is_space x)
  | CDigit => is_decimal x
  end.

Definition char_matches (fl : flags) (c x : ascii) : bool :=
  if ignorecase fl then Ascii.eqb (lower x) (lower c) else Ascii.eqb x c.

Definition set_matches (fl : flags) (neg : bool) (items : list cset_item) (x : ascii) : bool :=
  xorb neg (existsb (if ignorecase fl then item_has_nocase x else item_has x) items).

Definition newline : ascii := ascii_of_N 10.

Definition any_matches (fl : flags) (x : ascii) : bool :=
  dotall fl || negb (Ascii.eqb x newline).

Definition at_bol (fl : flags) (st : mstate) : bool :=
  match m_prev st with
  | None => true
  | Some c => multiline fl && Ascii.eqb c newline
  end.

Definition at_eol (fl : flags) (st : mstate) : bool :=
  match m_rest st with
  | EmptyString => true
  | String c EmptyString => Ascii.eqb c newline
  | String c _ => multiline fl && Ascii.eqb c newline
  end.

Definition word_before (st : mstate) : bool :=
  match m_prev st with Some c => is_word c | None => false end.

Definition word_after (st : mstate) : bool :=
  match m_rest st with String c _ => is_word c | EmptyString => false end.

Definition at_word_boundary (st : mstate) : bool :=
  xorb (word_before st) (word_after st).

Definition cont := mstate -> option mstate.

Definition step_char (p : ascii -> bool) (st : mstate) (k : cont) : option mstate :=
  match m_rest st with
  | String x rest => if p x then k (advance x rest st) else None
  | EmptyString => None
  end.

Definition or_else (a : option mstate) (b : option mstate) : option mstate :=
  match a with
  | Some r => Some r
  | None => b
  end.

(** Repetition of a body [body]: each round must consume text, so the number
    of rounds is bounded by the text left. *)
Fixpoint repeat_greedy (body : mstate -> cont -> option mstate) (k : cont)
    (n : nat) (st : mstate) : option mstate :=
  match n with
  | O => k st
  | S n' =>
      or_else
        (body st (fun st' =>
           if (m_pos st <? m_pos st')%nat then repeat_greedy body k n' st' else None))
        (k st)
  end.

Fixpoint repeat_lazy (body : mstate -> cont -> option mstate) (k : cont)
    (n : nat) (st : mstate) : option mstate :=
  match n with
  | O => k st
  | S n' =>
      or_else
        (k st)
        (body st (fun st' =>
           if (m_pos st <? m_pos st')%nat then repeat_lazy body k n' st' else None))
  end.

Fixpoint rmatch (fl : flags) (r : regex) (st : mstate) (k : cont) {struct r}
    : option mstate :=
  match r with
  | REps => k st
  | RChar c => step_char (char_matches fl c) st k
  | RSet neg items => step_char (set_matches fl neg items) st k
  | RAny => step_char (any_matches fl) st k
  | RBol => if at_bol fl st then k st else None
  | REol => if at_eol fl st then k st else None
  | RWordB => if at_word_boundary st then k st else None
  | RSeq r1 r2 => rmatch fl r1 st (fun st' => rmatch fl r2 st' k)
  | RAlt r1 r2 => or_else (rmatch fl r1 st k) (rmatch fl r2 st k)
  | RStar r1 =>
      repeat_greedy (rmatch fl r1) k (String.length (m_rest st)) st
  | RPlus r1 =>
      rmatch fl r1 st (fun st' =>
        repeat_greedy (rmatch fl r1) k (String.length (m_rest st')) st')
  | RPlusLazy r1 =>
      rmatch fl r1 st (fun st' =>
        repeat_lazy (rmatch fl r1) k (String.length (m_rest st')) st')
  | RGroup i r1 =>
      rmatch fl r1 st (fun st' => k (set_cap i (m_pos st, m_pos st') st'))
  | RLook r1 =>
      match rmatch fl r1 st Some with
      | Some _ => k st
      | None => None
      end
  end.

(** A match object: where the match starts and the state at its end. *)
Record rmatch_obj := { mo_start : nat; mo_end : mstate }.

(** [re.match]: the pattern applied at the start of the text. *)
Definition re_match (fl : flags) (r : regex) (s : string) : option rmatch_obj :=
  match rmatch fl r (start_state s) Some with
  | Some e => Some {| mo_start := 0; mo_end := e |}
  | None => None
  end.

(** The leftmost match at or after the position [st]. *)
Fixpoint search_from (fl : flags) (r : regex) (n : nat) (st : mstate)
    : option rmatch_obj :=
  match rmatch fl r (clear_caps st) Some with
  | Some e => Some {| mo_start := m_pos st; mo_end := e |}
  | None =>
      match n, m_rest st with
      | S n', String c rest => search_from fl r n' (advance c rest st)
      | _, _ => None
      end
  end.

(** [re.search] *)
Definition re_search (fl : flags) (r : regex) (s : string) : option rmatch_obj :=
  search_from fl r (String.length s) (start_state s).

(** The successive matches, left to right and without overlap.  After an
    empty match the scan moves one character on. *)
Fixpoint matches_from (fl : flags) (r : regex) (n : nat) (st : mstate)
    : list rmatch_obj :=
  match n with
  | O => []
  | S n' =>
      match search_from fl r (String.length (m_rest st)) st with
      | None => []
      | Some mo =>
          let e := mo_end mo in
          if (mo_start mo <? m_pos e)%nat
          then mo :: matches_from fl r n' e
          else mo :: match m_rest e with
                     | String c rest => matches_from fl r n' (advance c rest e)
                     | EmptyString => []
                     end
      end
  end.

(** [list(re.finditer(...))] *)
Definition re_finditer (fl : flags) (r : regex) (s : string) : list rmatch_obj :=
  matches_from fl r (S (String.length s)) (start_state s).

(** [m.start()], [m.end()], [m.group(0)] and [m.group(i)] on the text [s]
    that was searched; a group that took no part is [None]. *)
Definition m_start (mo : rmatch_obj) : nat := mo_start mo.
Definition m_end (mo : rmatch_obj) : nat := m_pos (mo_end mo).

Definition group0 (s : string) (mo : rmatch_obj) : string :=
  slice (m_start mo) (m_end mo) s.

Fixpoint find_cap (i : nat) (caps : list (nat * (nat * nat))) : option (nat * nat) :=
  match caps with
  | [] => None
  | (j, span) :: caps' => if (i =? j)%nat then Some span else find_cap i caps'
  end.

Definition group (s : string) (mo : rmatch_obj) (i : nat) : option string :=
  match find_cap i (m_caps (mo_end mo)) with
  | Some (a, b) => Some (slice a b s)
  | None => None
  end.

(** Group [i] of a match whose pattern always closes it. *)
Definition group_str (s : string) (mo : rmatch_obj) (i : nat) : string :=
  default EmptyString (group s mo i).

(** The pieces of [re.split] for a pattern without capturing groups, given
    the matches used as separators. *)
Fixpoint split_at (s : string) (from : nat) (ms : list rmatch_obj) : list string :=
  match ms with
  | [] => [slice from (String.length s) s]
  | mo :: ms' => slice from (m_start mo) s :: split_at s (m_end mo) ms'
  end.

(** [re.split(r, s)] and [re.split(r, s, maxsplit)] with [maxsplit > 0], for
    a pattern without capturing groups. *)
Definition re_split (fl : flags) (r : regex) (s : string) : list string :=
  split_at s 0 (re_finditer fl r s).

Definition re_split_max (fl : flags) (r : regex) (s : string) (maxsplit : nat)
    : list string :=
  split_at s 0 (take maxsplit (re_finditer fl r s)).

(** Helpers to write patterns. *)
Fixpoint lit (s : string) : regex :=
  match s with
  | EmptyString => REps
  | String c EmptyString => RChar c
  | String c s' => RSeq (RChar c) (lit s')
  end.

Fixpoint seq (l : list regex) : regex :=
  match l with
  | [] => REps
  | [r] => r
  | r :: l' => RSeq r (seq l')
  end.

End Re.

(** ** Decoded JSON values and Python's views of them *)

(** What [json.loads] returns.  A [float] is observed by the code only
    through its truth value and its [str()]; it carries both.  A [dict] keeps
    its keys in insertion order, each key once. *)
#[warnings="-register-all"]
Inductive value :=
  | VNone
  | VBool (b : bool)
  | VInt (z : Z)
  | VFloat (nonzero : bool) (text : string)
  | VStr (s : string)
  | VList (l : list value)
  | VDict (d : list (string * value)).

Module PyValue.
Import PyText.

(** [bool(v)] *)
Definition truthy (v : value) : bool :=
  match v with
  | VNone => false
  | VBool b => b
  | VInt z => negb (z =? 0)
  | VFloat nz _ => nz
  | VStr s => nonempty s
  | VList l => match l with [] => false | _ => true end
  | VDict d => match d with [] => false | _ => true end
  end.

(** [a or b] *)
Definition py_or (a b : value) : value := if truthy a then a else b.

Fixpoint assoc (k : string) (d : list (string * value)) : option value :=
  match d with
  | [] => None
  | (k', v) :: d' => if String.eqb k k' then Some v else assoc k d'
  end.

(** [k in d] and [d.get(k)] *)
Definition dict_has (k : string) (d : list (string * value)) : bool :=
  match assoc k d with Some _ => true | None => false end.

Definition dict_get (k : string) (d : list (string * value)) : value :=
  default VNone (assoc k d).

(** [d[k] = v]: the value is replaced in place, a new key goes last. *)
Fixpoint dict_set (k : string) (v : value) (d : list (string * value))
    : list (string * value) :=
  match d with
  | [] => [(k, v)]
  | (k', v') :: d' =>
      if String.eqb k k' then (k', v) :: d' else (k', v') :: dict_set k v d'
  end.

Definition hex_digit (n : N) : ascii :=
  if (n <? 10)%N then ascii_of_N (48 + n) else ascii_of_N (87 + n).

Definition is_printable (c : ascii) : bool :=
  in_range 32 126 c || in_range 161 172 c || in_range 174 255 c.

Definition repr_char (quote : ascii) (c : ascii) : string :=
  if Ascii.eqb c "\"%char then "\\"
  else if Ascii.eqb c quote then String "\"%char (String c EmptyString)
  else if (code c =? 9)%N then "\t"
  else if (code c =? 10)%N then "\n"
  else if (code c =? 13)%N then "\r"
  else if is_printable c then String c EmptyString
  else String "\"%char (String "x"%char
         (String (hex_digit (code c / 16)) (String (hex_digit (code c mod 16)) EmptyString))).

Fixpoint has_char (x : ascii) (s : string) : bool :=
  match s with
  | EmptyString => false
  | String c s' => Ascii.eqb c x || has_char x s'
  end.

Fixpoint concat_map_str (f : ascii -> string) (s : string) : string :=
  match s with
  | EmptyString => EmptyString
  | String c s' => f c ++ concat_map_str f s'
  end.

Definition squote : ascii := ascii_of_N 39.
Definition dquote : ascii := ascii_of_N 34.

(** [repr(s)] for a [str]: single quotes, unless the text holds a single
    quote and no double quote. *)
Definition repr_str (s : string) : string :=
  let q := if has_char squote s && negb (has_char dquote s) then dquote else squote in
  String q (concat_map_str (repr_char q) s ++ String q EmptyString).

(** [repr(v)] *)
Fixpoint py_repr (v : value) : string :=
  match v with
  | VNone => "None"
  | VBool true => "True"
  | VBool false => "False"
  | VInt z => pretty z
  | VFloat _ text => text
  | VStr s => repr_str s
  | VList l => "[" ++ join ", " (map py_repr l) ++ "]"
  | VDict d =>
      "{" ++ join ", " (map (fun kv => repr_str (fst kv) ++ ": " ++ py_repr (snd kv)) d) ++ "}"
  end.

(** [str(v)] *)
Definition py_str (v : value) : string :=
  match v with
  | VStr s => s
  | _ => py_repr v
  end.

(** [isinstance(v, int)], with the integer seen: [bool] is a subclass of
    [int], [True] is 1 and [False] is 0. *)
Definition as_int (v : value) : option Z :=
  match v with
  | VInt z => Some z
  | VBool b => Some (Z.b2z b)
  | _ => None
  end.

End PyValue.

(** ** The answer resolver *)

Import PyText PyValue.

(** [r"\b([A-F])\b"] *)
Definition re_standalone_letter : Re.regex :=
  Re.seq [Re.RWordB; Re.RGroup 1 (Re.RSet false [Re.CRange "A" "F"]); Re.RWordB].

(** [ord(s) - ord("A")] for a one-character text. *)
Definition ord_minus_A (s : string) : Z :=
  match s with
  | String c _ => Z.of_N (code c) - 65
  | EmptyString => 0
  end.

Definition in_bounds (i n : Z) : bool := (0 <=? i) && (i <? n).

(** [_answer_to_index(answer, options)].  [Ret None] is Python's [None];
    for a [bool] answer the integer returned is the one it equals. *)
Definition _answer_to_index (answer : value) (options : list string)
    : result (option Z) :=
  match answer with
  | VNone => Ret None
  | _ =>
      let n := Z.of_nat (length options) in
      match as_int answer with
      | Some a => Ret (if in_bounds a n then Some a else None)
      | None =>
          let s := strip (py_str answer) in
          if negb (nonempty s) then Ret None
          else
            match Re.re_search Re.no_flags re_standalone_letter (upper s) with
            | Some m =>
                let idx := ord_minus_A (Re.group_str (upper s) m 1) in
                Ret (if in_bounds idx n then Some idx else None)
            | None =>
                if isdigit s then
                  val ← PyText.py_int s;
                  if in_bounds val n then Ret (Some val)
                  else if (1 <=? val) && (val <=? n) then Ret (Some (val - 1))
                  else Ret None
                else Ret None
            end
      end
  end.

(** ** JSON extraction *)

Definition set_of (items : list Re.cset_item) : Re.regex := Re.RSet false items.
Definition re_s : Re.regex := set_of [Re.CSpace].       (* \s *)
Definition re_d : Re.regex := set_of [Re.CDigit].       (* \d *)
Definition re_A_F : Re.regex := set_of [Re.CRange "A" "F"].  (* [A-F] *)
Definition re_any_char : Re.regex := set_of [Re.CSpace; Re.CNotSpace].  (* [\s\S] *)

(** [r"\{[\s\S]*\}"] and [r"\[[\s\S]*\]"] *)
Definition re_braces : Re.regex :=
  Re.seq [Re.RChar "{"; Re.RStar re_any_char; Re.RChar "}"].
Definition re_brackets : Re.regex :=
  Re.seq [Re.RChar "["; Re.RStar re_any_char; Re.RChar "]"].

Section Extract.

(** [json.loads]: the decoded value, or [None] when it raises. *)
Variable json_loads : string -> option value.

(** One of the two fallbacks of [_extract_json_obj]: search, then decode the
    text matched. *)
Definition try_span (r : Re.regex) (t : string) : option value :=
  match Re.re_search Re.no_flags r t with
  | Some m => json_loads (Re.group0 t m)
  | None => None
  end.

(** [_extract_json_obj(text)] *)
Definition _extract_json_obj (text : string) : option value :=
  if negb (nonempty text) then None
  else
    let t := strip text in
    match json_loads t with
    | Some v => Some v
    | None =>
        match try_span re_braces t with
        | Some v => Some v
        | None =>
            match try_span re_brackets t with
            | Some v => Some v
            | None => None
            end
        end
    end.

End Extract.

(** ** Normalization *)

(** A question of the canonical quiz.  [q_answer] is the raw answer token. *)
Record question := {
  q_question : string;
  q_options : list string;
  q_answer : value;
  q_explanation : string
}.

(** The canonical quiz, [{"questions": [...]}]. *)
Record quiz := { questions : list question }.

(** [v.strip()]: only a [str] has the method. *)
Definition method_strip (v : value) : result string :=
  match v with
  | VStr s => Ret (strip s)
  | _ => Raise AttributeError
  end.

Definition option_letters : list string := ["A"; "B"; "C"; "D"; "E"; "F"].

(** The list built from a lettered mapping (lines 128-133). *)
Definition lettered_options (d : list (string * value)) : list value :=
  omap (fun k =>
          match assoc k d with
          | Some v => Some (VStr (k ++ ") " ++ strip (py_str v)))
          | None => None
          end) option_letters.

(** [[str(x).strip() for x in opts if str(x).strip()]] (line 136). *)
Definition clean_options (l : list value) : list value :=
  omap (fun x =>
          let s := strip (py_str x) in
          if nonempty s then Some (VStr s) else None) l.

Definition chars_of (s : string) : list string :=
  map (fun c => String c EmptyString) (list_ascii_of_string s).

(** [len(v)]: [TypeError] on a value without a length. *)
Definition py_len (v : value) : result Z :=
  match v with
  | VStr s => Ret (Z.of_nat (String.length s))
  | VList l => Ret (Z.of_nat (length l))
  | VDict d => Ret (Z.of_nat (length d))
  | _ => Raise TypeError
  end.

(** The items of a sequence as texts: the elements of a list, the characters
    of a [str] (a [str] is the sequence of its one-character texts). *)
Definition seq_items (v : value) : list string :=
  match v with
  | VList l => map py_str l
  | VStr s => chars_of s
  | _ => []
  end.

(** The fields recovered from a question mapping: line 124 before its
    [.strip()], lines 125-136, line 138, and line 139 before its [.strip()]. *)
Definition question_field (q : list (string * value)) : value :=
  py_or (py_or (dict_get "question" q) (dict_get "q" q)) (VStr "").

Definition options_field (q : list (string * value)) : value :=
  let opts := py_or (py_or (py_or (dict_get "options" q) (dict_get "choices" q))
                           (dict_get "answers" q)) (VList []) in
  let opts := match opts with
              | VDict d => VList (lettered_options d)
              | _ => opts
              end in
  match opts with
  | VList l => VList (clean_options l)
  | _ => opts
  end.

Definition answer_field (q : list (string * value)) : value :=
  py_or (py_or (dict_get "answer" q) (dict_get "correct" q)) (dict_get "correct_answer" q).

Definition explanation_field (q : list (string * value)) : value :=
  py_or (py_or (dict_get "explanation" q) (dict_get "exp" q)) (VStr "").

(** The body of the loop of [_normalize_qcm] (lines 122-149): [Ret None] is
    [continue], [Ret (Some x)] appends [x] to [out]. *)
Definition normalize_question (q : value) : result (option question) :=
  match q with
  | VDict q =>
      question ← method_strip (question_field q);
      let opts := options_field q in
      let ans := answer_field q in
      exp ← method_strip (explanation_field q);
      if negb (nonempty question) then Ret None
      else
        n ← py_len opts;
        if n <? 2 then Ret None
        else Ret (Some {| q_question := question; q_options := seq_items opts;
                          q_answer := ans; q_explanation := exp |})
  | _ => Ret None
  end.

Fixpoint normalize_loop (qs : list value) (out : list question)
    : result (list question) :=
  match qs with
  | [] => Ret out
  | q :: qs' =>
      r ← normalize_question q;
      normalize_loop qs' (match r with Some x => out ++ [x] | None => out end)
  end.

(** [_normalize_qcm(data)] *)
Definition _normalize_qcm (data : value) : result (option quiz) :=
  match data with
  | VNone => Ret None
  | _ =>
      let data := match data with
                  | VList _ => VDict [("questions", data)]
                  | _ => data
                  end in
      match data with
      | VDict d =>
          let d := if negb (dict_has "questions" d) && dict_has "quiz" d
                   then dict_set "questions" (dict_get "quiz" d) d else d in
          match dict_get "questions" d with
          | VList (q :: qs) =>
              out ← normalize_loop (q :: qs) [];
              match out with
              | [] => Ret None
              | _ => Ret (Some {| questions := out |})
              end
          | _ => Ret None
          end
      | _ => Ret None
      end
  end.

(** ** The text-block parser *)

Definition nl : string := String Re.newline EmptyString.
Definition cr_nl : string := String (ascii_of_N 13) nl.
Definition E_acute : ascii := ascii_of_N 201.

Definition flags_I_S := {| Re.ignorecase := true; Re.multiline := false; Re.dotall := true |}.
Definition flags_I_M := {| Re.ignorecase := true; Re.multiline := true; Re.dotall := false |}.

(** [[:\-\)]], [[:\-]] and [[\)\.\:\-]] *)
Definition re_head_sep : Re.regex := set_of [Re.CChar ":"; Re.CChar "-"; Re.CChar ")"].
Definition re_mark_sep : Re.regex := set_of [Re.CChar ":"; Re.CChar "-"].
Definition re_opt_sep : Re.regex :=
  set_of [Re.CChar ")"; Re.CChar "."; Re.CChar ":"; Re.CChar "-"].

(** [r"\n(?=Q\d+\s*[:\-\)])"] *)
Definition re_block_split : Re.regex :=
  Re.seq [Re.RChar Re.newline;
          Re.RLook (Re.seq [Re.RChar "Q"; Re.RPlus re_d; Re.RStar re_s; re_head_sep])].

(** [r"Q(\d+)\s*[:\-\)]\s*(.*)"] *)
Definition re_block_head : Re.regex :=
  Re.seq [Re.RChar "Q"; Re.RGroup 1 (Re.RPlus re_d); Re.RStar re_s; re_head_sep;
          Re.RStar re_s; Re.RGroup 2 (Re.RStar Re.RAny)].

(** [(?:ANSWER|R[ÉE]PONSE)] and [(?:EXPLANATION|EXPLICATION)] *)
Definition re_answer_word : Re.regex :=
  Re.RAlt (Re.lit "ANSWER")
          (Re.seq [Re.RChar "R"; set_of [Re.CChar E_acute; Re.CChar "E"]; Re.lit "PONSE"]).
Definition re_explanation_word : Re.regex :=
  Re.RAlt (Re.lit "EXPLANATION") (Re.lit "EXPLICATION").

(** [r"(?:ANSWER|R[ÉE]PONSE)\s*[:\-]\s*([A-F])\b"] *)
Definition re_answer : Re.regex :=
  Re.seq [re_answer_word; Re.RStar re_s; re_mark_sep; Re.RStar re_s;
          Re.RGroup 1 re_A_F; Re.RWordB].

(** [r"(?:EXPLANATION|EXPLICATION)\s*[:\-]\s*([\s\S]*)"] *)
Definition re_explanation : Re.regex :=
  Re.seq [re_explanation_word; Re.RStar re_s; re_mark_sep; Re.RStar re_s;
          Re.RGroup 1 (Re.RStar re_any_char)].

(** [r"(?:ANSWER|R[ÉE]PONSE)\s*[:\-]"] and [r"(?:EXPLANATION|EXPLICATION)\s*[:\-]"] *)
Definition re_answer_mark : Re.regex :=
  Re.seq [re_answer_word; Re.RStar re_s; re_mark_sep].
Definition re_explanation_mark : Re.regex :=
  Re.seq [re_explanation_word; Re.RStar re_s; re_mark_sep].

(** [r"^\s*([A-F])[\)\.\:\-]\s*(.+)$"] *)
Definition re_option_line : Re.regex :=
  Re.seq [Re.RBol; Re.RStar re_s; Re.RGroup 1 re_A_F; re_opt_sep; Re.RStar re_s;
          Re.RGroup 2 (Re.RPlus Re.RAny); Re.REol].

(** [r"([A-F])[\)\.\:\-]\s*([^A-F]+?)(?=(?:\s+[A-F][\)\.\:\-])|$)"] *)
Definition re_option_inline : Re.regex :=
  Re.seq [Re.RGroup 1 re_A_F; re_opt_sep; Re.RStar re_s;
          Re.RGroup 2 (Re.RPlusLazy (Re.RSet true [Re.CRange "A" "F"]));
          Re.RLook (Re.RAlt (Re.seq [Re.RPlus re_s; re_A_F; re_opt_sep]) Re.REol)].

(** [r"[A-F][\)\.\:\-]\s*"] *)
Definition re_option_mark : Re.regex :=
  Re.seq [re_A_F; re_opt_sep; Re.RStar re_s].

(** [l[0]] of the result of a split, which is never empty. *)
Definition first_piece (l : list string) : string := default EmptyString (head l).

(** [f"{letter.upper()}) {text.strip()}"] *)
Definition format_option (letter text : string) : string :=
  upper letter ++ ") " ++ strip text.

(** The cleaned remainder of a block (lines 201-202): the text before the
    answer mark, then before the explanation mark. *)
Definition clean_rest (rest : string) : string :=
  let rest_clean := first_piece (Re.re_split Re.IGNORECASE re_answer_mark rest) in
  first_piece (Re.re_split Re.IGNORECASE re_explanation_mark rest_clean).

(** The matches of the two option patterns in a cleaned remainder (lines 206
    and 209). *)
Definition option_line_matches (rest_clean : string) : list Re.rmatch_obj :=
  Re.re_finditer flags_I_M re_option_line rest_clean.
Definition option_inline_matches (rest_clean : string) : list Re.rmatch_obj :=
  Re.re_finditer Re.IGNORECASE re_option_inline rest_clean.

Definition question_dict (question_text : string) (options : list string)
    (ans_letter : value) (exp : string) : value :=
  VDict [("question", VStr question_text);
         ("options", VList (map VStr options));
         ("answer", ans_letter);
         ("explanation", VStr exp)].

(** The question text and the options of a block, or [None] where the source
    does [continue] (lines 206-220). *)
Definition block_options (rest_clean : string) : option (string * list string) :=
  let opt_matches := option_line_matches rest_clean in
  if (length opt_matches <? 2)%nat then
    let opt_inline := option_inline_matches rest_clean in
    if (2 <=? length opt_inline)%nat then
      let question_text :=
        strip (first_piece (Re.re_split_max Re.IGNORECASE re_option_mark rest_clean 1)) in
      Some (question_text,
            map (fun m => format_option (Re.group_str rest_clean m 1)
                                        (Re.group_str rest_clean m 2)) opt_inline)
    else None
  else
    let first_opt_pos := match opt_matches with
                         | m :: _ => Re.m_start m
                         | [] => O
                         end in
    let question_text := strip (slice 0 first_opt_pos rest_clean) in
    Some (question_text,
          map (fun mm => format_option (Re.group_str rest_clean mm 1)
                                       (Re.group_str rest_clean mm 2)) opt_matches).

(** The body of the loop over the blocks (lines 182-230): the question
    recovered from a block, or [None] where the source does [continue]. *)
Definition parse_block (block : string) : option value :=
  match Re.re_match flags_I_S re_block_head block with
  | None => None
  | Some m =>
      let rest := strip (Re.group_str block m 2) in
      let ans_letter :=
        match Re.re_search Re.IGNORECASE re_answer rest with
        | Some m_ans => VStr (upper (Re.group_str rest m_ans 1))
        | None => VNone
        end in
      let exp :=
        match Re.re_search Re.IGNORECASE re_explanation rest with
        | Some m_exp => strip (Re.group_str rest m_exp 1)
        | None => EmptyString
        end in
      match block_options (clean_rest rest) with
      | None => None
      | Some (question_text, options) =>
          let question_text :=
            if negb (nonempty question_text) then "(Question)" else question_text in
          Some (question_dict question_text options ans_letter exp)
      end
  end.

(** The blocks of a raw text (lines 171-178). *)
Definition split_blocks (raw : string) : list string :=
  let t := strip raw in
  let t := replace cr_nl nl t in
  let parts := Re.re_split Re.no_flags re_block_split (nl ++ t) in
  omap (fun p => if nonempty (strip p) then Some (strip p) else None) parts.

(** [_parse_qcm_from_text(raw)] *)
Definition _parse_qcm_from_text (raw : string) : option value :=
  if negb (nonempty raw) then None
  else
    let questions := omap parse_block (split_blocks raw) in
    match questions with
    | [] => None
    | _ => Some (VDict [("questions", VList questions)])
    end.

(** ** The model invocation ([ollama_client.py]) *)

(** What [subprocess.run] does: the command is missing, it fails otherwise,
    or it completes with its captured output and error streams. *)
Inductive proc_outcome :=
  | ProcNotFound
  | ProcFailed
  | ProcDone (stdout stderr : option string).

(** [ask_ollama(prompt, model)]: every failure leaves as a [RuntimeError]. *)
Definition ask_ollama (proc : proc_outcome) : result string :=
  match proc with
  | ProcNotFound => Raise RuntimeError
  | ProcFailed => Raise RuntimeError
  | ProcDone stdout stderr =>
      let out := strip (default EmptyString stdout) in
      if negb (nonempty out) then Raise RuntimeError else Ret out
  end.

(** [generate_qcm_quiz(text, n, difficulty)]: the prompt is formatted and
    sent; the answer depends on the process alone. *)
Definition generate_qcm_quiz (proc : proc_outcome) : result string := ask_ollama proc.

(** ** The quiz session of [CartableApp] *)

Inductive status :=
  | StatusInitial
  | StatusGenerating                 (* generation in progress *)
  | StatusGenerated (n : nat)        (* QCM généré : n question(s). *)
  | StatusNoQuiz                     (* Aucun QCM généré. *)
  | StatusFinished (score total : Z). (* Terminé — Score : score/total *)

(** The lines written for one question by [qcm_finish]: its number and text,
    the option chosen ([None]: none), the right option ([None]: unknown), the
    explanation when there is one. *)
Record correction := {
  c_number : Z;
  c_question : string;
  c_chosen : option string;
  c_correct : option string;
  c_explanation : option string
}.

Inductive message :=
  | ShowWarning (text : string)
  | ShowError (e : option exn) (text : string).

Record app_state := {
  qcm_data : option quiz;
  qcm_index : Z;
  qcm_user_answers : gmap Z Z;
  qcm_choice_var : Z;              (* the IntVar of the radio buttons *)
  qcm_choices : list string;       (* the radio buttons shown, by value *)
  qcm_status : status;
  btn_prev : bool;
  btn_next : bool;
  btn_finish : bool;
  qcm_correction : option (list correction)
}.

(** The quiz fields right after [__init__] (lines 328-330, 785). *)
Definition initial_state : app_state :=
  {| qcm_data := None; qcm_index := 0; qcm_user_answers := ∅;
     qcm_choice_var := -1; qcm_choices := []; qcm_status := StatusInitial;
     btn_prev := false; btn_next := false; btn_finish := false;
     qcm_correction := None |}.

Definition set_session (d : option quiz) (i : Z) (a : gmap Z Z) (st : app_state) :=
  {| qcm_data := d; qcm_index := i; qcm_user_answers := a;
     qcm_choice_var := qcm_choice_var st; qcm_choices := qcm_choices st;
     qcm_status := qcm_status st; btn_prev := btn_prev st; btn_next := btn_next st;
     btn_finish := btn_finish st; qcm_correction := qcm_correction st |}.

Definition set_index (i : Z) (st : app_state) :=
  set_session (qcm_data st) i (qcm_user_answers st) st.

Definition set_answers (a : gmap Z Z) (st : app_state) :=
  set_session (qcm_data st) (qcm_index st) a st.

Definition set_choice (v : Z) (choices : list string) (st : app_state) :=
  {| qcm_data := qcm_data st; qcm_index := qcm_index st;
     qcm_user_answers := qcm_user_answers st;
     qcm_choice_var := v; qcm_choices := choices;
     qcm_status := qcm_status st; btn_prev := btn_prev st; btn_next := btn_next st;
     btn_finish := btn_finish st; qcm_correction := qcm_correction st |}.

Definition set_status (s : status) (st : app_state) :=
  {| qcm_data := qcm_data st; qcm_index := qcm_index st;
     qcm_user_answers := qcm_user_answers st;
     qcm_choice_var := qcm_choice_var st; qcm_choices := qcm_choices st;
     qcm_status := s; btn_prev := btn_prev st; btn_next := btn_next st;
     btn_finish := btn_finish st; qcm_correction := qcm_correction st |}.

Definition set_buttons (p n f : bool) (st : app_state) :=
  {| qcm_data := qcm_data st; qcm_index := qcm_index st;
     qcm_user_answers := qcm_user_answers st;
     qcm_choice_var := qcm_choice_var st; qcm_choices := qcm_choices st;
     qcm_status := qcm_status st; btn_prev := p; btn_next := n;
     btn_finish := f; qcm_correction := qcm_correction st |}.

Definition set_correction (c : option (list correction)) (st : app_state) :=
  {| qcm_data := qcm_data st; qcm_index := qcm_index st;
     qcm_user_answers := qcm_user_answers st;
     qcm_choice_var := qcm_choice_var st; qcm_choices := qcm_choices st;
     qcm_status := qcm_status st; btn_prev := btn_prev st; btn_next := btn_next st;
     btn_finish := btn_finish st; qcm_correction := c |}.

(** The quiz session proper: the stored quiz, the current index and the
    recorded answers. *)
Definition session (st : app_state) : option quiz * Z * gmap Z Z :=
  (qcm_data st, qcm_index st, qcm_user_answers st).

(** [l[i]] on a Python sequence: a negative index counts from the end. *)
Definition py_index {A} (l : list A) (i : Z) : result A :=
  let n := Z.of_nat (length l) in
  let j := if i <? 0 then i + n else i in
  if (0 <=? j) && (j <? n)
  then match l !! Z.to_nat j with
       | Some x => Ret x
       | None => Raise IndexError
       end
  else Raise IndexError.

(** The end of a method: the state it leaves, and the exception it leaves
    with, if any. *)
Definition outcome : Type := app_state * option exn.

(** [_set_qcm_enabled(enabled)] *)
Definition _set_qcm_enabled (enabled : bool) (st : app_state) : app_state :=
  match enabled, qcm_data st with
  | true, Some data =>
      set_buttons (negb (qcm_index st =? 0))
                  (qcm_index st <? Z.of_nat (length (questions data)) - 1)
                  true st
  | _, _ => set_buttons false false false st
  end.

(** [qcm_render_question()] *)
Definition qcm_render_question (st : app_state) : outcome :=
  match qcm_data st with
  | None => (st, None)
  | Some data =>
      let qs := questions data in
      match py_index qs (qcm_index st) with
      | Raise e => (st, Some e)
      | Ret q =>
          let st := set_choice (default (-1) (qcm_user_answers st !! qcm_index st))
                               (q_options q) st in
          (_set_qcm_enabled true st, None)
      end
  end.

(** [qcm_save_choice()] *)
Definition qcm_save_choice (st : app_state) : app_state :=
  let val := qcm_choice_var st in
  if 0 <=? val
  then set_answers (<[qcm_index st := val]> (qcm_user_answers st)) st
  else st.

(** A click on the radio button of value [i]: the button sets the variable,
    then calls its command.  There is a button for each option shown. *)
Definition click_choice (i : nat) (st : app_state) : app_state :=
  if (i <? length (qcm_choices st))%nat
  then qcm_save_choice (set_choice (Z.of_nat i) (qcm_choices st) st)
  else st.

(** [qcm_prev()] *)
Definition qcm_prev (st : app_state) : outcome :=
  match qcm_data st with
  | None => (st, None)
  | Some _ =>
      let st := qcm_save_choice st in
      let st := if 0 <? qcm_index st then set_index (qcm_index st - 1) st else st in
      qcm_render_question st
  end.

(** [qcm_next()] *)
Definition qcm_next (st : app_state) : outcome :=
  match qcm_data st with
  | None => (st, None)
  | Some data =>
      let st := qcm_save_choice st in
      let st := if qcm_index st <? Z.of_nat (length (questions data)) - 1
                then set_index (qcm_index st + 1) st else st in
      qcm_render_question st
  end.

(** One round of the loop of [qcm_finish] (lines 939-952): whether the
    question counts, and its lines. *)
Definition finish_question (answers : gmap Z Z) (idx : Z) (q : question)
    : result (bool * correction) :=
  let options := q_options q in
  correct_idx ← _answer_to_index (q_answer q) options;
  let user_idx := answers !! idx in
  let ok := match correct_idx, user_idx with
            | Some c, Some u => u =? c
            | _, _ => false
            end in
  chosen ← match user_idx with
           | Some u => x ← py_index options u; Ret (Some x)
           | None => Ret None
           end;
  correct ← match correct_idx with
            | Some c => x ← py_index options c; Ret (Some x)
            | None => Ret None
            end;
  Ret (ok, {| c_number := idx + 1; c_question := q_question q;
              c_chosen := chosen; c_correct := correct;
              c_explanation := if nonempty (q_explanation q)
                               then Some (q_explanation q) else None |}).

(** The loop of [qcm_finish] from question [idx] on, with the score and the
    lines so far. *)
Fixpoint finish_loop (answers : gmap Z Z) (idx : Z) (qs : list question)
    (score : Z) (lines : list correction) : result (Z * list correction) :=
  match qs with
  | [] => Ret (score, lines)
  | q :: qs' =>
      '(ok, line) ← finish_question answers idx q;
      finish_loop answers (idx + 1) qs'
                  (if ok : bool then score + 1 else score) (lines ++ [line])%list
  end.

(** [qcm_finish()] *)
Definition qcm_finish (st : app_state) : outcome :=
  match qcm_data st with
  | None => (st, None)
  | Some data =>
      let st := qcm_save_choice st in
      let qs := questions data in
      let total := Z.of_nat (length qs) in
      match finish_loop (qcm_user_answers st) 0 qs 0 [] with
      | Raise e => (st, Some e)
      | Ret (score, lines) =>
          (set_correction (Some lines) (set_status (StatusFinished score total) st), None)
      end
  end.

(** What a generate action reads from outside: the path entered, whether the
    file exists, what reading it gives, what [int(self.qcm_n_var.get())]
    gives, and what the model process does. *)
Record gen_env := {
  path_var : string;
  path_exists : bool;
  file_read : result string;
  n_value : result Z;
  proc : proc_outcome
}.

Fixpoint lstrip_char (x : ascii) (s : string) : string :=
  match s with
  | EmptyString => EmptyString
  | String c s' => if Ascii.eqb c x then lstrip_char x s' else s
  end.

Fixpoint rstrip_char (x : ascii) (s : string) : string :=
  match s with
  | EmptyString => EmptyString
  | String c s' =>
      match rstrip_char x s' with
      | EmptyString => if Ascii.eqb c x then EmptyString else String c EmptyString
      | r => String c r
      end
  end.

(** [s.strip(c)] for a one-character [c]. *)
Definition strip_char (x : ascii) (s : string) : string := rstrip_char x (lstrip_char x s).

Section Generate.

Variable json_loads : string -> option value.

(** The [except Exception] block of [gui_generate_qcm] (lines 866-869). *)
Definition generate_failed (e : exn) (st : app_state) : app_state * list message :=
  (_set_qcm_enabled false (set_status StatusNoQuiz st), [ShowError (Some e) EmptyString]).

(** Lines 853-864: the new quiz is installed and shown. *)
Definition install_quiz (data : quiz) (st : app_state) : app_state * list message :=
  let st := set_session (Some data) 0 ∅ st in
  let st := set_status (StatusGenerated (length (questions data))) st in
  let st := _set_qcm_enabled true st in
  let out := qcm_render_question st in
  match snd out with
  | Some e => generate_failed e (fst out)
  | None => (set_correction None (fst out), [])
  end.

(** [gui_generate_qcm()] *)
Definition gui_generate_qcm (env : gen_env) (st : app_state) : app_state * list message :=
  let path := strip_char dquote (strip (path_var env)) in
  if negb (nonempty path) then (st, [ShowWarning "Choisis un fichier."])
  else if negb (path_exists env) then (st, [ShowError None "Fichier introuvable."])
  else
    match file_read env with
    | Raise e => generate_failed e st
    | Ret text =>
        let text := strip text in
        if negb (nonempty text) then (st, [ShowWarning "Le fichier est vide."])
        else
          match n_value env with
          | Raise e => generate_failed e st
          | Ret n =>
              let st := set_status StatusGenerating st in
              let st := _set_qcm_enabled false st in
              match generate_qcm_quiz (proc env) with
              | Raise e => generate_failed e st
              | Ret raw =>
                  match _normalize_qcm (default VNone (_extract_json_obj json_loads raw)) with
                  | Raise e => generate_failed e st
                  | Ret (Some data) => install_quiz data st
                  | Ret None =>
                      match _normalize_qcm (default VNone (_parse_qcm_from_text raw)) with
                      | Raise e => generate_failed e st
                      | Ret (Some data) => install_quiz data st
                      | Ret None => generate_failed ValueError st
                      end
                  end
              end
          end
    end.

End Generate.

(** ** A model of [json.loads] (module [PyJson])

    The decoder of Python's [json] package with its default settings, used
    where a property is checked on a concrete text; the general properties
    below hold for any decoder.  The conversion of a number with a fraction or
    an exponent (and of [NaN], [Infinity], [-Infinity]) to a [float] is left
    to [float_of].  An escape [\uXXXX] above U+00FF denotes text outside the
    text model and is not decoded. *)

Module PyJson.

Section Decoder.

Variable float_of : string -> value.

Definition is_json_ws (c : ascii) : bool :=
  (code c =? 32)%N || (code c =? 9)%N || (code c =? 10)%N || (code c =? 13)%N.

Fixpoint skip_ws (s : string) : string :=
  match s with
  | String c s' => if is_json_ws c then skip_ws s' else s
  | EmptyString => EmptyString
  end.

(** The longest run of decimal digits at the head of a text, and the rest. *)
Fixpoint span_digits (s : string) : string * string :=
  match s with
  | String c s' =>
      if is_decimal c
      then let '(ds, rest) := span_digits s' in (String c ds, rest)
      else (EmptyString, s)
  | EmptyString => (EmptyString, EmptyString)
  end.

Definition hex_value (c : ascii) : option N :=
  if in_range 48 57 c then Some (code c - 48)%N
  else if in_range 97 102 c then Some (code c - 87)%N
  else if in_range 65 70 c then Some (code c - 55)%N
  else None.

Definition hex4 (s : string) : option (N * string) :=
  match s with
  | String a (String b (String c (String d rest))) =>
      match hex_value a, hex_value b, hex_value c, hex_value d with
      | Some x, Some y, Some z, Some w => Some (((x * 16 + y) * 16 + z) * 16 + w, rest)%N
      | _, _, _, _ => None
      end
  | _ => None
  end.

Definition simple_escape (c : ascii) : option ascii :=
  if Ascii.eqb c dquote then Some dquote
  else if Ascii.eqb c "\" then Some "\"%char
  else if Ascii.eqb c "/" then Some "/"%char
  else if Ascii.eqb c "b" then Some (ascii_of_N 8)
  else if Ascii.eqb c "f" then Some (ascii_of_N 12)
  else if Ascii.eqb c "n" then Some (ascii_of_N 10)
  else if Ascii.eqb c "r" then Some (ascii_of_N 13)
  else if Ascii.eqb c "t" then Some (ascii_of_N 9)
  else None.

(** The text of a string literal after its opening quote, and what follows
    the closing quote.  A control character ends the decoding (strict mode). *)
Fixpoint scanstring (fuel : nat) (s : string) : option (string * string) :=
  match fuel, s with
  | S fuel', String c s' =>
      if Ascii.eqb c dquote then Some (EmptyString, s')
      else if Ascii.eqb c "\" then
        match s' with
        | String e s'' =>
            if Ascii.eqb e "u" then
              match hex4 s'' with
              | Some (n, rest) =>
                  if (n <? 256)%N
                  then '(t, r) ← scanstring fuel' rest; Some (String (ascii_of_N n) t, r)
                  else None
              | None => None
              end
            else
              x ← simple_escape e;
              '(t, r) ← scanstring fuel' s'';
              Some (String x t, r)
        | EmptyString => None
        end
      else if (code c <? 32)%N then None
      else '(t, r) ← scanstring fuel' s'; Some (String c t, r)
  | _, _ => None
  end.

(** The number at the head of a text, by the pattern
    [r"(-?(?:0|[1-9]\d*))(\.\d+)?([eE][-+]?\d+)?"]: its integer part, its
    fraction and exponent (empty when absent), and the rest. *)
Definition match_number (s : string) : option (string * string * string * string) :=
  let '(sign, s1) := match s with
                     | String "-" r => ("-", r)
                     | _ => (EmptyString, s)
                     end in
  match s1 with
  | String c r =>
      if is_decimal c then
        let '(int_digits, s2) :=
          if Ascii.eqb c "0" then ("0", r) else span_digits s1 in
        let '(frac, s3) :=
          match s2 with
          | String "." r2 =>
              let '(ds, r3) := span_digits r2 in
              if nonempty ds then ("." ++ ds, r3) else (EmptyString, s2)
          | _ => (EmptyString, s2)
          end in
        let '(exp, s4) :=
          match s3 with
          | String e r3 =>
              if Ascii.eqb e "e" || Ascii.eqb e "E" then
                let '(sg, r4) := match r3 with
                                 | String "+" r' => ("+", r')
                                 | String "-" r' => ("-", r')
                                 | _ => (EmptyString, r3)
                                 end in
                let '(ds, r5) := span_digits r4 in
                if nonempty ds then (String e (sg ++ ds), r5) else (EmptyString, s3)
              else (EmptyString, s3)
          | EmptyString => (EmptyString, s3)
          end in
        Some (sign ++ int_digits, frac, exp, s4)
      else None
  | EmptyString => None
  end.

(** [int(text)] for the integer part of a number. *)
Definition int_of_literal (text : string) : Z :=
  match text with
  | String "-" ds => - default 0 (int_digits 0 ds)
  | _ => default 0 (int_digits 0 text)
  end.

(** The decoder proper: [scan_once] reads one value, [json_object] the
    members of an object after its brace and [json_array] the items of an
    array after its bracket.  Each call reads at least one character, so a
    fuel of twice the length of the text is never used up. *)
Fixpoint scan_once (fuel : nat) (s : string) : option (value * string) :=
  match fuel with
  | O => None
  | S fuel' =>
      match s with
      | EmptyString => None
      | String c r =>
          if Ascii.eqb c dquote then
            '(t, r') ← scanstring (String.length r) r; Some (VStr t, r')
          else if Ascii.eqb c "{" then
            match skip_ws r with
            | String "}" r' => Some (VDict [], r')
            | r' => json_object fuel' [] r'
            end
          else if Ascii.eqb c "[" then
            match skip_ws r with
            | String "]" r' => Some (VList [], r')
            | r' => json_array fuel' [] r'
            end
          else
            match prefix_rest "null" s, prefix_rest "true" s, prefix_rest "false" s with
            | Some r', _, _ => Some (VNone, r')
            | _, Some r', _ => Some (VBool true, r')
            | _, _, Some r' => Some (VBool false, r')
            | _, _, _ =>
                match match_number s with
                | Some (int_part, frac, exp, r') =>
                    if nonempty frac || nonempty exp
                    then Some (float_of (int_part ++ frac ++ exp), r')
                    else Some (VInt (int_of_literal int_part), r')
                | None =>
                    match prefix_rest "NaN" s, prefix_rest "Infinity" s,
                          prefix_rest "-Infinity" s with
                    | Some r', _, _ => Some (float_of "NaN", r')
                    | _, Some r', _ => Some (float_of "Infinity", r')
                    | _, _, Some r' => Some (float_of "-Infinity", r')
                    | _, _, _ => None
                    end
                end
            end
      end
  end
with json_object (fuel : nat) (acc : list (string * value)) (s : string)
    : option (value * string) :=
  match fuel with
  | O => None
  | S fuel' =>
      match s with
      | String c r =>
          if Ascii.eqb c dquote then
            '(key, r1) ← scanstring (String.length r) r;
            match skip_ws r1 with
            | String ":" r2 =>
                '(v, r3) ← scan_once fuel' (skip_ws r2);
                let acc := dict_set key v acc in
                match skip_ws r3 with
                | String "}" r4 => Some (VDict acc, r4)
                | String "," r4 => json_object fuel' acc (skip_ws r4)
                | _ => None
                end
            | _ => None
            end
          else None
      | EmptyString => None
      end
  end
with json_array (fuel : nat) (acc : list value) (s : string)
    : option (value * string) :=
  match fuel with
  | O => None
  | S fuel' =>
      '(v, r1) ← scan_once fuel' s;
      match skip_ws r1 with
      | String "]" r2 => Some (VList (acc ++ [v]), r2)
      | String "," r2 => json_array fuel' (acc ++ [v])%list (skip_ws r2)
      | _ => None
      end
  end.

(** [json.loads(s)], [None] when it raises. *)
Definition loads (s : string) : option value :=
  '(v, rest) ← scan_once (S (2 * String.length s)) (skip_ws s);
  match skip_ws rest with
  | EmptyString => Some v
  | _ => None
  end.

End Decoder.

End PyJson.

(** The decoder used on concrete texts.  None of those texts holds a number
    with a fraction or an exponent, so the conversion to [float] is never
    consulted; it keeps the literal as the text of the value. *)
Definition json_loads_model : string -> option value :=
  PyJson.loads (fun lit => VFloat true lit).

(** A double quote, to write JSON texts. *)
Definition dq : string := String dquote EmptyString.

(** * Definitions for the statements *)

(** The text of the specification's example, one line after the other. *)
Definition sample_text : string :=
  "Q1: What is 2+2?" ++ nl ++ "A) 3" ++ nl ++ "B) 4" ++ nl ++ "C) 5" ++ nl
  ++ "ANSWER: B" ++ nl ++ "EXPLANATION: Basic arithmetic.".

(** The cleaned remainder of a block, when the block starts with its
    [Qn] marker. *)
Definition block_remainder (block : string) : option string :=
  match Re.re_match flags_I_S re_block_head block with
  | Some m => Some (clean_rest (strip (Re.group_str block m 2)))
  | None => None
  end.

(** A block with exactly one recognizable option line. *)
Definition one_option_block : string := "Q1: Only one?" ++ nl ++ "A) yes".

(** The text made of the one character U+00B2 (superscript two). *)
Definition superscript_two : string := String (ascii_of_N 178) EmptyString.

(** The value of a chain [a or b or ... or last]: the first truthy one of the
    values before [last], and [last] when there is none. *)
Definition or_chain (l : list value) (last : value) : value :=
  default last (List.find truthy l).

(** A value that holds no token: null, or an empty text, list or mapping. *)
Definition is_blank (v : value) : bool :=
  match v with
  | VNone => true
  | VStr s => negb (nonempty s)
  | VList l => match l with [] => true | _ => false end
  | VDict d => match d with [] => true | _ => false end
  | _ => false
  end.

(** A number that is zero: 0, 0.0 or [False]. *)
Definition is_zero_number (v : value) : bool :=
  match v with
  | VInt z => z =? 0
  | VBool b => negb b
  | VFloat nz _ => negb nz
  | _ => false
  end.

(** The token held under a key: the value there, unless the key is absent or
    its value is blank. *)
Definition token_at (k : string) (d : list (string * value)) : option value :=
  match assoc k d with
  | Some v => if is_blank v then None else Some v
  | None => None
  end.

(** The answer token by priority of the keys. *)
Definition answer_token (d : list (string * value)) : value :=
  match token_at "answer" d, token_at "correct" d with
  | Some v, _ => v
  | None, Some v => v
  | None, None => dict_get "correct_answer" d
  end.

Definition no_zero_at (k : string) (d : list (string * value)) : Prop :=
  is_zero_number (dict_get k d) = false.

(** A question whose [answer] key is present and empty, with a [correct] key. *)
Definition empty_answer_question : list (string * value) :=
  [("question", VStr "Q"); ("options", VList [VStr "a"; VStr "b"]);
   ("answer", VStr ""); ("correct", VStr "B")].

Definition lettered_question : list (string * value) :=
  [("q", VStr " Which? "); ("choices", VDict [("B", VStr "two"); ("A", VStr " one ")]);
   ("correct", VInt 1); ("answer", VNone)].

(** The sequence of question entries of a decoded value: the value itself
    when it is a list, else what its key [questions] holds, else what its key
    [quiz] holds; no entry when that is not a list. *)
Definition question_entries (data : value) : list value :=
  match data with
  | VList l => l
  | VDict d =>
      match (if dict_has "questions" d then assoc "questions" d else assoc "quiz" d) with
      | Some (VList l) => l
      | _ => []
      end
  | _ => []
  end.

Definition text_of (o : option value) : string :=
  match o with
  | Some (VStr s) => strip s
  | _ => EmptyString
  end.

(** The question text and the explanation recovered from a mapping. *)
Definition recovered_text (d : list (string * value)) : string :=
  text_of (List.find truthy [dict_get "question" d; dict_get "q" d]).

Definition recovered_explanation (d : list (string * value)) : string :=
  text_of (List.find truthy [dict_get "explanation" d; dict_get "exp" d]).

(** The options recovered from a mapping: the trimmed, non-empty items of a
    list, or the entries of a lettered mapping in the order A to F. *)
Definition recovered_options (d : list (string * value)) : list string :=
  match List.find truthy [dict_get "options" d; dict_get "choices" d; dict_get "answers" d] with
  | Some (VList l) => List.filter nonempty (map (fun x => strip (py_str x)) l)
  | Some (VDict m) =>
      map (fun k => strip (k ++ ") " ++ strip (py_str (dict_get k m))))
          (List.filter (fun k => dict_has k m) option_letters)
  | _ => []
  end.

(** A question survives when its text is not empty and it has two options
    at least. *)
Definition survives (d : list (string * value)) : bool :=
  nonempty (recovered_text d) && (2 <=? length (recovered_options d))%nat.

Definition canonical (d : list (string * value)) : question :=
  {| q_question := recovered_text d;
     q_options := recovered_options d;
     q_answer := or_chain [dict_get "answer" d; dict_get "correct" d]
                          (dict_get "correct_answer" d);
     q_explanation := recovered_explanation d |}.

Definition surviving (q : value) : option question :=
  match q with
  | VDict d => if survives d then Some (canonical d) else None
  | _ => None
  end.

(** The surviving questions of a decoded value, in their original order. *)
Definition survivors (data : value) : list question :=
  omap surviving (question_entries data).

(** The fields of a question mapping have the types the code handles: the
    text and the explanation found are texts, the options found are a list or
    a mapping. *)
Definition text_or_none (o : option value) : Prop :=
  match o with
  | None | Some (VStr _) => True
  | _ => False
  end.

Definition options_or_none (o : option value) : Prop :=
  match o with
  | None | Some (VList _) | Some (VDict _) => True
  | _ => False
  end.

Definition well_typed (d : list (string * value)) : Prop :=
  text_or_none (List.find truthy [dict_get "question" d; dict_get "q" d]) /\
  text_or_none (List.find truthy [dict_get "explanation" d; dict_get "exp" d]) /\
  options_or_none
    (List.find truthy [dict_get "options" d; dict_get "choices" d; dict_get "answers" d]).

Definition well_typed_entries (data : value) : Prop :=
  forall q d, q ∈ question_entries data -> q = VDict d -> well_typed d.

Definition starts_nonspace (s : string) : Prop :=
  match s with
  | String c _ => is_space c = false
  | EmptyString => False
  end.

(** The list built from the keys [ks] of a lettered mapping. *)
Definition lettered_from (m : list (string * value)) (ks : list string) : list value :=
  omap (fun k => match assoc k m with
                 | Some v => Some (VStr (k ++ ") " ++ strip (py_str v)))
                 | None => None
                 end) ks.

(** A decoded payload whose only question has a number as its text. *)
Definition number_as_text : value :=
  VDict [("questions",
          VList [VDict [("question", VInt 1);
                        ("options", VList [VStr "a"; VStr "b"])]])].

(** A payload with an entry that is no mapping, a question without text, a
    question with one option left after trimming, and two good questions. *)
Definition mixed_payload : value :=
  VDict [("quiz",
    VList [VStr "noise";
           VDict [("question", VStr "  "); ("options", VList [VStr "a"; VStr "b"])];
           VDict [("q", VStr "First?"); ("choices", VList [VStr " a "; VStr " "; VInt 7])];
           VDict [("question", VStr "One?"); ("options", VList [VStr "a"; VStr ""])];
           VDict [("question", VStr "Second?");
                  ("answers", VDict [("B", VStr "no"); ("A", VStr "yes"); ("Z", VStr "?")]);
                  ("correct_answer", VStr "A"); ("exp", VStr " because ")]])].

Definition mixed_survivors : list question :=
  [{| q_question := "First?"; q_options := ["a"; "7"];
      q_answer := VNone; q_explanation := "" |};
   {| q_question := "Second?"; q_options := ["A) yes"; "B) no"];
      q_answer := VStr "A"; q_explanation := "because" |}].

(** The model invocation fails: the command is missing, the call fails
    otherwise, or the output is empty once trimmed. *)
Definition model_fails (p : proc_outcome) : Prop :=
  match p with
  | ProcNotFound | ProcFailed => True
  | ProcDone stdout _ => strip (default EmptyString stdout) = EmptyString
  end.

(** A normalization that yields no quiz: it raises or returns [None]. *)
Definition no_quiz (r : result (option quiz)) : Prop :=
  match r with
  | Ret (Some _) => False
  | _ => True
  end.

(** What the radio buttons display: the variable and the options shown. *)
Definition display (st : app_state) : Z * list string :=
  (qcm_choice_var st, qcm_choices st).

Section Decodings.

Variable json_loads : string -> option value.

(** The two decodings tried on a raw model answer. *)
Definition from_json (raw : string) : result (option quiz) :=
  _normalize_qcm (default VNone (_extract_json_obj json_loads raw)).
Definition from_text (raw : string) : result (option quiz) :=
  _normalize_qcm (default VNone (_parse_qcm_from_text raw)).

(** The quiz a raw model answer yields, if any: from JSON first, from the
    text blocks when JSON gave [None]. *)
Definition quiz_of_raw (raw : string) : option quiz :=
  match from_json raw with
  | Ret (Some data) => Some data
  | Ret None =>
      match from_text raw with
      | Ret (Some data) => Some data
      | _ => None
      end
  | Raise _ => None
  end.

End Decodings.

(** The user actions on the quiz tab. *)
Inductive action :=
  | Generate (env : gen_env)
  | Click (i : nat)
  | Prev
  | Next
  | Finish.

Definition nonneg_selection_saved (st : app_state) : gmap Z Z :=
  if 0 <=? qcm_choice_var st
  then <[qcm_index st := qcm_choice_var st]> (qcm_user_answers st)
  else qcm_user_answers st.

(** The current question is shown: the radio buttons are its options. *)
Definition current_shown (st : app_state) : Prop :=
  match qcm_data st with
  | Some data =>
      exists q, 0 <= qcm_index st /\
                questions data !! Z.to_nat (qcm_index st) = Some q /\
                qcm_choices st = q_options q
  | None => qcm_choices st = []
  end.

(** The selection displayed is the answer recorded for the current
    question, [-1] when there is none. *)
Definition selection_recorded (st : app_state) : Prop :=
  qcm_choice_var st = default (-1) (qcm_user_answers st !! qcm_index st).

(** Every recorded answer is an option of its question. *)
Definition answers_in_range (st : app_state) : Prop :=
  forall k v, qcm_user_answers st !! k = Some v ->
    exists data q, qcm_data st = Some data /\ 0 <= k /\
                   questions data !! Z.to_nat k = Some q /\
                   0 <= v < Z.of_nat (length (q_options q)).

Record session_ok (st : app_state) : Prop := {
  ok_shown : current_shown st;
  ok_selection : selection_recorded st;
  ok_answers : answers_in_range st
}.

(** A loaded session: a quiz is stored and the index is one of its
    questions. *)
Definition loaded (st : app_state) (data : quiz) : Prop :=
  qcm_data st = Some data /\
  0 <= qcm_index st < Z.of_nat (length (questions data)).

(** The index after [qcm_prev] and after [qcm_next]. *)
Definition prev_index (i : Z) : Z := if 0 <? i then i - 1 else i.
Definition next_index (n i : Z) : Z := if i <? n - 1 then i + 1 else i.

(** Navigation: a list of [qcm_prev] and [qcm_next]. *)
Inductive nav := NavPrev | NavNext.

Definition nav_step (a : nav) (st : app_state) : app_state :=
  match a with
  | NavPrev => fst (qcm_prev st)
  | NavNext => fst (qcm_next st)
  end.

Fixpoint nav_run (l : list nav) (st : app_state) : app_state :=
  match l with
  | [] => st
  | a :: l' => nav_run l' (nav_step a st)
  end.

(** The indices at which the operations of a navigation are called. *)
Fixpoint nav_visited (l : list nav) (st : app_state) : list Z :=
  match l with
  | [] => []
  | a :: l' => qcm_index st :: nav_visited l' (nav_step a st)
  end.

Section Actions.

Variable json_loads : string -> option value.

(** The state an action leaves, whether its method returns or raises. *)
Definition perform (a : action) (st : app_state) : app_state :=
  match a with
  | Generate env => fst (gui_generate_qcm json_loads env st)
  | Click i => click_choice i st
  | Prev => fst (qcm_prev st)
  | Next => fst (qcm_next st)
  | Finish => fst (qcm_finish st)
  end.

(** The states reached from the start of the application by user actions. *)
Inductive reachable : app_state -> Prop :=
  | reach_init : reachable initial_state
  | reach_step st a : reachable st -> reachable (perform a st).

Definition run (l : list action) : app_state :=
  fold_left (fun st a => perform a st) l initial_state.

End Actions.

(** The question at index [idx] counts as correct: its answer resolves to a
    known index, an answer is recorded for it, and the two are equal. *)
Definition is_correct (answers : gmap Z Z) (idx : Z) (q : question) : bool :=
  match _answer_to_index (q_answer q) (q_options q), answers !! idx with
  | Ret (Some c), Some u => u =? c
  | _, _ => false
  end.

(** The number of correct questions among [qs], the first being at [idx]. *)
Fixpoint count_correct (answers : gmap Z Z) (idx : Z) (qs : list question) : Z :=
  match qs with
  | [] => 0
  | q :: qs' => Z.b2z (is_correct answers idx q) + count_correct answers (idx + 1) qs'
  end.

(** The resolver returns on the answer of the question. *)
Definition resolves (q : question) : Prop :=
  exists r, _answer_to_index (q_answer q) (q_options q) = Ret r.

(** A JSON text with the key [k] between quotes. *)
Definition jkey (k : string) : string := dq ++ k ++ dq.

(** A model answer with three questions; the answer of the third is given
    as a one-based number. *)
Definition sample_raw : string :=
  "Voici le QCM : {" ++ jkey "questions" ++ ": ["
  ++ "{" ++ jkey "question" ++ ": " ++ jkey "Q1?" ++ ", " ++ jkey "options" ++ ": ["
       ++ jkey "a" ++ ", " ++ jkey "b" ++ ", " ++ jkey "c" ++ "], "
       ++ jkey "answer" ++ ": " ++ jkey "B" ++ "}, "
  ++ "{" ++ jkey "question" ++ ": " ++ jkey "Q2?" ++ ", " ++ jkey "options" ++ ": ["
       ++ jkey "x" ++ ", " ++ jkey "y" ++ "], "
       ++ jkey "answer" ++ ": " ++ jkey "maybe" ++ "}, "
  ++ "{" ++ jkey "question" ++ ": " ++ jkey "Q3?" ++ ", " ++ jkey "options" ++ ": ["
       ++ jkey "u" ++ ", " ++ jkey "v" ++ "], "
       ++ jkey "answer" ++ ": " ++ jkey "2" ++ "}]}".

Definition sample_quiz : quiz :=
  {| questions :=
       [{| q_question := "Q1?"; q_options := ["a"; "b"; "c"];
           q_answer := VStr "B"; q_explanation := "" |};
        {| q_question := "Q2?"; q_options := ["x"; "y"];
           q_answer := VStr "maybe"; q_explanation := "" |};
        {| q_question := "Q3?"; q_options := ["u"; "v"];
           q_answer := VStr "2"; q_explanation := "" |}] |}.

Definition env_with (raw : string) : gen_env :=
  {| path_var := "cours.txt"; path_exists := true; file_read := Ret "Le cours.";
     n_value := Ret 3; proc := ProcDone (Some raw) None |}.

(** The session after the quiz is generated and the second option of the
    first question is selected. *)
Definition sample_session : app_state :=
  run json_loads_model [Generate (env_with sample_raw); Click 1].

(** A longer use of the quiz tab. *)
Definition sample_run : list action :=
  [Generate (env_with sample_raw); Click 1; Next; Click 0; Next; Next; Click 1;
   Prev; Finish; Generate (env_with "rien")].

(** A model answer whose only question has the answer text U+00B2. *)
Definition superscript_raw : string :=
  "{" ++ jkey "questions" ++ ": ["
  ++ "{" ++ jkey "question" ++ ": " ++ jkey "Q?" ++ ", " ++ jkey "options" ++ ": ["
       ++ jkey "a" ++ ", " ++ jkey "b" ++ ", " ++ jkey "c" ++ "], "
       ++ jkey "answer" ++ ": " ++ jkey superscript_two ++ "}]}".

Definition superscript_session : app_state :=
  run json_loads_model [Generate (env_with superscript_raw); Click 1].

(** The text from the first [o] on, and the text up to the last [c]. *)
Fixpoint from_first (o : ascii) (s : string) : option string :=
  match s with
  | EmptyString => None
  | String x s' => if Ascii.eqb x o then Some s else from_first o s'
  end.

Fixpoint upto_last (c : ascii) (s : string) : option string :=
  match s with
  | EmptyString => None
  | String x s' =>
      match upto_last c s' with
      | Some p => Some (String x p)
      | None => if Ascii.eqb x c then Some (String x EmptyString) else None
      end
  end.

(** The text from the first [o] to the last [c] after it, both included. *)
Definition span_between (o c : ascii) (t : string) : option string :=
  match from_first o t with
  | Some (String x rest) => option_map (String x) (upto_last c rest)
  | _ => None
  end.

(** The first success of a list of attempts. *)
Fixpoint first_success (l : list (option value)) : option value :=
  match l with
  | [] => None
  | Some v :: _ => Some v
  | None :: l' => first_success l'
  end.

(** The pattern [o[\s\S]*c] for two delimiters; [re_braces] and
    [re_brackets] are its two instances. *)
Definition re_delimited (o c : ascii) : Re.regex :=
  Re.seq [Re.RChar o; Re.RStar re_any_char; Re.RChar c].

(** Where the first delimited span of a text starts, and the span. *)
Fixpoint find_span (o c : ascii) (s : string) : option (nat * string) :=
  match s with
  | EmptyString => None
  | String x r =>
      if Ascii.eqb x o then
        match upto_last c r with
        | Some p => Some (O, String x p)
        | None => None
        end
      else
        match find_span o c r with
        | Some (i, m) => Some (S i, m)
        | None => None
        end
  end.

(** The body and the continuation of the loop of [o[\s\S]*c]: any character,
    then the closing delimiter. *)
Definition any_body : Re.mstate -> Re.cont -> option Re.mstate :=
  Re.rmatch Re.no_flags re_any_char.
Definition close_k (c : ascii) : Re.cont :=
  fun st => Re.step_char (Re.char_matches Re.no_flags c) st Some.

Fixpoint has_no (x : ascii) (s : string) : Prop :=
  match s with
  | EmptyString => True
  | String y s' => Ascii.eqb y x = false /\ has_no x s'
  end.

(** An object followed by text that holds a second object. *)
Definition first_object : string := "{" ++ jkey "a" ++ ": 1}".
Definition two_objects : string := first_object ++ " et {" ++ jkey "b" ++ ": 2}".

Definition is_A_F (x : ascii) : bool := in_range 65 70 x.

(** The first letter A-F of a text that stands alone: no word character
    before it ([before] tells whether one precedes the text) nor after it. *)
Fixpoint standalone_from (before : bool) (s : string) : option ascii :=
  match s with
  | EmptyString => None
  | String x r =>
      let after := match r with String y _ => is_word y | EmptyString => false end in
      if is_A_F x && negb before && negb after then Some x
      else standalone_from (is_word x) r
  end.

Definition first_standalone_letter (s : string) : option ascii := standalone_from false s.

(** The same search, with the offset of the letter. *)
Fixpoint find_standalone (before : bool) (s : string) : option (nat * ascii) :=
  match s with
  | EmptyString => None
  | String x r =>
      let after := match r with String y _ => is_word y | EmptyString => false end in
      if is_A_F x && negb before && negb after then Some (O, x)
      else match find_standalone (is_word x) r with
           | Some (i, y) => Some (S i, y)
           | None => None
           end
  end.

(** The position of a letter in the alphabet, from 0. *)
Definition letter_position (x : ascii) : Z := Z.of_N (code x) - 65.

(** What the resolver does with the trimmed text [t] of an answer, for [n]
    options. *)
Definition resolve_text (t : string) (n : Z) : result (option Z) :=
  if negb (nonempty t) then Ret None
  else
    match first_standalone_letter (upper t) with
    | Some x => Ret (if in_bounds (letter_position x) n then Some (letter_position x) else None)
    | None =>
        if isdigit t then
          match int_digits 0 t with
          | Some val =>
              Ret (if in_bounds val n then Some val
                   else if (1 <=? val) && (val <=? n) then Some (val - 1)
                   else None)
          | None => Raise ValueError
          end
        else Ret None
    end.

(** * Further definitions for the statements *)

(** The invariant of a canonical question: a trimmed, non-empty text and two
    options at least, none of them empty. *)
Definition question_ok (q : question) : Prop :=
  nonempty (q_question q) = true /\
  strip (q_question q) = q_question q /\
  (2 <= length (q_options q))%nat /\
  Forall (fun o => nonempty o = true) (q_options q).

Definition quiz_ok (data : quiz) : Prop :=
  questions data <> [] /\ Forall question_ok (questions data).

(** A text holds a character that is not white space. *)
Fixpoint has_nonspace (s : string) : bool :=
  match s with
  | EmptyString => false
  | String c s' => negb (is_space c) || has_nonspace s'
  end.

(** The fields of a question recovered by the text-block parser. *)
Definition parsed_text (v : value) : string :=
  match v with VDict d => py_str (dict_get "question" d) | _ => EmptyString end.
Definition parsed_explanation (v : value) : string :=
  match v with VDict d => py_str (dict_get "explanation" d) | _ => EmptyString end.
Definition parsed_options (v : value) : list string :=
  match v with VDict d => seq_items (dict_get "options" d) | _ => [] end.
Definition parsed_answer (v : value) : value :=
  match v with VDict d => dict_get "answer" d | _ => VNone end.

(** The questions the text-block parser recovers from a raw text. *)
Definition parsed_questions (raw : string) : list value :=
  omap parse_block (split_blocks raw).

(** The numbers 1, 2, ... of the corrections of [n] questions from [idx]. *)
Fixpoint numbers_from (idx : Z) (n : nat) : list Z :=
  match n with
  | O => []
  | S n' => (idx + 1) :: numbers_from (idx + 1) n'
  end.

(** A position of a match attempt in the text [s]: the text left is what
    follows the first [m_pos] characters of [s]. *)
Definition at_text (s : string) (st : Re.mstate) : Prop :=
  exists pre, s = pre ++ Re.m_rest st /\ String.length pre = Re.m_pos st.

(** [st'] is a later position of the same attempt: further on in the same
    text, with the groups closed at [st] below those closed since. *)
Definition later (st st' : Re.mstate) : Prop :=
  exists mid new,
    Re.m_rest st = mid ++ Re.m_rest st' /\
    Re.m_pos st' = (Re.m_pos st + String.length mid)%nat /\
    Re.m_caps st' = (new ++ Re.m_caps st)%list.

(** The letters A to F in either case, and the upper-case one of a letter. *)
Definition is_a_f_nocase (x : ascii) : bool := in_range 65 70 x || in_range 97 102 x.
Definition letter_text (x : ascii) : string := String x EmptyString.

(** The answer of a question is absent or one upper-case letter A-F. *)
Definition letter_answer (ans : value) : Prop :=
  ans = VNone \/ exists x, is_A_F x = true /\ ans = VStr (letter_text x).

(** What the resolver gives for a letter answer and [n] options. *)
Definition letter_index (ans : value) (n : Z) : option Z :=
  match ans with
  | VStr (String x EmptyString) =>
      if in_bounds (letter_position x) n then Some (letter_position x) else None
  | _ => None
  end.

(** The buttons of the quiz tab are either all disabled or, a quiz being
    stored, set for the current index: [Précédent] is enabled unless the
    first question is shown, [Suivant] unless the last one is, [Terminer]
    is enabled. *)
Definition buttons_off (st : app_state) : Prop :=
  btn_prev st = false /\ btn_next st = false /\ btn_finish st = false.

Definition buttons_ok (st : app_state) : Prop :=
  buttons_off st \/
  exists data, qcm_data st = Some data /\
    btn_prev st = negb (qcm_index st =? 0) /\
    btn_next st = (qcm_index st <? Z.of_nat (length (questions data)) - 1) /\
    btn_finish st = true.

(** A state is consistent: what is displayed is the current question of the
    stored quiz with the answer recorded for it, and every recorded answer
    is an option of the question it is recorded for. *)
Definition consistent (st : app_state) : Prop :=
  qcm_choice_var st = default (-1) (qcm_user_answers st !! qcm_index st) /\
  match qcm_data st with
  | Some data =>
      (exists q, 0 <= qcm_index st /\
                 questions data !! Z.to_nat (qcm_index st) = Some q /\
                 qcm_choices st = q_options q) /\
      (forall k v, qcm_user_answers st !! k = Some v ->
         exists q, 0 <= k /\ questions data !! Z.to_nat k = Some q /\
                   0 <= v < Z.of_nat (length (q_options q)))
  | None => qcm_choices st = [] /\ qcm_user_answers st = ∅
  end.

(** The letter Q in either case. *)
Definition is_Q (x : ascii) : bool := Ascii.eqb (lower x) (lower "Q").

(** Some line of the text has a character satisfying [p] as its first
    character that is not white space; [fresh] tells whether the text starts
    a line. *)
Fixpoint line_start (p : ascii -> bool) (fresh : bool) (s : string) : bool :=
  match s with
  | EmptyString => false
  | String x r =>
      (fresh && p x) || line_start p (Ascii.eqb x Re.newline || (fresh && is_space x)) r
  end.

(** The text [_parse_qcm_from_text] splits into blocks (lines 171-172). *)
Definition block_text (raw : string) : string := replace cr_nl nl (strip raw).

(** A model answer in the layout that [QCM_PROMPT] shows: each question
    line starts with a dash. *)
Definition prompt_layout_sample : string :=
  "- Q1: Capitale de la France ?" ++ nl ++
  "  A) Paris" ++ nl ++
  "  B) Rome" ++ nl ++
  "  C) Madrid" ++ nl ++
  "  D) Berlin" ++ nl ++
  "  ANSWER: A" ++ nl ++
  "  EXPLANATION: Paris est la capitale." ++ nl ++
  "- Q2: 2 + 2 ?" ++ nl ++
  "  A) 3" ++ nl ++
  "  B) 4" ++ nl ++
  "  ANSWER: B".

(** * The notes store ([storage.py], lines 138-227)

    The directory of the notes is a finite map from file names to contents,
    and the ["notes"] list of [index.json] a list of entries.  The file
    system is taken to work: the data directory exists after
    [init_storage], the index is read back as it was written, and writing a
    file succeeds.  File names are compared exactly.  The only exception
    left is then [FileNotFoundError], for which the functions below return
    [None]. *)

Record note_entry := {
  n_title : string;
  n_file : string;
  n_created_at : string
}.

Record note_store := {
  note_files : gmap string string;
  note_index : list note_entry
}.

(** The store right after the first [init_storage]. *)
Definition empty_store : note_store := {| note_files := ∅; note_index := [] |}.

(** [c.isalnum()] *)
Definition is_alnum (c : ascii) : bool := is_alpha c || is_numeric c.

(** [c.isalnum() or c in (" ", "_", "-")] *)
Definition title_char (c : ascii) : bool :=
  is_alnum c || Ascii.eqb c " " || Ascii.eqb c "_" || Ascii.eqb c "-".

(** ["".join(c for c in s if p(c))] *)
Fixpoint filter_str (p : ascii -> bool) (s : string) : string :=
  match s with
  | EmptyString => EmptyString
  | String c s' => if p c then String c (filter_str p s') else filter_str p s'
  end.

(** Lines 142-149. *)
Definition safe_title (title : string) : string :=
  let s := replace " " "_" (strip (filter_str title_char title)) in
  if negb (nonempty s) then "note" else s.

Definition note_filename (title : string) : string := safe_title title ++ ".txt".

(** [create_note(title, content)], at the time [now]. *)
Definition create_note (now title content : string) (st : note_store) : note_store :=
  let filename := note_filename title in
  {| note_files := <[filename := content]> (note_files st);
     note_index := note_index st ++
                   [{| n_title := title; n_file := filename; n_created_at := now |}] |}.


(** The first entry of the index with the title. *)
Fixpoint find_note (title : string) (index : list note_entry) : option note_entry :=
  match index with
  | [] => None
  | n :: index' => if String.eqb (n_title n) title then Some n else find_note title index'
  end.

(** [find_note_path_by_title(title)]: the file name under the directory of
    the notes, [None] when no entry has the title. *)
Definition find_note_path_by_title (title : string) (st : note_store) : option string :=
  option_map n_file (find_note title (note_index st)).

(** [read_note(title)] *)
Definition read_note (title : string) (st : note_store) : option string :=
  match find_note_path_by_title title st with
  | None => None
  | Some path => note_files st !! path
  end.

(** [edit_note(title, new_content)] *)
Definition edit_note (title new_content : string) (st : note_store) : option note_store :=
  match find_note_path_by_title title st with
  | None => None
  | Some path =>
      match note_files st !! path with
      | None => None
      | Some _ =>
          Some {| note_files := <[path := new_content]> (note_files st);
                  note_index := note_index st |}
      end
  end.

(** [delete_note(title)] *)
Definition delete_note (title : string) (st : note_store) : option note_store :=
  match find_note title (note_index st) with
  | None => None
  | Some note_obj =>
      Some {| note_files := delete (n_file note_obj) (note_files st);
              note_index := filter (fun n => n_title n <> title) (note_index st) |}
  end.

(** The operations on the notes, and the stores they reach from the empty
    one; an operation that raises leaves the store as it is. *)
Inductive note_action :=
  | CreateNote (now title content : string)
  | EditNote (title new_content : string)
  | DeleteNote (title : string).

Definition note_step (a : note_action) (st : note_store) : note_store :=
  match a with
  | CreateNote now title content => create_note now title content st
  | EditNote title new_content => default st (edit_note title new_content st)
  | DeleteNote title => default st (delete_note title st)
  end.

Definition notes_run (l : list note_action) : note_store :=
  fold_left (fun st a => note_step a st) l empty_store.

Inductive notes_reachable : note_store -> Prop :=
  | notes_init : notes_reachable empty_store
  | notes_step st a : notes_reachable st -> notes_reachable (note_step a st).

(** Every entry of the index names the file made from its title. *)
Definition index_ok (st : note_store) : Prop :=
  Forall (fun n => n_file n = note_filename (n_title n)) (note_index st).

(** The characters of the name of a note file before its extension. *)
Definition filename_char (c : ascii) : bool :=
  is_alnum c || Ascii.eqb c "_" || Ascii.eqb c "-".

(** The titles listed. *)
Definition note_titles (st : note_store) : list string := map n_title (note_index st).

(** [s.replace(" ", "_")], character by character. *)
Fixpoint underscore_spaces (s : string) : string :=
  match s with
  | EmptyString => EmptyString
  | String c s' => String (if Ascii.eqb c " " then "_"%char else c) (underscore_spaces s')
  end.

(** A pattern without capturing group. *)
Fixpoint plain (r : Re.regex) : bool :=
  match r with
  | Re.RSeq r1 r2 | Re.RAlt r1 r2 => plain r1 && plain r2
  | Re.RStar r1 | Re.RPlus r1 | Re.RPlusLazy r1 | Re.RLook r1 => plain r1
  | Re.RGroup _ _ => false
  | _ => true
  end.

(** A later position of the same attempt at which no group was closed
    since. *)
Definition later_plain (st st' : Re.mstate) : Prop :=
  later st st' /\ Re.m_caps st' = Re.m_caps st.

(** The text between two positions of an attempt. *)
Definition between (st st' : Re.mstate) (mid : string) : Prop :=
  Re.m_rest st = mid ++ Re.m_rest st' /\
  Re.m_pos st' = (Re.m_pos st + String.length mid)%nat.

(** An option labelled by an upper-case letter A-F and a closing
    parenthesis. *)
Definition labelled (o : string) : Prop :=
  exists y rest, is_A_F y = true /\ o = String y (String ")" rest).

(** * The structured CV ([ollama_client.py], lines 41-214) *)

Definition backtick : ascii := ascii_of_N 96.
Definition fence : string :=
  String backtick (String backtick (String backtick EmptyString)).
Definition fence_json : string :=
  String backtick (String backtick (String backtick "json")).

Definition flags_S :=
  {| Re.ignorecase := false; Re.multiline := false; Re.dotall := true |}.

(** The lazy star [r*?]: no round first, then one round and, lazily, more. *)
Definition star_lazy (r : Re.regex) : Re.regex := Re.RAlt Re.REps (Re.RPlusLazy r).

(** [r"\{.*?\}"] *)
Definition re_block : Re.regex :=
  Re.seq [Re.RChar "{"; star_lazy Re.RAny; Re.RChar "}"].

(** [r"```json\s*(\{.*?\})\s*```"] and [r"```\s*(\{.*?\})\s*```"] *)
Definition re_fenced_json : Re.regex :=
  Re.seq [Re.lit fence_json; Re.RStar re_s; Re.RGroup 1 re_block; Re.RStar re_s;
          Re.lit fence].
Definition re_fenced : Re.regex :=
  Re.seq [Re.lit fence; Re.RStar re_s; Re.RGroup 1 re_block; Re.RStar re_s;
          Re.lit fence].

(** [re.findall(r, s)] for a pattern without group: the texts matched. *)
Definition re_findall (fl : Re.flags) (r : Re.regex) (s : string) : list string :=
  map (Re.group0 s) (Re.re_finditer fl r s).

(** [l.sort(key=len, reverse=True)]: the longest first, texts of the same
    length in their order in [l]. *)
Fixpoint insert_by_len (x : string) (l : list string) : list string :=
  match l with
  | [] => [x]
  | y :: l' =>
      if (String.length y <=? String.length x)%nat then x :: l
      else y :: insert_by_len x l'
  end.

Definition sort_by_len_desc (l : list string) : list string :=
  foldr insert_by_len [] l.

(** [_extract_json(text)] *)
Definition _extract_json (text : string) : result string :=
  match Re.re_search flags_I_S re_fenced_json text with
  | Some m => Ret (strip (Re.group_str text m 1))
  | None =>
      match Re.re_search flags_S re_fenced text with
      | Some m => Ret (strip (Re.group_str text m 1))
      | None =>
          let blocks := re_findall flags_S re_block text in
          match blocks with
          | [] => Raise ValueError
          | _ => Ret (strip (first_piece (sort_by_len_desc blocks)))
          end
      end
  end.

Definition cr : string := String (ascii_of_N 13) EmptyString.
Definition tab : string := String (ascii_of_N 9) EmptyString.

(** Lines 76-78: the key of a mapping, cleaned. *)
Definition clean_key (k : string) : string :=
  let kk := strip k in
  let kk := replace tab EmptyString (replace cr EmptyString (replace nl EmptyString kk)) in
  strip_char squote (strip_char dquote kk).

(** [_clean_keys(obj)]; the keys of a decoded JSON object are texts.  A key
    that is cleaned to one already set replaces its value. *)
Fixpoint _clean_keys (obj : value) : value :=
  match obj with
  | VDict d =>
      VDict (fold_left (fun clean kv => dict_set (fst kv) (snd kv) clean)
                       (map (fun kv => (clean_key (fst kv), _clean_keys (snd kv))) d) [])
  | VList l => VList (map _clean_keys l)
  | _ => obj
  end.

(** [s.lower()] *)
Fixpoint lower_str (s : string) : string :=
  match s with
  | EmptyString => EmptyString
  | String c s' => String (lower c) (lower_str s')
  end.

(** [_norm_key(k)] for a text. *)
Definition _norm_key (k : string) : string :=
  let k := strip k in
  let k := replace tab EmptyString (replace cr EmptyString (replace nl EmptyString k)) in
  let k := replace (String squote EmptyString) EmptyString
             (replace (String dquote EmptyString) EmptyString k) in
  let k := replace " " EmptyString k in
  lower_str k.

(** The first item of a mapping whose normalized key is [wanted_n]. *)
Fixpoint pick_norm (wanted_n : string) (d : list (string * value)) : option value :=
  match d with
  | [] => None
  | (k, v) :: d' =>
      if String.eqb (_norm_key k) wanted_n then Some v else pick_norm wanted_n d'
  end.

(** [_pick(d, wanted)] *)
Definition _pick (d : value) (wanted : string) : value :=
  match d with
  | VDict items =>
      match assoc wanted items with
      | Some v => v
      | None => default VNone (pick_norm (_norm_key wanted) items)
      end
  | _ => VNone
  end.

(** The line boundaries of [str.splitlines] in the range of the text
    model: LF, VT, FF, CR, FS, GS, RS and NEL. *)
Definition is_linebreak (c : ascii) : bool :=
  in_range 10 13 c || in_range 28 30 c || (code c =? 133)%N.

(** [s.splitlines()]: CR LF is one boundary, and a boundary at the end of
    the text opens no line. *)
Fixpoint splitlines (s : string) : list string :=
  match s with
  | EmptyString => []
  | String c r =>
      if is_linebreak c then
        EmptyString ::
          match r with
          | String d r' =>
              if Ascii.eqb c (ascii_of_N 13) && Ascii.eqb d (ascii_of_N 10)
              then splitlines r' else splitlines r
          | EmptyString => []
          end
      else
        match splitlines r with
        | [] => [String c EmptyString]
        | l :: ls => String c l :: ls
        end
  end.

(** [s.strip(chars)] for the set [p] of characters. *)
Fixpoint lstrip_set (p : ascii -> bool) (s : string) : string :=
  match s with
  | EmptyString => EmptyString
  | String c s' => if p c then lstrip_set p s' else s
  end.

Fixpoint rstrip_set (p : ascii -> bool) (s : string) : string :=
  match s with
  | EmptyString => EmptyString
  | String c s' =>
      match rstrip_set p s' with
      | EmptyString => if p c then EmptyString else String c EmptyString
      | r => String c r
      end
  end.

Definition strip_set (p : ascii -> bool) (s : string) : string :=
  rstrip_set p (lstrip_set p s).

(** The characters of ["-• \t"] in the range of the text model (the bullet
    U+2022 is outside it). *)
Definition bullet_char (c : ascii) : bool :=
  Ascii.eqb c "-" || Ascii.eqb c " " || Ascii.eqb c (ascii_of_N 9).

(** [_ensure_list(x)] *)
Definition _ensure_list (x : value) : list value :=
  match x with
  | VNone => []
  | VList l => l
  | VStr s =>
      let lines := map (fun l => VStr (strip_set bullet_char l))
                       (filter (fun l => nonempty (strip l) = true) (splitlines s)) in
      match lines with
      | [] => [x]
      | _ => lines
      end
  | _ => [x]
  end.

(** The form data [gui_generate_cv_ai] passes (lines 1098-1109). *)
Record cv_data := {
  cv_name : string;
  cv_target_title : string;
  cv_contact : string;
  cv_profile : string;
  cv_education : string;
  cv_skills : string;
  cv_experience : string;
  cv_projects : string;
  cv_languages : string;
  cv_interests : string
}.

(** [d.setdefault(k, v)] and [d.get(k, v)] *)
Definition setdefault (k : string) (v : value) (d : list (string * value))
    : list (string * value) :=
  if dict_has k d then d else (d ++ [(k, v)])%list.

Definition get_default (k : string) (v : value) (d : list (string * value)) : value :=
  default v (assoc k d).

(** Lines 193-202: one item of the experience. *)
Definition experience_item (e : value) : option value :=
  match e with
  | VDict d =>
      Some (VDict [("title", get_default "title" (VStr EmptyString) d);
                   ("company", get_default "company" (VStr EmptyString) d);
                   ("dates", get_default "dates" (VStr EmptyString) d);
                   ("bullets", VList (_ensure_list (dict_get "bullets" d)))])
  | _ => None
  end.

(** Lines 172-214: the structure built from the decoded answer. *)
Definition cv_structure (data : cv_data) (decoded : value) : value :=
  let parsed := _clean_keys decoded in
  let header := py_or (_pick parsed "header") (VDict []) in
  let profile := _pick parsed "profile" in
  let education := _pick parsed "education" in
  let skills := _pick parsed "skills" in
  let experience := _pick parsed "experience" in
  let projects := _pick parsed "projects" in
  let languages := _pick parsed "languages" in
  let interests := _pick parsed "interests" in
  let header := match header with VDict h => h | _ => [] end in
  let header := setdefault "full_name" (VStr (cv_name data)) header in
  let header := setdefault "title" (VStr (cv_target_title data)) header in
  let header := setdefault "contact" (VStr (cv_contact data)) header in
  let exp_out := match experience with
                 | VList l => omap experience_item l
                 | _ => []
                 end in
  VDict [("header", VDict header);
         ("profile", match profile with VStr _ => profile | _ => VStr EmptyString end);
         ("education", VList (_ensure_list education));
         ("skills", VList (_ensure_list skills));
         ("experience", VList exp_out);
         ("projects", VList (_ensure_list projects));
         ("languages", VList (_ensure_list languages));
         ("interests", VList (_ensure_list interests))].

Section StructuredCV.

Variable json_loads : string -> option value.

(** [generate_cv_structured(data)]: the debug files written, in order, and
    the result.  The prompt built from [data] goes to the model process,
    whose outcome is [proc]; writing the debug files is taken to succeed. *)
Definition generate_cv_structured (data : cv_data) (proc : proc_outcome)
    : list (string * string) * result value :=
  match ask_ollama proc with
  | Raise e => ([], Raise e)
  | Ret raw =>
      let written := [("debug_cv_raw.txt", raw)] in
      match _extract_json raw with
      | Raise e => (written, Raise e)
      | Ret json_text =>
          match json_loads json_text with
          | None =>
              ((written ++ [("debug_cv_bad_json.txt", json_text)])%list, Raise ValueError)
          | Some parsed => (written, Ret (cv_structure data parsed))
          end
      end
  end.

End StructuredCV.

(** A text holds an opening brace with a closing brace after it. *)
Fixpoint has_pair (s : string) : bool :=
  match s with
  | EmptyString => false
  | String x r => (Ascii.eqb x "{" && has_char "}" r) || has_pair r
  end.

(** A text between braces. *)
Definition braced (body : string) : string := "{" ++ body ++ "}".

(** The continuation of the lazy run of [re_block]: the closing brace, then
    the end of the pattern. *)
Definition close_block : Re.cont :=
  fun st => Re.step_char (Re.char_matches flags_S "}") st Some.

(** A model answer without fence that holds a nested object. *)
Definition nested_answer : string :=
  "Voici : {" ++ jkey "header" ++ ": {" ++ jkey "title" ++ ": 1}, "
  ++ jkey "profile" ++ ": 2} fin".

(** The structure [generate_cv_structured] promises. *)
Definition experience_shape (e : value) : Prop :=
  exists title company dates bullets,
    e = VDict [("title", title); ("company", company); ("dates", dates);
               ("bullets", VList bullets)].

Definition cv_shape (cv : value) : Prop :=
  exists header profile education skills experience projects languages interests,
    cv = VDict [("header", VDict header); ("profile", VStr profile);
                ("education", VList education); ("skills", VList skills);
                ("experience", VList experience); ("projects", VList projects);
                ("languages", VList languages); ("interests", VList interests)] /\
    dict_has "full_name" header = true /\
    dict_has "title" header = true /\
    dict_has "contact" header = true /\
    Forall experience_shape experience.




(** The form data and the model answer of an example. *)
Definition sample_cv_data : cv_data :=
  {| cv_name := "Ada"; cv_target_title := "Dev"; cv_contact := "ada@x.org";
     cv_profile := ""; cv_education := ""; cv_skills := ""; cv_experience := "";
     cv_projects := ""; cv_languages := ""; cv_interests := "" |}.

Definition sample_cv_answer : string :=
  fence_json ++ nl ++ "{" ++ jkey "header" ++ ": {" ++ jkey "title" ++ ": " ++ jkey "Ing" ++ "}, "
  ++ jkey " Skills " ++ ": " ++ jkey "- python\n- rocq" ++ ", "
  ++ jkey "experience" ++ ": [{" ++ jkey "title" ++ ": " ++ jkey "Stage" ++ "}, 3]}"
  ++ nl ++ fence.

(** The occurrences of a character in a text. *)
Fixpoint count_char (x : ascii) (s : string) : nat :=
  match s with
  | EmptyString => O
  | String c r => ((if Ascii.eqb c x then 1 else 0) + count_char x r)%nat
  end.

(** The mappings in a value, at any depth. *)
Fixpoint dicts (v : value) : nat :=
  match v with
  | VDict d => S (list_sum (map (fun kv => dicts (snd kv)) d))
  | VList l => list_sum (map dicts l)
  | _ => O
  end.

Definition dicts_of_items (d : list (string * value)) : nat :=
  list_sum (map (fun kv => dicts (snd kv)) d).

(** A model answer without fence, as the prompt asks for: one JSON object
    with the header and the experience as nested objects. *)
Definition unfenced_answer : string :=
  "{" ++ jkey "header" ++ ": {" ++ jkey "full_name" ++ ": " ++ jkey "Bob" ++ "}, "
  ++ jkey "profile" ++ ": " ++ jkey "Developpeur" ++ ", "
  ++ jkey "experience" ++ ": [{" ++ jkey "title" ++ ": " ++ jkey "Stage" ++ ", "
  ++ jkey "bullets" ++ ": [" ++ jkey "tests" ++ "]}]}".

(** The header made of the form data alone. *)
Definition form_header (data : cv_data) : value :=
  VDict [("full_name", VStr (cv_name data));
         ("title", VStr (cv_target_title data));
         ("contact", VStr (cv_contact data))].





(** * The list of the documents ([app_gui.py], lines 509-537) *)

Definition doc_sep : string := "   [".

(** The line of a document in the list (line 520), for an index entry with
    the name [name] and the folder [folder] ([None]: no folder key); an
    empty folder is falsy. *)
Definition doc_item (name : string) (folder : option string) : string :=
  match folder with
  | Some f => if nonempty f then name ++ doc_sep ++ f ++ "]" else name
  | None => name
  end.

(** [s.split(sep, 1)[0]] for a non-empty [sep]: the text before the first
    occurrence of [sep], all of [s] when there is none. *)
Fixpoint before_first (sep s : string) : string :=
  match prefix_rest sep s with
  | Some _ => EmptyString
  | None =>
      match s with
      | EmptyString => EmptyString
      | String c s' => String c (before_first sep s')
      end
  end.

(** [_get_selected_doc_name()] for the selected line [item] (line 537). *)
Definition selected_doc_name (item : string) : string :=
  strip (before_first doc_sep item).

(** [sep in s] for a non-empty [sep]. *)
Fixpoint contains (sep s : string) : bool :=
  match prefix_rest sep s with
  | Some _ => true
  | None =>
      match s with
      | EmptyString => false
      | String _ s' => contains sep s'
      end
  end.

(** An action on the quiz tab whose model answer, if any, holds no JSON
    that [_extract_json_obj] recovers: the quiz can only come from the
    text-block parser. *)
Definition text_only (json_loads : string -> option value) (a : action) : Prop :=
  match a with
  | Generate env =>
      forall raw, generate_qcm_quiz (proc env) = Ret raw ->
                  _extract_json_obj json_loads raw = None
  | _ => True
  end.

(** The resolver returns on every question of the stored quiz. *)
Definition quiz_resolves (st : app_state) : Prop :=
  forall data, qcm_data st = Some data -> Forall resolves (questions data).

(** * Properties *)

Lemma ret_bind {A B} (a : A) (f : A -> result B) : (Ret a ≫= f) = f a.
Proof. reflexivity. Qed.

Lemma raise_bind {A B} (e : exn) (f : A -> result B) : (Raise e ≫= f) = Raise e.
Proof. reflexivity. Qed.

(** ** The text-block parser *)

Lemma block_options_none (rest_clean : string) :
  (length (option_line_matches rest_clean) < 2)%nat ->
  (length (option_inline_matches rest_clean) < 2)%nat ->
  block_options rest_clean = None.
Proof.
  intros Hl Hi. unfold block_options.
  destruct (Nat.ltb_spec (length (option_line_matches rest_clean)) 2) as [_|Hge]; [|lia].
  destruct (Nat.leb_spec 2 (length (option_inline_matches rest_clean))) as [Hge|_]; [lia|].
  reflexivity.
Qed.

Lemma parse_block_remainder (block : string) :
  parse_block block =
  match block_remainder block with
  | None => None
  | Some rc =>
      match block_options rc with
      | None => None
      | Some _ => parse_block block
      end
  end.
Proof.
  unfold parse_block, block_remainder.
  destruct (Re.re_match flags_I_S re_block_head block) as [m|]; [|reflexivity].
  destruct (block_options _) as [[qt opts]|]; reflexivity.
Qed.

(** C4: parsing the example text of the specification gives exactly one
    question, with the text "What is 2+2?", the options A) 3, B) 4, C) 5 in
    that order, the raw answer B and the explanation "Basic arithmetic.". *)
Theorem parse_sample_text :
  _parse_qcm_from_text sample_text =
  Some (VDict [("questions",
    VList [VDict [("question", VStr "What is 2+2?");
                  ("options", VList [VStr "A) 3"; VStr "B) 4"; VStr "C) 5"]);
                  ("answer", VStr "B");
                  ("explanation", VStr "Basic arithmetic.")]])]).
Proof. vm_compute. reflexivity. Qed.

(** The same quiz after the post-filter of the normalizer. *)
Lemma normalize_sample_text :
  _normalize_qcm (default VNone (_parse_qcm_from_text sample_text)) =
  Ret (Some {| questions :=
    [{| q_question := "What is 2+2?"; q_options := ["A) 3"; "B) 4"; "C) 5"];
        q_answer := VStr "B"; q_explanation := "Basic arithmetic." |}] |}).
Proof. vm_compute. reflexivity. Qed.

(** C8: a block whose cleaned remainder has fewer than two option lines by
    the multi-line pattern and fewer than two by the inline pattern gives no
    question: the loop goes on to the next block without appending. *)
Theorem block_without_two_options (block : string) :
  (forall rc, block_remainder block = Some rc ->
     (length (option_line_matches rc) < 2)%nat /\
     (length (option_inline_matches rc) < 2)%nat) ->
  parse_block block = None.
Proof.
  intros H. rewrite parse_block_remainder.
  destruct (block_remainder block) as [rc|]; [|reflexivity].
  destruct (H rc eq_refl) as [Hl Hi].
  rewrite (block_options_none rc Hl Hi). reflexivity.
Qed.

Lemma block_without_two_options_witness :
  ((forall rc, block_remainder one_option_block = Some rc ->
     (length (option_line_matches rc) < 2)%nat /\
     (length (option_inline_matches rc) < 2)%nat)) /\
  parse_block one_option_block = None.
Proof.
  assert (Hrem : forall rc, block_remainder one_option_block = Some rc ->
     (length (option_line_matches rc) < 2)%nat /\
     (length (option_inline_matches rc) < 2)%nat).
  { intros rc Hrc. vm_compute in Hrc. injection Hrc as <-.
    split; vm_compute; lia. }
  split; [exact Hrem|].
  exact (block_without_two_options one_option_block Hrem).
Defined.

(** ** The answer resolver *)

(** The examples of the specification. *)
Lemma resolve_examples :
  _answer_to_index (VStr "B") ["x"; "y"; "z"] = Ret (Some 1) /\
  _answer_to_index (VInt 2) ["x"; "y"; "z"] = Ret (Some 2) /\
  _answer_to_index (VStr "5") ["x"; "y"] = Ret None /\
  _answer_to_index (VStr "1") ["x"; "y"] = Ret (Some 1) /\
  _answer_to_index (VStr "2") ["x"; "y"] = Ret (Some 1).
Proof. repeat split; vm_compute; reflexivity. Qed.

(** C1, where the code departs from it: [str.isdigit] accepts the
    superscript digits, which [int] refuses, so on the answer text U+00B2 the
    resolver neither gives an index nor "unknown": it raises [ValueError]. *)
Theorem answer_to_index_superscript_digit :
  isdigit superscript_two = true /\
  _answer_to_index (VStr superscript_two) ["x"; "y"; "z"] = Raise ValueError.
Proof. split; vm_compute; reflexivity. Qed.

Lemma in_bounds_spec (i n : Z) : in_bounds i n = true <-> 0 <= i < n.
Proof. unfold in_bounds. rewrite andb_true_iff, Z.leb_le, Z.ltb_lt. tauto. Qed.

(** Whatever index the resolver gives is an index of the option list. *)
Lemma answer_to_index_range (answer : value) (options : list string) (i : Z) :
  _answer_to_index answer options = Ret (Some i) ->
  0 <= i < Z.of_nat (length options).
Proof.
  unfold _answer_to_index.
  set (n := Z.of_nat (length options)).
  assert (Hint : forall a, Ret (if in_bounds a n then Some a else None) = Ret (Some i) ->
                           0 <= i < n).
  { intros a H. destruct (in_bounds a n) eqn:Hb; [|discriminate].
    injection H as <-. by apply in_bounds_spec. }
  assert (Htext : forall v,
    (if negb (nonempty (strip (py_str v))) then Ret None
     else match Re.re_search Re.no_flags re_standalone_letter (upper (strip (py_str v))) with
          | Some m =>
              Ret (if in_bounds (ord_minus_A (Re.group_str (upper (strip (py_str v))) m 1)) n
                   then Some (ord_minus_A (Re.group_str (upper (strip (py_str v))) m 1))
                   else None)
          | None =>
              if isdigit (strip (py_str v)) then
                val ← PyText.py_int (strip (py_str v));
                if in_bounds val n then Ret (Some val)
                else if (1 <=? val) && (val <=? n) then Ret (Some (val - 1))
                else Ret None
              else Ret None
          end) = Ret (Some i) -> 0 <= i < n).
  { intros v. destruct (negb _); [discriminate|].
    destruct (Re.re_search _ _ _) as [m|]; [apply Hint|].
    destruct (isdigit _); [|discriminate].
    destruct (PyText.py_int _) as [val|e]; simpl; [|discriminate].
    destruct (in_bounds val n) eqn:Hb.
    - intros H. injection H as <-. by apply in_bounds_spec.
    - destruct ((1 <=? val) && (val <=? n)) eqn:Hc; [|discriminate].
      intros H. injection H as <-.
      apply andb_true_iff in Hc. rewrite Z.leb_le, Z.leb_le in Hc. lia. }
  destruct answer; simpl; try discriminate;
    first [ apply Hint | apply (Htext (VFloat _ _)) | apply (Htext (VStr _))
          | apply (Htext (VList _)) | apply (Htext (VDict _)) ].
Qed.

(** ** Normalization *)

Lemma py_or_chain2 (a b : value) : py_or a b = or_chain [a] b.
Proof. unfold py_or, or_chain. simpl. by destruct (truthy a). Qed.

Lemma py_or_chain3 (a b c : value) : py_or (py_or a b) c = or_chain [a; b] c.
Proof.
  unfold py_or, or_chain. simpl.
  destruct (truthy a) eqn:Ha; [by rewrite Ha|]. by destruct (truthy b).
Qed.

Lemma py_or_chain4 (a b c d : value) :
  py_or (py_or (py_or a b) c) d = or_chain [a; b; c] d.
Proof.
  unfold py_or, or_chain. simpl.
  destruct (truthy a) eqn:Ha; [by rewrite !Ha|].
  destruct (truthy b) eqn:Hb; [by rewrite Hb|]. by destruct (truthy c).
Qed.

Lemma answer_field_chain (d : list (string * value)) :
  answer_field d =
  or_chain [dict_get "answer" d; dict_get "correct" d] (dict_get "correct_answer" d).
Proof. apply py_or_chain3. Qed.

Lemma normalize_question_answer (d : list (string * value)) (q : question) :
  normalize_question (VDict d) = Ret (Some q) -> q_answer q = answer_field d.
Proof.
  unfold normalize_question.
  destruct (method_strip (question_field d)) as [t|]; simpl; [|discriminate].
  destruct (method_strip (explanation_field d)) as [e|]; simpl; [|discriminate].
  destruct (negb (nonempty t)); [discriminate|].
  destruct (py_len (options_field d)) as [n|]; simpl; [|discriminate].
  destruct (n <? 2); [discriminate|].
  intros H. injection H as <-. reflexivity.
Qed.

Lemma truthy_not_blank (v : value) :
  is_zero_number v = false -> truthy v = negb (is_blank v).
Proof.
  destruct v as [|b|z|nz t|s|l|d]; simpl; try reflexivity.
  - intros H. by destruct b.
  - intros H. by rewrite H.
  - intros H. by destruct nz.
  - intros _. by destruct (nonempty s).
  - intros _. by destruct l.
  - intros _. by destruct d.
Qed.

Lemma find_truthy_token (k : string) (d : list (string * value)) :
  no_zero_at k d ->
  (if truthy (dict_get k d) then Some (dict_get k d) else None) = token_at k d.
Proof.
  unfold no_zero_at, token_at, dict_get. intros H.
  rewrite (truthy_not_blank _ H).
  destruct (assoc k d) as [v|]; simpl; [|reflexivity].
  by destruct (is_blank v).
Qed.

Lemma answer_field_token (d : list (string * value)) :
  no_zero_at "answer" d -> no_zero_at "correct" d -> answer_field d = answer_token d.
Proof.
  intros Ha Hc. rewrite answer_field_chain. unfold or_chain, answer_token. simpl.
  rewrite <- (find_truthy_token _ _ Ha), <- (find_truthy_token _ _ Hc).
  destruct (truthy (dict_get "answer" d)); [reflexivity|].
  by destruct (truthy (dict_get "correct" d)).
Qed.

(** C7, as stated, fails: here the key [answer] is present, and the token
    is taken from [correct]. *)
Lemma answer_key_present_not_taken :
  dict_has "answer" empty_answer_question = true /\
  normalize_question (VDict empty_answer_question) =
  Ret (Some {| q_question := "Q"; q_options := ["a"; "b"];
               q_answer := VStr "B"; q_explanation := "" |}).
Proof. split; vm_compute; reflexivity. Qed.

(** C7, amended: in a question kept by normalization the raw answer token is
    the value, unchanged, of the first of the keys [answer], [correct] that is
    present with a value that is not blank (null or empty); when neither is,
    it is what [correct_answer] holds, [None] when that key is absent.  The
    statement leaves out the mappings that hold a zero number under [answer]
    or [correct]. *)
Theorem answer_token_priority (d : list (string * value)) (q : question) :
  no_zero_at "answer" d -> no_zero_at "correct" d ->
  normalize_question (VDict d) = Ret (Some q) ->
  q_answer q = answer_token d.
Proof.
  intros Ha Hc Hq. rewrite (normalize_question_answer d q Hq).
  by apply answer_field_token.
Qed.

Lemma answer_token_priority_witness :
  answer_token lettered_question = VInt 1 /\
  q_answer {| q_question := "Which?"; q_options := ["A) one"; "B) two"];
              q_answer := VInt 1; q_explanation := "" |} = answer_token lettered_question.
Proof.
  split; [reflexivity|].
  apply (answer_token_priority lettered_question); reflexivity.
Defined.

(** The slip left out above: the index 0 given as a number under [answer] is
    dropped by the chain of [or]. *)
Lemma answer_zero_dropped :
  normalize_question
    (VDict [("question", VStr "Q"); ("options", VList [VStr "a"; VStr "b"]);
            ("answer", VInt 0)]) =
  Ret (Some {| q_question := "Q"; q_options := ["a"; "b"];
               q_answer := VNone; q_explanation := "" |}).
Proof. vm_compute. reflexivity. Qed.

(** *** What normalization keeps *)

Lemma rstrip_nonempty (s : string) : starts_nonspace s -> nonempty (rstrip s) = true.
Proof.
  destruct s as [|c s]; simpl; [tauto|]. intros Hc.
  destruct (rstrip s); [by rewrite Hc|reflexivity].
Qed.

Lemma strip_nonempty (s : string) : starts_nonspace s -> nonempty (strip s) = true.
Proof.
  intros H. unfold strip. destruct s as [|c s]; [destruct H|].
  simpl in H. simpl lstrip. rewrite H. by apply rstrip_nonempty.
Qed.

Lemma starts_nonspace_app (s t : string) : starts_nonspace s -> starts_nonspace (s ++ t).
Proof. destruct s; simpl; tauto. Qed.

Lemma clean_options_cons (x : value) (l : list value) :
  clean_options (x :: l) =
  if nonempty (strip (py_str x))
  then VStr (strip (py_str x)) :: clean_options l
  else clean_options l.
Proof. unfold clean_options. simpl. by destruct (nonempty _). Qed.

Lemma clean_options_texts (l : list value) :
  map py_str (clean_options l) = List.filter nonempty (map (fun x => strip (py_str x)) l).
Proof.
  induction l as [|x l IH]; [reflexivity|].
  rewrite clean_options_cons. simpl.
  destruct (nonempty (strip (py_str x))); simpl; by rewrite IH.
Qed.

Lemma lettered_from_cons (m : list (string * value)) (k : string) (ks : list string) :
  lettered_from m (k :: ks) =
  match assoc k m with
  | Some v => VStr (k ++ ") " ++ strip (py_str v)) :: lettered_from m ks
  | None => lettered_from m ks
  end.
Proof. unfold lettered_from. simpl. by destruct (assoc k m). Qed.

Lemma clean_lettered_texts (m : list (string * value)) (ks : list string) :
  Forall starts_nonspace ks ->
  map py_str (clean_options (lettered_from m ks)) =
  map (fun k => strip (k ++ ") " ++ strip (py_str (dict_get k m))))
      (List.filter (fun k => dict_has k m) ks).
Proof.
  induction 1 as [|k ks Hk _ IH]; [reflexivity|].
  rewrite lettered_from_cons. cbn [List.filter].
  unfold dict_has at 1. destruct (assoc k m) as [v|] eqn:E; [|exact IH].
  rewrite clean_options_cons. cbn [py_str].
  rewrite (strip_nonempty (k ++ ") " ++ strip (py_str v))) by by apply starts_nonspace_app.
  cbn [map py_str]. unfold dict_get at 1. rewrite E. cbn [default].
  by rewrite IH.
Qed.

Lemma option_letters_nonspace : Forall starts_nonspace option_letters.
Proof. repeat constructor. Qed.

Lemma options_field_texts (d : list (string * value)) :
  options_or_none
    (List.find truthy [dict_get "options" d; dict_get "choices" d; dict_get "answers" d]) ->
  exists l, options_field d = VList l /\ map py_str l = recovered_options d.
Proof.
  unfold options_field, recovered_options. rewrite py_or_chain4. unfold or_chain.
  destruct (List.find truthy _) as [[| | | | |l|m]|]; simpl; try tauto; intros _.
  - exists (clean_options l). split; [reflexivity|apply clean_options_texts].
  - exists (clean_options (lettered_options m)). split; [reflexivity|].
    apply (clean_lettered_texts m option_letters), option_letters_nonspace.
  - by exists [].
Qed.

Lemma text_field_strip (o : option value) :
  text_or_none o -> method_strip (default (VStr "") o) = Ret (text_of o).
Proof. destruct o as [[| | | |s| |]|]; simpl; tauto. Qed.

(** On a well-typed mapping the body of the loop returns, and keeps the
    question exactly when it survives. *)
Lemma normalize_question_surviving (d : list (string * value)) :
  well_typed d -> normalize_question (VDict d) = Ret (surviving (VDict d)).
Proof.
  intros (Hq & He & Ho). unfold normalize_question, question_field, explanation_field.
  rewrite !py_or_chain3. unfold or_chain.
  rewrite (text_field_strip _ Hq), (text_field_strip _ He), !ret_bind.
  unfold surviving, survives, canonical, recovered_text, recovered_explanation.
  destruct (nonempty (text_of _)); cbn [negb andb]; [|reflexivity].
  destruct (options_field_texts d Ho) as (l & -> & Hl).
  cbn [py_len seq_items]. rewrite ret_bind, <- Hl, length_map.
  destruct (Nat.leb_spec 2 (length l)) as [Hge|Hlt].
  - destruct (Z.ltb_spec (Z.of_nat (length l)) 2) as [?|_]; [lia|].
    by rewrite answer_field_chain.
  - destruct (Z.ltb_spec (Z.of_nat (length l)) 2) as [_|?]; [reflexivity|lia].
Qed.

Lemma normalize_question_other (q : value) :
  (forall d, q <> VDict d) -> normalize_question q = Ret (surviving q).
Proof. destruct q; try reflexivity. intros H. by destruct (H d). Qed.

Lemma normalize_loop_survivors (qs : list value) (out : list question) :
  (forall q d, q ∈ qs -> q = VDict d -> well_typed d) ->
  normalize_loop qs out = Ret (out ++ omap surviving qs)%list.
Proof.
  revert out. induction qs as [|q qs IH]; intros out Hwt.
  - simpl. by rewrite app_nil_r.
  - assert (Hq : normalize_question q = Ret (surviving q)).
    { destruct q as [| | | | | |d]; try reflexivity.
      apply normalize_question_surviving, (Hwt (VDict d) d); [left|reflexivity]. }
    simpl. rewrite Hq. simpl.
    rewrite IH by (intros q' d' Hin; apply Hwt; by right).
    destruct (surviving q); [by rewrite <- app_assoc|reflexivity].
Qed.

Lemma dict_get_set (k : string) (v : value) (d : list (string * value)) :
  dict_get k (dict_set k v d) = v.
Proof.
  unfold dict_get. induction d as [|[k' v'] d IH]; simpl.
  - by rewrite String.eqb_refl.
  - destruct (String.eqb k k') eqn:E; simpl; rewrite E; [reflexivity|exact IH].
Qed.

(** The list of questions the loop of [_normalize_qcm] runs over. *)
Lemma normalize_entries (data : value) :
  _normalize_qcm data =
  match question_entries data with
  | [] => Ret None
  | qs =>
      out ← normalize_loop qs [];
      match out with
      | [] => Ret None
      | _ => Ret (Some {| questions := out |})
      end
  end.
Proof.
  destruct data as [| | | | |l|d]; try reflexivity.
  unfold _normalize_qcm, question_entries.
  unfold dict_has at 1 3. unfold dict_get at 2.
  destruct (assoc "questions" d) as [v|] eqn:Hq; simpl.
  - unfold dict_get. rewrite Hq. simpl. by destruct v as [| | | | |[|q qs]|].
  - unfold dict_has. destruct (assoc "quiz" d) as [v|] eqn:Hz; simpl.
    + rewrite dict_get_set. by destruct v as [| | | | |[|q qs]|].
    + unfold dict_get. rewrite Hq. reflexivity.
Qed.

Lemma normalize_survivors (data : value) :
  well_typed_entries data ->
  _normalize_qcm data =
  Ret (match survivors data with
       | [] => None
       | qs => Some {| questions := qs |}
       end).
Proof.
  intros Hwt. rewrite normalize_entries. unfold survivors.
  destruct (question_entries data) as [|q qs] eqn:E; [reflexivity|].
  rewrite normalize_loop_survivors by (rewrite <- E; exact Hwt).
  rewrite ret_bind, app_nil_l. by destruct (omap surviving (q :: qs)).
Qed.

(** C2, as stated, fails: the payload below is decoded JSON, and the
    normalizer raises on it ([int] has no method [strip]). *)
Lemma normalize_raises_on_number :
  json_loads_model
    ("{" ++ dq ++ "questions" ++ dq ++ ": [{" ++ dq ++ "question" ++ dq ++ ": 1, "
     ++ dq ++ "options" ++ dq ++ ": [" ++ dq ++ "a" ++ dq ++ ", " ++ dq ++ "b" ++ dq ++ "]}]}")
  = Some number_as_text /\
  _normalize_qcm number_as_text = Raise AttributeError.
Proof. split; vm_compute; reflexivity. Qed.

Lemma well_typed_entries_Forall (data : value) :
  Forall (fun q => match q with VDict d => well_typed d | _ => True end)
         (question_entries data) ->
  well_typed_entries data.
Proof.
  intros H q d Hin ->. rewrite Forall_forall in H. exact (H (VDict d) Hin).
Qed.

(** C2, amended: on every decoded value whose question mappings hold texts
    for the question and the explanation and a list or a mapping for the
    options, the normalizer returns; among the question entries it drops
    exactly the entries that are no mapping, those whose recovered text is
    empty and those with fewer than two trimmed, non-empty options; it
    returns [None] exactly when no question survives, and otherwise the
    surviving questions in their original order. *)
Theorem normalize_keeps_survivors (data : value) :
  well_typed_entries data ->
  (forall q, surviving q = None <->
     (forall d, q <> VDict d) \/
     (exists d, q = VDict d /\
        (recovered_text d = EmptyString \/ (length (recovered_options d) < 2)%nat))) /\
  survivors data = omap surviving (question_entries data) /\
  exists r, _normalize_qcm data = Ret r /\
    (r = None <-> survivors data = []) /\
    (forall quiz, r = Some quiz -> questions quiz = survivors data).
Proof.
  intros Hwt. split; [|split; [reflexivity|]].
  - intros q.
    assert (Hother : (forall d, q <> VDict d) -> surviving q = None).
    { intros H. destruct q; try reflexivity. by destruct (H d). }
    split.
    + intros H. destruct q as [| | | | | |d]; try (left; intros d'; discriminate).
      right. exists d. split; [reflexivity|].
      cbn [surviving] in H. unfold survives in H.
      destruct (recovered_text d); [by left|]. cbn [nonempty andb] in H.
      destruct (Nat.leb_spec 2 (length (recovered_options d))); [discriminate|by right].
    + intros [H|(d & -> & [H|H])]; [by apply Hother| |]; cbn [surviving]; unfold survives.
      * by rewrite H.
      * destruct (Nat.leb_spec 2 (length (recovered_options d))); [lia|].
        by rewrite andb_false_r.
  - rewrite (normalize_survivors data Hwt).
    destruct (survivors data) as [|q qs].
    + exists None. repeat split; intros; discriminate.
    + exists (Some {| questions := q :: qs |}). repeat split; try discriminate.
      intros quiz [= <-]. reflexivity.
Qed.

Lemma normalize_keeps_survivors_witness :
  survivors mixed_payload = mixed_survivors /\
  _normalize_qcm mixed_payload = Ret (Some {| questions := mixed_survivors |}) /\
  exists r, _normalize_qcm mixed_payload = Ret r /\
    (r = None <-> survivors mixed_payload = []) /\
    (forall quiz, r = Some quiz -> questions quiz = survivors mixed_payload).
Proof.
  split; [vm_compute; reflexivity|]. split; [vm_compute; reflexivity|].
  apply (normalize_keeps_survivors mixed_payload).
  apply well_typed_entries_Forall. repeat constructor.
Defined.

(** ** The generate action *)

Lemma nonempty_false (s : string) : nonempty s = false <-> s = EmptyString.
Proof. destruct s; simpl; split; congruence. Qed.

Lemma ask_ollama_fails (p : proc_outcome) :
  model_fails p <-> exists e, ask_ollama p = Raise e.
Proof.
  destruct p as [| |out err]; simpl; try (split; eauto; fail).
  destruct (nonempty (strip (default EmptyString out))) eqn:E; simpl.
  - split; [|intros [e ?]; discriminate].
    intros H. rewrite H in E. discriminate.
  - split; [eauto|]. intros _. by apply nonempty_false.
Qed.

Lemma session_set_enabled (b : bool) (st : app_state) :
  session (_set_qcm_enabled b st) = session st.
Proof. unfold _set_qcm_enabled. destruct b, (qcm_data st); reflexivity. Qed.

Lemma set_enabled_buttons (b : bool) (st : app_state) :
  exists p n f, _set_qcm_enabled b st = set_buttons p n f st.
Proof. unfold _set_qcm_enabled. destruct b, (qcm_data st); eauto. Qed.

Lemma display_set_enabled (b : bool) (st : app_state) :
  display (_set_qcm_enabled b st) = display st.
Proof. by destruct (set_enabled_buttons b st) as (p & n & f & ->). Qed.

Lemma data_set_enabled (b : bool) (st : app_state) :
  qcm_data (_set_qcm_enabled b st) = qcm_data st.
Proof. by destruct (set_enabled_buttons b st) as (p & n & f & ->). Qed.

Lemma index_set_enabled (b : bool) (st : app_state) :
  qcm_index (_set_qcm_enabled b st) = qcm_index st.
Proof. by destruct (set_enabled_buttons b st) as (p & n & f & ->). Qed.

Lemma answers_set_enabled (b : bool) (st : app_state) :
  qcm_user_answers (_set_qcm_enabled b st) = qcm_user_answers st.
Proof. by destruct (set_enabled_buttons b st) as (p & n & f & ->). Qed.

Lemma session_render (st : app_state) :
  session (fst (qcm_render_question st)) = session st.
Proof.
  unfold qcm_render_question. destruct (qcm_data st) as [data|] eqn:E; [|reflexivity].
  destruct (py_index _ _); [|reflexivity].
  cbn [fst]. rewrite session_set_enabled. reflexivity.
Qed.

Lemma normalize_nonempty (v : value) (data : quiz) :
  _normalize_qcm v = Ret (Some data) -> questions data <> [].
Proof.
  rewrite normalize_entries. destruct (question_entries v); [discriminate|].
  destruct (normalize_loop _ _) as [out|]; [|discriminate].
  rewrite ret_bind. destruct out; [discriminate|]. intros [= <-]. discriminate.
Qed.

Lemma py_index_lookup {A} (l : list A) (i : Z) (x : A) :
  0 <= i -> l !! Z.to_nat i = Some x -> py_index l i = Ret x.
Proof.
  intros Hi Hx. unfold py_index.
  pose proof (lookup_lt_Some _ _ _ Hx) as Hlt.
  destruct (Z.ltb_spec i 0); [lia|].
  destruct (Z.leb_spec 0 i); [|lia].
  destruct (Z.ltb_spec i (Z.of_nat (length l))); [|lia].
  cbn [andb]. by rewrite Hx.
Qed.

(** Rendering the current question of a loaded session. *)
Lemma render_loaded (st : app_state) (data : quiz) (q : question) :
  qcm_data st = Some data ->
  0 <= qcm_index st /\ questions data !! Z.to_nat (qcm_index st) = Some q ->
  qcm_render_question st =
  (_set_qcm_enabled true
     (set_choice (default (-1) (qcm_user_answers st !! qcm_index st)) (q_options q) st),
   None).
Proof.
  intros Hd [Hi Hq]. unfold qcm_render_question. rewrite Hd.
  by rewrite (py_index_lookup _ _ _ Hi Hq).
Qed.

Section GenerateProperties.

Variable json_loads : string -> option value.

Lemma unchanged_generate_failed (e : exn) (st : app_state) :
  session (fst (generate_failed e st)) = session st /\
  display (fst (generate_failed e st)) = display st.
Proof.
  unfold generate_failed. cbn [fst].
  by rewrite session_set_enabled, display_set_enabled.
Qed.

Lemma installed_quiz (data : quiz) (st : app_state) :
  questions data <> [] ->
  session (fst (install_quiz data st)) = (Some data, 0, ∅) /\
  exists q, head (questions data) = Some q /\
            display (fst (install_quiz data st)) = (-1, q_options q).
Proof.
  intros Hne. destruct (questions data) as [|q qs] eqn:Hq; [done|].
  unfold install_quiz.
  set (st1 := _set_qcm_enabled true _).
  assert (Hd : qcm_data st1 = Some data) by (unfold st1; by rewrite data_set_enabled).
  assert (Hi : qcm_index st1 = 0) by (unfold st1; by rewrite index_set_enabled).
  assert (Ha : qcm_user_answers st1 = ∅) by (unfold st1; by rewrite answers_set_enabled).
  clearbody st1.
  rewrite (render_loaded st1 data q Hd) by (rewrite Hi, ?Hq; done).
  cbn [fst snd]. split.
  - change (session (_set_qcm_enabled true
              (set_choice (default (-1) (qcm_user_answers st1 !! qcm_index st1))
                          (q_options q) st1)) = (Some data, 0, ∅)).
    rewrite session_set_enabled.
    change (session st1 = (Some data, 0, ∅)).
    unfold session. by rewrite Hd, Hi, Ha.
  - exists q. split; [reflexivity|].
    change (display (_set_qcm_enabled true
              (set_choice (default (-1) (qcm_user_answers st1 !! qcm_index st1))
                          (q_options q) st1)) = (-1, q_options q)).
    rewrite display_set_enabled, Ha. reflexivity.
Qed.

(** What happens to the session in a generate action, by cases: nothing,
    or the installation of a new quiz shown at its first question. *)
Lemma generate_session_cases (env : gen_env) (st : app_state) :
  let st' := fst (gui_generate_qcm json_loads env st) in
  (session st' = session st /\ display st' = display st) \/
  exists raw data text n,
    nonempty (strip_char dquote (strip (path_var env))) = true /\
    path_exists env = true /\
    file_read env = Ret text /\ nonempty (strip text) = true /\
    n_value env = Ret n /\
    generate_qcm_quiz (proc env) = Ret raw /\
    quiz_of_raw json_loads raw = Some data /\
    session st' = (Some data, 0, ∅) /\
    exists q, head (questions data) = Some q /\ display st' = (-1, q_options q).
Proof.
  unfold gui_generate_qcm, quiz_of_raw, from_json, from_text. cbn zeta.
  destruct (nonempty (strip_char _ _)) eqn:Hp; cbn [negb]; [|by left].
  destruct (path_exists env) eqn:He; cbn [negb]; [|by left].
  destruct (file_read env) as [text|e] eqn:Hf; [|left; apply unchanged_generate_failed].
  destruct (nonempty (strip text)) eqn:Ht; cbn [negb]; [|by left].
  destruct (n_value env) as [n|e] eqn:Hn; [|left; apply unchanged_generate_failed].
  assert (Hfail : forall e,
    let st' := fst (generate_failed e (_set_qcm_enabled false (set_status StatusGenerating st))) in
    session st' = session st /\ display st' = display st).
  { intros e. cbn zeta.
    destruct (unchanged_generate_failed e
                (_set_qcm_enabled false (set_status StatusGenerating st))) as [-> ->].
    by rewrite session_set_enabled, display_set_enabled. }
  destruct (generate_qcm_quiz (proc env)) as [raw|e] eqn:Hg; [|left; apply Hfail].
  destruct (_normalize_qcm (default VNone (_extract_json_obj json_loads raw)))
    as [[data|]|e] eqn:Hj; [| |left; apply Hfail].
  - right. exists raw, data, text, n. rewrite Hj.
    repeat (split; [first [reflexivity|assumption]|]).
    apply installed_quiz. by eapply normalize_nonempty.
  - destruct (_normalize_qcm (default VNone (_parse_qcm_from_text raw)))
      as [[data|]|e] eqn:Hx; [|left; apply Hfail|left; apply Hfail].
    right. exists raw, data, text, n. rewrite Hj, Hx.
    repeat (split; [first [reflexivity|assumption]|]).
    apply installed_quiz. by eapply normalize_nonempty.
Qed.

(** C9: a generate action that fails leaves the stored quiz, the current
    index and the recorded answers as they were: when the model invocation
    fails, and when neither decoding of the model answer yields a quiz.  The
    session is either untouched or, the model having answered and a decoding
    having yielded a quiz, replaced as a whole by that quiz (of one question
    at least), the index 0 and no recorded answer; and it is so replaced when
    the file is read, the model answers and a decoding yields a quiz. *)
Theorem generate_failure_keeps_session (env : gen_env) (st : app_state) :
  let st' := fst (gui_generate_qcm json_loads env st) in
  (model_fails (proc env) -> session st' = session st) /\
  (forall raw, generate_qcm_quiz (proc env) = Ret raw ->
     no_quiz (from_json json_loads raw) -> no_quiz (from_text raw) ->
     session st' = session st) /\
  (session st' = session st \/
   exists raw data,
     generate_qcm_quiz (proc env) = Ret raw /\ quiz_of_raw json_loads raw = Some data /\
     questions data <> [] /\ session st' = (Some data, 0, ∅)) /\
  (forall raw data text n,
     nonempty (strip_char dquote (strip (path_var env))) = true ->
     path_exists env = true ->
     file_read env = Ret text -> nonempty (strip text) = true ->
     n_value env = Ret n ->
     generate_qcm_quiz (proc env) = Ret raw ->
     quiz_of_raw json_loads raw = Some data ->
     session st' = (Some data, 0, ∅)).
Proof.
  cbn zeta. pose proof (generate_session_cases env st) as Hc. cbn zeta in Hc.
  repeat split.
  - intros Hm. destruct Hc as [[Hc _]|(raw & data & text & n & _ & _ & _ & _ & _ & Hg & _)];
      [exact Hc|].
    apply ask_ollama_fails in Hm as [e He]. unfold generate_qcm_quiz in Hg. congruence.
  - intros raw Hraw Hj Hx.
    destruct Hc as [[Hc _]|(raw' & data & text & n & _ & _ & _ & _ & _ & Hg & Hq & _)];
      [exact Hc|].
    assert (raw' = raw) as -> by congruence.
    unfold quiz_of_raw in Hq. unfold no_quiz in Hj, Hx.
    destruct (from_json json_loads raw) as [[d|]|]; try tauto; try discriminate.
    destruct (from_text raw) as [[d|]|]; try tauto; discriminate.
  - destruct Hc as [[Hc _]|(raw & data & text & n & _ & _ & _ & _ & _ & Hg & Hq & Hs & q & Hh & _)];
      [by left|].
    right. exists raw, data. repeat split; try assumption.
    intros Hnil. rewrite Hnil in Hh. discriminate.
  - intros raw data text n Hp He Hf Ht Hn Hg Hq.
    unfold gui_generate_qcm. cbn zeta. rewrite Hp, He, Hf, Ht, Hn, Hg. cbn [negb].
    unfold quiz_of_raw, from_json, from_text in Hq.
    destruct (_normalize_qcm (default VNone (_extract_json_obj json_loads raw)))
      as [[d|]|] eqn:Hj; try discriminate.
    + injection Hq as ->. apply installed_quiz. by eapply normalize_nonempty.
    + destruct (_normalize_qcm (default VNone (_parse_qcm_from_text raw)))
        as [[d|]|] eqn:Hx; try discriminate.
      injection Hq as ->. apply installed_quiz. by eapply normalize_nonempty.
Qed.

End GenerateProperties.

(** ** The quiz session *)

Lemma session_ok_ext (st st' : app_state) :
  session st' = session st -> display st' = display st ->
  session_ok st -> session_ok st'.
Proof.
  unfold session, display. intros [= Hd Hi Ha] [= Hc Hch] [Hs Hr Hn].
  constructor.
  - unfold current_shown in *. by rewrite Hd, Hi, Hch.
  - unfold selection_recorded in *. by rewrite Hc, Ha, Hi.
  - unfold answers_in_range in *. rewrite Ha, Hd. exact Hn.
Qed.

Lemma session_ok_initial : session_ok initial_state.
Proof.
  constructor.
  - reflexivity.
  - reflexivity.
  - intros k v H. cbn in H. by rewrite lookup_empty in H.
Qed.

Lemma session_ok_installed (st : app_state) (data : quiz) (q : question) :
  session st = (Some data, 0, ∅) -> display st = (-1, q_options q) ->
  head (questions data) = Some q -> session_ok st.
Proof.
  unfold session, display. intros [= Hd Hi Ha] [= Hc Hch] Hq.
  constructor.
  - unfold current_shown. rewrite Hd, Hi. exists q. repeat split; [lia| |done].
    destruct (questions data); [discriminate|]. exact Hq.
  - unfold selection_recorded. by rewrite Hc, Ha, lookup_empty.
  - intros k v H. by rewrite Ha, lookup_empty in H.
Qed.

Lemma set_answers_same (st : app_state) : set_answers (qcm_user_answers st) st = st.
Proof. by destruct st. Qed.

Lemma set_index_same (st : app_state) : set_index (qcm_index st) st = st.
Proof. by destruct st. Qed.

Lemma save_choice_answers (st : app_state) :
  qcm_user_answers (qcm_save_choice st) = nonneg_selection_saved st.
Proof.
  unfold qcm_save_choice, nonneg_selection_saved.
  by destruct (0 <=? qcm_choice_var st).
Qed.

Lemma save_choice_rest (st : app_state) :
  qcm_data (qcm_save_choice st) = qcm_data st /\
  qcm_index (qcm_save_choice st) = qcm_index st /\
  display (qcm_save_choice st) = display st.
Proof. unfold qcm_save_choice. by destruct (0 <=? qcm_choice_var st). Qed.

(** Saving a negative selection changes nothing. *)
Lemma save_choice_negative (st : app_state) :
  qcm_choice_var st < 0 -> qcm_save_choice st = st.
Proof.
  intros H. unfold qcm_save_choice.
  destruct (Z.leb_spec 0 (qcm_choice_var st)); [lia|reflexivity].
Qed.

(** Saving the selection of a state in which it is already recorded changes
    nothing. *)
Lemma save_choice_recorded (st : app_state) :
  selection_recorded st -> qcm_save_choice st = st.
Proof.
  unfold selection_recorded. intros H. unfold qcm_save_choice.
  destruct (Z.leb_spec 0 (qcm_choice_var st)) as [Hge|]; [|reflexivity].
  destruct (qcm_user_answers st !! qcm_index st) as [v|] eqn:E; simpl in H; [|lia].
  rewrite H, insert_id by exact E. apply set_answers_same.
Qed.

(** Moving to the question [i] of a loaded session and rendering it. *)
Lemma render_at (st : app_state) (data : quiz) (i : Z) :
  qcm_data st = Some data -> 0 <= i < Z.of_nat (length (questions data)) ->
  exists q st',
    questions data !! Z.to_nat i = Some q /\
    qcm_render_question (set_index i st) = (st', None) /\
    session st' = (Some data, i, qcm_user_answers st) /\
    display st' = (default (-1) (qcm_user_answers st !! i), q_options q).
Proof.
  intros Hd Hi.
  destruct (lookup_lt_is_Some_2 (questions data) (Z.to_nat i)) as [q Hq]; [lia|].
  exists q. eexists. split; [exact Hq|].
  split; [apply (render_loaded (set_index i st) data q); [exact Hd|split; [apply Hi|exact Hq]]|].
  split.
  - rewrite session_set_enabled. unfold session. cbn. by rewrite Hd.
  - by rewrite display_set_enabled.
Qed.

Lemma session_ok_render_at (st st' : app_state) (data : quiz) (i : Z) (q : question) :
  session_ok st -> qcm_data st = Some data ->
  0 <= i -> questions data !! Z.to_nat i = Some q ->
  session st' = (Some data, i, qcm_user_answers st) ->
  display st' = (default (-1) (qcm_user_answers st !! i), q_options q) ->
  session_ok st'.
Proof.
  intros [Hs Hr Hn] Hd Hi Hq. unfold session, display. intros [= Hd' Hi' Ha'] [= Hc' Hch'].
  constructor.
  - unfold current_shown. rewrite Hd', Hi'. by exists q.
  - unfold selection_recorded. by rewrite Hc', Ha', Hi'.
  - unfold answers_in_range in *. rewrite Ha', Hd', <- Hd. exact Hn.
Qed.

Lemma shown_index_in_range (st : app_state) (data : quiz) :
  current_shown st -> qcm_data st = Some data -> loaded st data.
Proof.
  unfold current_shown. intros H Hd. rewrite Hd in H. destruct H as (q & Hi & Hq & _).
  split; [exact Hd|]. pose proof (lookup_lt_Some _ _ _ Hq). lia.
Qed.

Lemma prev_index_range (n i : Z) : 0 <= i < n -> 0 <= prev_index i < n.
Proof. unfold prev_index. destruct (Z.ltb_spec 0 i); lia. Qed.

Lemma next_index_range (n i : Z) : 0 <= i < n -> 0 <= next_index n i < n.
Proof. unfold next_index. destruct (Z.ltb_spec i (n - 1)); lia. Qed.

(** [qcm_prev] and [qcm_next] on a loaded session: the selection is saved,
    the index moves, the question there is rendered. *)
Lemma prev_loaded (st : app_state) (data : quiz) :
  loaded st data ->
  exists q st',
    questions data !! Z.to_nat (prev_index (qcm_index st)) = Some q /\
    qcm_prev st = (st', None) /\
    session st' = (Some data, prev_index (qcm_index st), nonneg_selection_saved st) /\
    display st' = (default (-1) (nonneg_selection_saved st !! prev_index (qcm_index st)),
                   q_options q).
Proof.
  intros [Hd Hi]. unfold qcm_prev. rewrite Hd.
  destruct (save_choice_rest st) as (Hd1 & Hi1 & _).
  set (st1 := qcm_save_choice st) in *.
  assert (Hmove : (if 0 <? qcm_index st1 then set_index (qcm_index st1 - 1) st1 else st1)
                  = set_index (prev_index (qcm_index st)) st1).
  { unfold prev_index. rewrite Hi1.
    destruct (0 <? qcm_index st); [reflexivity|].
    by rewrite <- Hi1, set_index_same. }
  rewrite Hmove.
  destruct (render_at st1 data (prev_index (qcm_index st))) as (q & st' & Hq & Hr & Hs & Hdis).
  { by rewrite Hd1. } { by apply prev_index_range. }
  exists q, st'. unfold st1 in Hs, Hdis. rewrite save_choice_answers in Hs, Hdis. auto.
Qed.

Lemma next_loaded (st : app_state) (data : quiz) :
  loaded st data ->
  let n := Z.of_nat (length (questions data)) in
  exists q st',
    questions data !! Z.to_nat (next_index n (qcm_index st)) = Some q /\
    qcm_next st = (st', None) /\
    session st' = (Some data, next_index n (qcm_index st), nonneg_selection_saved st) /\
    display st' = (default (-1) (nonneg_selection_saved st !! next_index n (qcm_index st)),
                   q_options q).
Proof.
  intros [Hd Hi] n. unfold qcm_next. rewrite Hd.
  destruct (save_choice_rest st) as (Hd1 & Hi1 & _).
  set (st1 := qcm_save_choice st) in *.
  assert (Hmove : (if qcm_index st1 <? Z.of_nat (length (questions data)) - 1
                   then set_index (qcm_index st1 + 1) st1 else st1)
                  = set_index (next_index n (qcm_index st)) st1).
  { unfold next_index, n. rewrite Hi1.
    destruct (qcm_index st <? _); [reflexivity|].
    by rewrite <- Hi1, set_index_same. }
  rewrite Hmove.
  destruct (render_at st1 data (next_index n (qcm_index st))) as (q & st' & Hq & Hr & Hs & Hdis).
  { by rewrite Hd1. } { by apply next_index_range. }
  exists q, st'. unfold st1 in Hs, Hdis. rewrite save_choice_answers in Hs, Hdis. auto.
Qed.

Lemma saved_other (st : app_state) (j : Z) :
  j <> qcm_index st -> nonneg_selection_saved st !! j = qcm_user_answers st !! j.
Proof.
  intros Hj. unfold nonneg_selection_saved.
  destruct (0 <=? qcm_choice_var st); [|reflexivity].
  by rewrite lookup_insert_ne.
Qed.

Lemma answers_render (st : app_state) :
  qcm_user_answers (fst (qcm_render_question st)) = qcm_user_answers st.
Proof.
  pose proof (session_render st) as H. unfold session in H. by injection H.
Qed.

Lemma nav_step_answers (a : nav) (st : app_state) :
  qcm_user_answers (nav_step a st) = qcm_user_answers st \/
  qcm_user_answers (nav_step a st) = nonneg_selection_saved st.
Proof.
  destruct a; unfold nav_step, qcm_prev, qcm_next;
    (destruct (qcm_data st); [right|by left]);
    rewrite answers_render;
    match goal with |- context [if ?c then _ else _] => destruct c end;
    apply save_choice_answers.
Qed.

Lemma nav_step_other (a : nav) (st : app_state) (j : Z) :
  j <> qcm_index st ->
  qcm_user_answers (nav_step a st) !! j = qcm_user_answers st !! j.
Proof.
  intros Hj. destruct (nav_step_answers a st) as [->| ->]; [reflexivity|].
  by apply saved_other.
Qed.

Lemma nav_run_other (l : list nav) (st : app_state) (j : Z) :
  j ∉ nav_visited l st ->
  qcm_user_answers (nav_run l st) !! j = qcm_user_answers st !! j.
Proof.
  revert st. induction l as [|a l IH]; intros st Hj; [reflexivity|].
  cbn [nav_run nav_visited] in *.
  apply not_elem_of_cons in Hj as [Hne Hj].
  rewrite (IH _ Hj). by apply nav_step_other.
Qed.

(** C6: on a loaded session [qcm_next] adds one to the index unless it is the
    last one and [qcm_prev] takes one off unless it is 0, without wrapping
    around; both first record the selection displayed (a selection there is:
    not the sentinel) at the index before the move, and leave the answer
    recorded for every other index as it is; so through any sequence of the
    two, the answer of an index at which none of them was called is kept. *)
Theorem navigation_keeps_answers (st : app_state) (data : quiz) :
  loaded st data ->
  let i := qcm_index st in
  let n := Z.of_nat (length (questions data)) in
  let recorded := if 0 <=? qcm_choice_var st
                  then <[i := qcm_choice_var st]> (qcm_user_answers st)
                  else qcm_user_answers st in
  (snd (qcm_next st) = None /\
   qcm_index (fst (qcm_next st)) = (if i <? n - 1 then i + 1 else i) /\
   qcm_user_answers (fst (qcm_next st)) = recorded) /\
  (snd (qcm_prev st) = None /\
   qcm_index (fst (qcm_prev st)) = (if 0 <? i then i - 1 else i) /\
   qcm_user_answers (fst (qcm_prev st)) = recorded) /\
  (forall j, j <> i -> recorded !! j = qcm_user_answers st !! j) /\
  (forall l j, j ∉ nav_visited l st ->
     qcm_user_answers (nav_run l st) !! j = qcm_user_answers st !! j).
Proof.
  intros Hl. cbn zeta.
  destruct (next_loaded st data Hl) as (qn & stn & _ & Hn & Hsn & _).
  destruct (prev_loaded st data Hl) as (qp & stp & _ & Hp & Hsp & _).
  rewrite Hn, Hp. cbn [fst snd].
  unfold session in Hsn, Hsp. injection Hsn as _ Hin Han. injection Hsp as _ Hip Hap.
  repeat split; try assumption.
  - intros j Hj. by apply saved_other.
  - intros l j. apply nav_run_other.
Qed.

Section Reachable.

Variable json_loads : string -> option value.

Lemma reachable_run (l : list action) : reachable json_loads (run json_loads l).
Proof.
  unfold run. rewrite <- fold_left_rev_right.
  induction (rev l) as [|a l' IH]; [constructor|]. simpl. by constructor.
Qed.

Lemma session_ok_generate (env : gen_env) (st : app_state) :
  session_ok st -> session_ok (fst (gui_generate_qcm json_loads env st)).
Proof.
  intros Hok.
  destruct (generate_session_cases json_loads env st)
    as [[Hs Hd]|(raw & data & text & n & _ & _ & _ & _ & _ & _ & _ & Hs & q & Hq & Hd)].
  - by apply (session_ok_ext st).
  - by apply (session_ok_installed _ data q).
Qed.

Lemma session_ok_click (i : nat) (st : app_state) :
  session_ok st -> session_ok (click_choice i st).
Proof.
  intros [Hs Hr Hn]. unfold click_choice.
  destruct (Nat.ltb_spec i (length (qcm_choices st))) as [Hlt|]; [|by constructor].
  unfold qcm_save_choice. cbn [set_choice qcm_choice_var qcm_index qcm_user_answers].
  destruct (Z.leb_spec 0 (Z.of_nat i)); [|lia].
  unfold current_shown in Hs.
  destruct (qcm_data st) as [data|] eqn:Hd;
    [|rewrite Hs in Hlt; simpl in Hlt; lia].
  destruct Hs as (q & Hi & Hq & Hch).
  constructor.
  - unfold current_shown. cbn. rewrite Hd. by exists q.
  - unfold selection_recorded. cbn. by rewrite lookup_insert_eq.
  - intros k v. cbn. rewrite Hd. intros Hkv.
    destruct (decide (k = qcm_index st)) as [->|Hne].
    + rewrite lookup_insert_eq in Hkv. injection Hkv as <-.
      exists data, q. rewrite <- Hch. repeat split; auto; lia.
    + rewrite lookup_insert_ne in Hkv by done.
      destruct (Hn k v Hkv) as (data' & q' & Hd' & H'). rewrite Hd in Hd'.
      injection Hd' as <-. by exists data, q'.
Qed.

Lemma session_ok_prev (st : app_state) :
  session_ok st -> session_ok (fst (qcm_prev st)).
Proof.
  intros Hok. destruct (qcm_data st) as [data|] eqn:Hd.
  - destruct (prev_loaded st data) as (q & st' & Hq & -> & Hs & Hdis).
    { apply shown_index_in_range; [apply Hok|exact Hd]. }
    pose proof (save_choice_recorded st (ok_selection st Hok)) as Hsave.
    assert (Ha : nonneg_selection_saved st = qcm_user_answers st).
    { by rewrite <- save_choice_answers, Hsave. }
    rewrite Ha in Hs, Hdis.
    apply (session_ok_render_at st st' data (prev_index (qcm_index st)) q); auto.
    apply prev_index_range with (n := Z.of_nat (length (questions data))).
    apply (shown_index_in_range st data); [apply Hok|exact Hd].
  - unfold qcm_prev. by rewrite Hd.
Qed.

Lemma session_ok_next (st : app_state) :
  session_ok st -> session_ok (fst (qcm_next st)).
Proof.
  intros Hok. destruct (qcm_data st) as [data|] eqn:Hd.
  - destruct (next_loaded st data) as (q & st' & Hq & -> & Hs & Hdis).
    { apply shown_index_in_range; [apply Hok|exact Hd]. }
    pose proof (save_choice_recorded st (ok_selection st Hok)) as Hsave.
    assert (Ha : nonneg_selection_saved st = qcm_user_answers st).
    { by rewrite <- save_choice_answers, Hsave. }
    rewrite Ha in Hs, Hdis.
    apply (session_ok_render_at st st' data
             (next_index (Z.of_nat (length (questions data))) (qcm_index st)) q); auto.
    apply next_index_range.
    apply (shown_index_in_range st data); [apply Hok|exact Hd].
  - unfold qcm_next. by rewrite Hd.
Qed.

Lemma session_ok_finish (st : app_state) :
  session_ok st -> session_ok (fst (qcm_finish st)).
Proof.
  intros Hok. unfold qcm_finish.
  destruct (qcm_data st) as [data|]; [|exact Hok].
  rewrite (save_choice_recorded st (ok_selection st Hok)).
  destruct (finish_loop _ _ _ _ _) as [[score lines]|e]; [|exact Hok].
  by apply (session_ok_ext st).
Qed.

Lemma reachable_ok (st : app_state) : reachable json_loads st -> session_ok st.
Proof.
  induction 1 as [|st a _ IH]; [apply session_ok_initial|].
  destruct a; cbn [perform].
  - by apply session_ok_generate.
  - by apply session_ok_click.
  - by apply session_ok_prev.
  - by apply session_ok_next.
  - by apply session_ok_finish.
Qed.

(** C10: in every state reached by loading quizzes, selecting answers,
    [qcm_prev], [qcm_next] and [qcm_finish], saving the selection is a no-op
    when the selection is negative, and every value of the recorded answers
    is at least 0. *)
Theorem recorded_answers_nonnegative (st : app_state) :
  reachable json_loads st ->
  (qcm_choice_var st < 0 -> qcm_save_choice st = st) /\
  (forall k v, qcm_user_answers st !! k = Some v -> 0 <= v).
Proof.
  intros Hr. split; [apply save_choice_negative|].
  intros k v Hkv.
  destruct (ok_answers st (reachable_ok st Hr) k v Hkv) as (data & q & _ & _ & _ & Hv).
  lia.
Qed.

End Reachable.

(** ** Scoring *)

Lemma finish_question_resolved (answers : gmap Z Z) (idx : Z) (q : question) :
  resolves q ->
  (forall u, answers !! idx = Some u -> 0 <= u < Z.of_nat (length (q_options q))) ->
  exists line, finish_question answers idx q = Ret (is_correct answers idx q, line) /\
               (c_chosen line = None <-> answers !! idx = None).
Proof.
  intros [r Hr] Hu. unfold finish_question, is_correct. rewrite Hr, ret_bind.
  assert (Hc : exists correct,
    (match r with
     | Some c => x ← py_index (q_options q) c; Ret (Some x)
     | None => Ret None
     end) = Ret correct).
  { destruct r as [c|]; [|by eexists].
    pose proof (answer_to_index_range _ _ _ Hr) as Hrange.
    destruct (lookup_lt_is_Some_2 (q_options q) (Z.to_nat c)) as [x Hx]; [lia|].
    rewrite (py_index_lookup _ _ x) by (lia || done). by eexists. }
  destruct Hc as [correct ->].
  destruct (answers !! idx) as [u|] eqn:E.
  - destruct (Hu u eq_refl) as [H0 Hlt].
    destruct (lookup_lt_is_Some_2 (q_options q) (Z.to_nat u)) as [x Hx]; [lia|].
    rewrite (py_index_lookup _ _ x) by done. rewrite !ret_bind.
    eexists. split; [reflexivity|]. cbn. split; discriminate.
  - rewrite !ret_bind. eexists. split; [by destruct r|]. cbn. done.
Qed.

Lemma finish_loop_score (answers : gmap Z Z) (qs : list question) :
  forall (idx score : Z) (lines : list correction),
  (forall q, q ∈ qs -> resolves q) ->
  (forall (k : nat) q u, qs !! k = Some q -> answers !! (idx + Z.of_nat k) = Some u ->
      0 <= u < Z.of_nat (length (q_options q))) ->
  exists lines',
    finish_loop answers idx qs score lines =
      Ret (score + count_correct answers idx qs, lines ++ lines')%list /\
    length lines' = length qs /\
    (answers = ∅ -> Forall (fun line => c_chosen line = None) lines').
Proof.
  induction qs as [|q qs IH]; intros idx score lines Hres Hrange.
  - exists []. cbn. rewrite Z.add_0_r, app_nil_r. by split.
  - destruct (finish_question_resolved answers idx q) as (line & Hq & Hnone).
    { apply Hres. left. }
    { intros u Hu. apply (Hrange 0%nat q u); [done|]. by rewrite Z.add_0_r. }
    cbn [finish_loop count_correct]. rewrite Hq, ret_bind.
    destruct (IH (idx + 1) (if is_correct answers idx q then score + 1 else score)
                 (lines ++ [line])%list) as (lines' & Hl & Hlen & Hempty).
    { intros q' Hin. apply Hres. by right. }
    { intros k q' u Hk Hu. apply (Hrange (S k) q' u); [done|].
      by replace (idx + Z.of_nat (S k)) with (idx + 1 + Z.of_nat k) by lia. }
    exists (line :: lines'). rewrite Hl. split; [|split].
    + rewrite <- app_assoc. cbn [app]. do 2 f_equal.
      destruct (is_correct answers idx q); cbn [Z.b2z]; lia.
    + cbn. by rewrite Hlen.
    + intros ->. constructor; [|by apply Hempty].
      apply Hnone, lookup_empty.
Qed.

Lemma count_correct_bounds (answers : gmap Z Z) (qs : list question) (idx : Z) :
  0 <= count_correct answers idx qs <= Z.of_nat (length qs).
Proof.
  revert idx. induction qs as [|q qs IH]; intros idx; cbn [count_correct length]; [lia|].
  specialize (IH (idx + 1)). destruct (is_correct answers idx q); cbn [Z.b2z]; lia.
Qed.

Lemma count_correct_empty (qs : list question) (idx : Z) : count_correct ∅ idx qs = 0.
Proof.
  revert idx. induction qs as [|q qs IH]; intros idx; [reflexivity|].
  cbn [count_correct]. rewrite IH. unfold is_correct. rewrite lookup_empty.
  by destruct (_answer_to_index _ _) as [[c|]|].
Qed.

Lemma count_correct_all (answers : gmap Z Z) (qs : list question) (idx : Z) :
  (forall (k : nat) q, qs !! k = Some q ->
     exists c, _answer_to_index (q_answer q) (q_options q) = Ret (Some c) /\
               answers !! (idx + Z.of_nat k) = Some c) ->
  count_correct answers idx qs = Z.of_nat (length qs).
Proof.
  revert idx. induction qs as [|q qs IH]; intros idx Hall; [reflexivity|].
  cbn [count_correct length]. rewrite IH.
  - destruct (Hall 0%nat q eq_refl) as (c & Hc & Hu). rewrite Z.add_0_r in Hu.
    unfold is_correct. rewrite Hc, Hu, Z.eqb_refl. cbn [Z.b2z]. lia.
  - intros k q' Hk. destruct (Hall (S k) q' Hk) as (c & Hc & Hu).
    exists c. split; [exact Hc|].
    by replace (idx + 1 + Z.of_nat k) with (idx + Z.of_nat (S k)) by lia.
Qed.

(** The score of [qcm_finish], where the resolver returns on every question:
    the number of questions whose resolved index is known and equal to the
    recorded choice, out of the number of questions. *)
Lemma qcm_finish_score (st : app_state) (data : quiz) :
  session_ok st -> qcm_data st = Some data ->
  (forall q, q ∈ questions data -> resolves q) ->
  let answers := qcm_user_answers st in
  let qs := questions data in
  exists lines,
    qcm_finish st =
      (set_correction (Some lines)
         (set_status (StatusFinished (count_correct answers 0 qs) (Z.of_nat (length qs))) st),
       None) /\
    length lines = length qs /\
    (answers = ∅ ->
       count_correct answers 0 qs = 0 /\ Forall (fun line => c_chosen line = None) lines) /\
    ((forall (k : nat) q, qs !! k = Some q ->
        exists c, _answer_to_index (q_answer q) (q_options q) = Ret (Some c) /\
                  answers !! Z.of_nat k = Some c) ->
     count_correct answers 0 qs = Z.of_nat (length qs)).
Proof.
  intros Hok Hd Hres. cbn zeta. unfold qcm_finish. rewrite Hd.
  rewrite (save_choice_recorded st (ok_selection st Hok)).
  destruct (finish_loop_score (qcm_user_answers st) (questions data) 0 0 [] Hres)
    as (lines & Hl & Hlen & Hempty).
  { intros k q u Hk Hu.
    destruct (ok_answers st Hok _ _ Hu) as (data' & q' & Hd' & _ & Hq' & Hrange).
    rewrite Hd in Hd'. injection Hd' as <-.
    rewrite Z.add_0_l, Nat2Z.id, Hk in Hq'. by injection Hq' as <-. }
  rewrite Hl. cbn [app]. rewrite Z.add_0_l.
  exists lines. repeat split; auto.
  - rewrite H. apply count_correct_empty.
  - intros Hall. by apply count_correct_all.
Qed.

(** ** Concrete sessions *)

Lemma sample_session_loaded : loaded sample_session sample_quiz.
Proof.
  split; [vm_compute; reflexivity|].
  replace (qcm_index sample_session) with 0 by (vm_compute; reflexivity).
  cbn. lia.
Qed.

Lemma navigation_keeps_answers_witness :
  loaded sample_session sample_quiz /\
  qcm_index (fst (qcm_next sample_session)) = 1 /\
  qcm_index (fst (qcm_prev sample_session)) = 0 /\
  qcm_user_answers (fst (qcm_next sample_session)) !! 0 = Some 1.
Proof.
  pose proof (navigation_keeps_answers sample_session sample_quiz sample_session_loaded)
    as ((_ & Hn & Han) & (_ & Hp & _) & _).
  split; [exact sample_session_loaded|].
  split; [rewrite Hn; vm_compute; reflexivity|].
  split; [rewrite Hp; vm_compute; reflexivity|].
  rewrite Han. vm_compute. reflexivity.
Defined.

Lemma recorded_answers_nonnegative_witness :
  reachable json_loads_model (run json_loads_model sample_run) /\
  qcm_user_answers (run json_loads_model sample_run) !! 2 = Some 1 /\
  qcm_status (run json_loads_model sample_run) = StatusNoQuiz /\
  forall k v, qcm_user_answers (run json_loads_model sample_run) !! k = Some v -> 0 <= v.
Proof.
  split; [apply reachable_run|].
  split; [vm_compute; reflexivity|].
  split; [vm_compute; reflexivity|].
  apply (recorded_answers_nonnegative json_loads_model), reachable_run.
Defined.

(** The score of the run before its last action: the first question is
    right, the second has no known answer, the third is right as a one-based
    number. *)
Lemma sample_score :
  qcm_status (run json_loads_model
                (take 9 sample_run)) = StatusFinished 2 3.
Proof. vm_compute. reflexivity. Qed.

(** C5, where the code departs from it: on the loaded session below
    [qcm_finish] reports no score; the resolver raises [ValueError] on the
    answer of the question, the method leaves with it and the status and the
    correction are as before. *)
Theorem finish_raises_on_superscript_digit :
  qcm_data superscript_session =
    Some {| questions := [{| q_question := "Q?"; q_options := ["a"; "b"; "c"];
                             q_answer := VStr superscript_two;
                             q_explanation := "" |}] |} /\
  qcm_user_answers superscript_session !! 0 = Some 1 /\
  qcm_finish superscript_session = (superscript_session, Some ValueError) /\
  qcm_status superscript_session = StatusGenerated 1.
Proof. repeat split; vm_compute; reflexivity. Qed.

(** ** JSON extraction *)

Lemma find_span_between (o c : ascii) (s : string) :
  option_map snd (find_span o c s) = span_between o c s.
Proof.
  unfold span_between. induction s as [|x r IH]; [reflexivity|].
  cbn [find_span from_first]. destruct (Ascii.eqb x o).
  - by destruct (upto_last c r).
  - rewrite <- IH. by destruct (find_span o c r) as [[i m]|].
Qed.

Lemma upto_last_tail (c x : ascii) (r : string) :
  upto_last c (String x r) = None -> upto_last c r = None.
Proof. cbn. by destruct (upto_last c r). Qed.

Lemma find_span_none (o c : ascii) (s : string) :
  upto_last c s = None -> find_span o c s = None.
Proof.
  induction s as [|x r IH]; [reflexivity|]. intros H.
  pose proof (upto_last_tail _ _ _ H) as Hr.
  cbn [find_span]. rewrite Hr, (IH Hr). by destruct (Ascii.eqb x o).
Qed.

Lemma upto_last_prefix (c : ascii) (s p : string) :
  upto_last c s = Some p -> exists post, s = p ++ post.
Proof.
  revert p. induction s as [|x r IH]; intros p; [discriminate|].
  cbn [upto_last]. destruct (upto_last c r) as [p'|].
  - intros [= <-]. destruct (IH p' eq_refl) as [post ->]. by exists post.
  - destruct (Ascii.eqb x c); [|discriminate]. intros [= <-]. by exists r.
Qed.

Lemma find_span_split (o c : ascii) (s : string) (i : nat) (m : string) :
  find_span o c s = Some (i, m) ->
  exists pre post, s = pre ++ m ++ post /\ String.length pre = i.
Proof.
  revert i. induction s as [|x r IH]; intros i; [discriminate|].
  cbn [find_span]. destruct (Ascii.eqb x o).
  - destruct (upto_last c r) as [p|] eqn:E; [|discriminate].
    intros [= <- <-]. destruct (upto_last_prefix _ _ _ E) as [post ->].
    by exists EmptyString, post.
  - destruct (find_span o c r) as [[j m']|]; [|discriminate].
    intros [= <- <-]. destruct (IH j eq_refl) as (pre & post & -> & Hlen).
    exists (String x pre), post. cbn. by rewrite Hlen.
Qed.

Lemma substring_prefix (m post : string) :
  String.substring 0 (String.length m) (m ++ post) = m.
Proof.
  induction m as [|y m IHm].
  - by destruct post.
  - change (String y (String.substring 0 (String.length m) (m ++ post)) = String y m).
    by rewrite IHm.
Qed.

Lemma substring_middle (pre m post : string) :
  String.substring (String.length pre) (String.length m) (pre ++ m ++ post) = m.
Proof.
  induction pre as [|x pre IH]; [exact (substring_prefix m post)|exact IH].
Qed.

Section Delimited.

Variables o c : ascii.

Lemma any_body_step (st : Re.mstate) (k : Re.cont) :
  any_body st k =
  match Re.m_rest st with
  | String x r => k (Re.advance x r st)
  | EmptyString => None
  end.
Proof.
  unfold any_body. cbn [Re.rmatch re_any_char set_of]. unfold Re.step_char.
  destruct (Re.m_rest st) as [|x r]; [reflexivity|].
  unfold Re.set_matches. cbn. by destruct (is_space x).
Qed.

(** The greedy run over any character followed by [c] ends after the last
    [c] of the text left. *)
Lemma greedy_ends_at_last (n : nat) :
  forall st, (String.length (Re.m_rest st) <= n)%nat ->
  option_map Re.m_pos (Re.repeat_greedy any_body (close_k c) n st) =
  option_map (fun p => (Re.m_pos st + String.length p)%nat) (upto_last c (Re.m_rest st)).
Proof.
  induction n as [|n IH]; intros st Hn.
  - destruct (Re.m_rest st) as [|x r] eqn:E; [|cbn in Hn; lia].
    cbn. unfold close_k, Re.step_char. by rewrite E.
  - cbn [Re.repeat_greedy]. rewrite any_body_step.
    destruct (Re.m_rest st) as [|x r] eqn:E.
    + cbn. unfold close_k, Re.step_char. by rewrite E.
    + cbn [Re.advance Re.m_pos].
      replace (Re.m_pos st <? S (Re.m_pos st))%nat with true
        by (symmetry; apply Nat.ltb_lt; lia).
      specialize (IH (Re.advance x r st)). cbn [Re.advance Re.m_rest Re.m_pos] in IH.
      cbn [upto_last].
      destruct (Re.repeat_greedy any_body (close_k c) n (Re.advance x r st)) as [e|] eqn:Er.
      * cbn [Re.or_else option_map]. cbn [option_map] in IH.
        destruct (upto_last c r) as [p|]; [|by discriminate IH; cbn in Hn; lia].
        cbn [option_map String.length] in *.
        assert (Hp : Some (Re.m_pos e) = Some (S (Re.m_pos st) + String.length p)%nat)
          by (apply IH; cbn in Hn; lia).
        injection Hp as ->. f_equal. lia.
      * cbn [Re.or_else]. cbn [option_map] in IH.
        destruct (upto_last c r) as [p|].
        { assert (Hp : None = Some (S (Re.m_pos st) + String.length p)%nat)
            by (apply IH; cbn in Hn; lia).
          discriminate. }
        unfold close_k, Re.step_char. rewrite E. unfold Re.char_matches. cbn [Re.ignorecase Re.no_flags].
        destruct (Ascii.eqb x c); [|reflexivity].
        cbn. f_equal. lia.
Qed.

Lemma rmatch_delimited (st : Re.mstate) :
  option_map Re.m_pos (Re.rmatch Re.no_flags (re_delimited o c) st Some) =
  match Re.m_rest st with
  | String x r =>
      if Ascii.eqb x o
      then option_map (fun p => (Re.m_pos st + S (String.length p))%nat) (upto_last c r)
      else None
  | EmptyString => None
  end.
Proof.
  unfold re_delimited. cbn [Re.seq Re.rmatch]. unfold Re.step_char at 1.
  destruct (Re.m_rest st) as [|x r] eqn:E; [reflexivity|].
  unfold Re.char_matches at 1. cbn [Re.ignorecase Re.no_flags].
  destruct (Ascii.eqb x o); [|reflexivity].
  cbn [Re.advance Re.m_rest].
  pose proof (greedy_ends_at_last (String.length r) (Re.advance x r st)) as H.
  cbn [Re.advance Re.m_rest Re.m_pos] in H.
  change (Re.rmatch Re.no_flags re_any_char) with any_body.
  change (fun st' : Re.mstate => Re.step_char (Re.char_matches Re.no_flags c) st' Some)
    with (close_k c).
  rewrite H by lia. destruct (upto_last c r) as [p|]; [|reflexivity].
  cbn. f_equal. lia.
Qed.

Lemma search_delimited (n : nat) :
  forall st, (String.length (Re.m_rest st) <= n)%nat ->
  option_map (fun mo => (Re.mo_start mo, Re.m_pos (Re.mo_end mo)))
             (Re.search_from Re.no_flags (re_delimited o c) n st) =
  option_map (fun im => (Re.m_pos st + fst im, Re.m_pos st + fst im + String.length (snd im))%nat)
             (find_span o c (Re.m_rest st)).
Proof.
  induction n as [|n IH]; intros st Hn.
  - destruct (Re.m_rest st) as [|x r] eqn:E; [|cbn in Hn; lia].
    cbn [Re.search_from].
    pose proof (rmatch_delimited (Re.clear_caps st)) as H.
    cbn [Re.clear_caps Re.m_rest] in H. rewrite E in H.
    destruct (Re.rmatch _ _ _ _); [discriminate|reflexivity].
  - cbn [Re.search_from].
    pose proof (rmatch_delimited (Re.clear_caps st)) as H.
    cbn [Re.clear_caps Re.m_rest Re.m_pos] in H.
    destruct (Re.m_rest st) as [|x r] eqn:E.
    + destruct (Re.rmatch _ _ _ _); [discriminate|reflexivity].
    + cbn [find_span]. destruct (Ascii.eqb x o).
      * destruct (upto_last c r) as [p|] eqn:Ep.
        { destruct (Re.rmatch _ _ _ _) as [e|]; [|discriminate].
          cbn in H. injection H as H. cbn. rewrite H. f_equal. f_equal; lia. }
        destruct (Re.rmatch _ _ _ _) as [e|]; [discriminate|].
        rewrite IH by (cbn; cbn in Hn; lia).
        cbn [Re.advance Re.m_rest]. by rewrite (find_span_none o c r Ep).
      * destruct (Re.rmatch _ _ _ _) as [e|]; [discriminate|].
        rewrite IH by (cbn; cbn in Hn; lia).
        cbn [Re.advance Re.m_rest Re.m_pos].
        destruct (find_span o c r) as [[i m]|]; [|reflexivity].
        cbn. f_equal. f_equal; lia.
Qed.

(** Searching [o[\s\S]*c] in a text gives the text from the first [o] to the
    last [c] after it. *)
Lemma search_span (t : string) :
  option_map (Re.group0 t) (Re.re_search Re.no_flags (re_delimited o c) t) =
  span_between o c t.
Proof.
  rewrite <- find_span_between. unfold Re.re_search.
  pose proof (search_delimited (String.length t) (Re.start_state t) (Nat.le_refl _)) as H.
  cbn [Re.start_state Re.m_rest Re.m_pos] in H.
  destruct (Re.search_from _ _ _ _) as [mo|]; destruct (find_span o c t) as [[i m]|] eqn:E;
    try discriminate; [|reflexivity].
  cbn in H. injection H as Hs He. cbn.
  destruct (find_span_split _ _ _ _ _ E) as (pre & post & -> & Hlen).
  unfold Re.group0, Re.m_start, Re.m_end, slice. rewrite Hs, He, <- Hlen.
  replace (String.length pre + String.length m - String.length pre)%nat
    with (String.length m) by lia.
  by rewrite substring_middle.
Qed.

End Delimited.

Lemma try_span_between (json_loads : string -> option value) (o c : ascii) (t : string) :
  try_span json_loads (re_delimited o c) t = span_between o c t ≫= json_loads.
Proof.
  unfold try_span. rewrite <- search_span.
  by destruct (Re.re_search Re.no_flags (re_delimited o c) t).
Qed.

Lemma from_first_app (o : ascii) (pre rest : string) :
  has_no o pre -> from_first o (pre ++ String o rest) = Some (String o rest).
Proof.
  induction pre as [|y pre IH]; intros H.
  - change (from_first o (String o rest) = Some (String o rest)).
    cbn. by rewrite Ascii.eqb_refl.
  - destruct H as [Hy H].
    change (from_first o (String y (pre ++ String o rest)) = Some (String o rest)).
    cbn. rewrite Hy. by apply IH.
Qed.

Lemma upto_last_none (c : ascii) (s : string) : has_no c s -> upto_last c s = None.
Proof.
  induction s as [|y s IH]; [reflexivity|]. intros [Hy H].
  cbn. by rewrite (IH H), Hy.
Qed.

Lemma upto_last_app (c : ascii) (body post : string) :
  has_no c post ->
  upto_last c (body ++ String c post) = Some (body ++ String c EmptyString).
Proof.
  intros H. induction body as [|y body IH].
  - change (upto_last c (String c post) = Some (String c EmptyString)).
    cbn. by rewrite (upto_last_none c post H), Ascii.eqb_refl.
  - change (upto_last c (String y (body ++ String c post))
            = Some (String y (body ++ String c EmptyString))).
    cbn. by rewrite IH.
Qed.

Lemma span_between_app (o c : ascii) (pre body post : string) :
  has_no o pre -> has_no c post ->
  span_between o c (pre ++ String o (body ++ String c post)) =
  Some (String o (body ++ String c EmptyString)).
Proof.
  intros Hpre Hpost. unfold span_between.
  rewrite (from_first_app o pre _ Hpre), (upto_last_app c body post Hpost).
  reflexivity.
Qed.

(** C3, as stated, fails: the text below holds a parseable top-level object
    followed by other text, and the extraction gives nothing; the text
    decoded in the second attempt runs to the last closing brace. *)
Lemma extract_two_objects :
  json_loads_model first_object = Some (VDict [("a", VInt 1)]) /\
  span_between "{" "}" two_objects = Some two_objects /\
  _extract_json_obj json_loads_model two_objects = None.
Proof. repeat split; vm_compute; reflexivity. Qed.

(** C3, amended: the extraction gives nothing on the empty text; otherwise
    it decodes the trimmed text; if that fails it decodes the text from the
    first opening brace to the last closing brace after it; if that fails or
    there is no such text, the text from the first opening bracket to the last
    closing bracket after it; the first success is the result and when all
    fail there is none.  In particular, when the trimmed text is not JSON as a
    whole and is an object between a text without opening brace and a text
    without closing brace, the value of the object is returned. *)
Theorem extract_json_attempts (json_loads : string -> option value) (text : string) :
  _extract_json_obj json_loads text =
    (if nonempty text
     then first_success [json_loads (strip text);
                         span_between "{" "}" (strip text) ≫= json_loads;
                         span_between "[" "]" (strip text) ≫= json_loads]
     else None) /\
  (forall pre body post v,
     strip text = pre ++ String "{" (body ++ String "}" post) ->
     has_no "{" pre -> has_no "}" post ->
     json_loads (strip text) = None ->
     json_loads (String "{" (body ++ String "}" EmptyString)) = Some v ->
     _extract_json_obj json_loads text = Some v).
Proof.
  assert (Heq : _extract_json_obj json_loads text =
    (if nonempty text
     then first_success [json_loads (strip text);
                         span_between "{" "}" (strip text) ≫= json_loads;
                         span_between "[" "]" (strip text) ≫= json_loads]
     else None)).
  { unfold _extract_json_obj. destruct (nonempty text); [|reflexivity]. cbn [negb].
    change re_braces with (re_delimited "{" "}").
    change re_brackets with (re_delimited "[" "]").
    rewrite !try_span_between. cbn [first_success].
    destruct (json_loads (strip text)); [reflexivity|].
    destruct (span_between "{" "}" (strip text) ≫= json_loads); [reflexivity|].
    by destruct (span_between "[" "]" (strip text) ≫= json_loads). }
  split; [exact Heq|].
  intros pre body post v Ht Hpre Hpost Hwhole Hobj. rewrite Heq.
  destruct (nonempty text) eqn:Hne.
  - cbn [first_success]. rewrite Hwhole, Ht, (span_between_app _ _ pre body post Hpre Hpost).
    cbn. by rewrite Hobj.
  - apply nonempty_false in Hne. subst text. by destruct pre.
Qed.

(** The extraction on the sample model answer, an object after some words. *)
Lemma extract_sample_raw :
  json_loads_model sample_raw = None /\
  _normalize_qcm (default VNone (_extract_json_obj json_loads_model sample_raw)) =
  Ret (Some sample_quiz).
Proof. split; vm_compute; reflexivity. Qed.

(** ** The answer resolver on texts *)

Lemma find_standalone_letter (before : bool) (s : string) :
  option_map snd (find_standalone before s) = standalone_from before s.
Proof.
  revert before. induction s as [|x r IH]; intros before; [reflexivity|].
  cbn [find_standalone standalone_from].
  destruct (is_A_F x && negb before && negb _); [reflexivity|].
  rewrite <- IH. by destruct (find_standalone (is_word x) r) as [[i y]|].
Qed.

Lemma find_standalone_split (before : bool) (s : string) (i : nat) (x : ascii) :
  find_standalone before s = Some (i, x) ->
  exists pre post, s = pre ++ String x EmptyString ++ post /\ String.length pre = i.
Proof.
  revert before i. induction s as [|y r IH]; intros before i; [discriminate|].
  cbn [find_standalone]. destruct (is_A_F y && negb before && negb _).
  - intros [= <- <-]. by exists EmptyString, r.
  - destruct (find_standalone (is_word y) r) as [[j z]|] eqn:E; [|discriminate].
    intros [= <- <-]. destruct (IH _ _ E) as (pre & post & -> & Hlen).
    exists (String y pre), post. cbn. by rewrite Hlen.
Qed.

Lemma is_A_F_word (x : ascii) : is_A_F x = true -> is_word x = true.
Proof.
  unfold is_A_F, is_word, is_alpha, in_range. intros H.
  apply andb_true_iff in H as [H1 H2]. apply N.leb_le in H1, H2.
  assert ((65 <=? code x)%N && (code x <=? 90)%N = true) as ->; [|reflexivity].
  apply andb_true_iff. split; apply N.leb_le; lia.
Qed.

(** One attempt of the pattern [\b([A-F])\b] at a position. *)
Lemma rmatch_standalone (st : Re.mstate) :
  Re.rmatch Re.no_flags re_standalone_letter st Some =
  match Re.m_rest st with
  | String x r =>
      if is_A_F x && negb (Re.word_before st)
         && negb (match r with String y _ => is_word y | EmptyString => false end)
      then Some (Re.set_cap 1 (Re.m_pos st, S (Re.m_pos st)) (Re.advance x r st))
      else None
  | EmptyString => None
  end.
Proof.
  unfold re_standalone_letter. cbn [Re.seq Re.rmatch]. unfold Re.step_char.
  unfold Re.at_word_boundary at 1. unfold Re.word_after at 1.
  destruct (Re.m_rest st) as [|x r] eqn:E.
  - by destruct (xorb _ _).
  - assert (Hset : Re.set_matches Re.no_flags false [Re.CRange "A" "F"] x = is_A_F x).
    { unfold Re.set_matches, is_A_F, in_range. cbn. by rewrite orb_false_r. }
    rewrite Hset. destruct (is_A_F x) eqn:HAF.
    + rewrite (is_A_F_word x HAF).
      unfold Re.at_word_boundary, Re.word_before, Re.word_after.
      cbn [Re.set_cap Re.advance Re.m_prev Re.m_rest Re.m_pos].
      rewrite (is_A_F_word x HAF).
      destruct (match Re.m_prev st with Some c => is_word c | None => false end);
        cbn; [reflexivity|].
      by destruct (match r with String y _ => is_word y | EmptyString => false end).
    + cbn. by destruct (xorb _ _).
Qed.

Lemma search_standalone (n : nat) :
  forall st, (String.length (Re.m_rest st) <= n)%nat ->
  option_map (fun mo => Re.m_caps (Re.mo_end mo))
             (Re.search_from Re.no_flags re_standalone_letter n st) =
  option_map (fun ix => [(1%nat, ((Re.m_pos st + fst ix)%nat, S (Re.m_pos st + fst ix)))])
             (find_standalone (Re.word_before st) (Re.m_rest st)).
Proof.
  induction n as [|n IH]; intros st Hn.
  - destruct (Re.m_rest st) as [|x r] eqn:E; [|cbn in Hn; lia].
    cbn [Re.search_from]. rewrite rmatch_standalone. cbn [Re.clear_caps Re.m_rest].
    by rewrite E.
  - cbn [Re.search_from]. rewrite rmatch_standalone.
    cbn [Re.clear_caps Re.m_rest Re.m_pos].
    change (Re.word_before (Re.clear_caps st)) with (Re.word_before st).
    destruct (Re.m_rest st) as [|x r] eqn:E; [reflexivity|].
    cbn [find_standalone].
    destruct (is_A_F x && negb (Re.word_before st) && negb _).
    + cbn. by rewrite !Nat.add_0_r.
    + rewrite IH by (cbn; cbn in Hn; lia).
      cbn [Re.advance Re.m_rest Re.m_pos Re.word_before Re.m_prev].
      destruct (find_standalone (is_word x) r) as [[i y]|]; [|reflexivity].
      cbn. by rewrite Nat.add_succ_r.
Qed.

(** The search of [\b([A-F])\b] finds the first standalone letter. *)
Lemma search_first_standalone (s : string) :
  option_map (fun mo => Re.group_str s mo 1)
             (Re.re_search Re.no_flags re_standalone_letter s) =
  option_map (fun x => String x EmptyString) (first_standalone_letter s).
Proof.
  unfold first_standalone_letter. rewrite <- find_standalone_letter.
  unfold Re.re_search.
  pose proof (search_standalone (String.length s) (Re.start_state s) (Nat.le_refl _)) as H.
  cbn [Re.start_state Re.m_rest Re.m_pos Re.word_before Re.m_prev] in H.
  destruct (Re.search_from _ _ _ _) as [mo|];
    destruct (find_standalone false s) as [[i x]|] eqn:E; try discriminate; [|reflexivity].
  cbn in H. injection H as H. cbn.
  destruct (find_standalone_split _ _ _ _ E) as (pre & post & -> & Hlen).
  unfold Re.group_str, Re.group. rewrite H. cbn [Re.find_cap Nat.eqb default].
  unfold slice. rewrite <- Hlen.
  replace (S (String.length pre) - String.length pre)%nat
    with (String.length (String x EmptyString)) by (cbn; lia).
  by rewrite substring_middle.
Qed.

Lemma py_int_digits (t : string) :
  nonempty t = true ->
  PyText.py_int t = match int_digits 0 t with Some z => Ret z | None => Raise ValueError end.
Proof. by destruct t. Qed.

(** The resolver, case by case: [None] resolves to unknown, an integer to
    itself when it is an index, any other value by its trimmed text. *)
Lemma answer_to_index_cases (answer : value) (options : list string) :
  let n := Z.of_nat (length options) in
  _answer_to_index answer options =
  match answer with
  | VNone => Ret None
  | _ =>
      match as_int answer with
      | Some a => Ret (if in_bounds a n then Some a else None)
      | None => resolve_text (strip (py_str answer)) n
      end
  end.
Proof.
  cbn zeta.
  assert (Htext : forall t n,
    (if negb (nonempty t) then Ret None
     else match Re.re_search Re.no_flags re_standalone_letter (upper t) with
          | Some m =>
              Ret (if in_bounds (ord_minus_A (Re.group_str (upper t) m 1)) n
                   then Some (ord_minus_A (Re.group_str (upper t) m 1)) else None)
          | None =>
              if isdigit t then
                val ← PyText.py_int t;
                if in_bounds val n then Ret (Some val)
                else if (1 <=? val) && (val <=? n) then Ret (Some (val - 1))
                else Ret None
              else Ret None
          end) = resolve_text t n).
  { intros t n. unfold resolve_text. destruct (nonempty t) eqn:Hne; [|reflexivity].
    cbn [negb]. pose proof (search_first_standalone (upper t)) as H.
    destruct (Re.re_search _ _ _) as [m|];
      destruct (first_standalone_letter (upper t)) as [x|]; try discriminate.
    - cbn in H. injection H as ->. reflexivity.
    - destruct (isdigit t); [|reflexivity]. rewrite (py_int_digits t Hne).
      destruct (int_digits 0 t) as [val|]; [|reflexivity].
      rewrite ret_bind. destruct (in_bounds val _); [reflexivity|].
      by destruct ((1 <=? val) && _). }
  destruct answer; try reflexivity; apply Htext.
Qed.

(** Outside the digit characters that are not decimal, the resolver always
    returns (as far as [int] is modelled: without the interpreter's limit on
    the length of a text of digits). *)
Lemma answer_to_index_returns (answer : value) (options : list string) :
  (forallb_str is_digit (strip (py_str answer)) = true ->
   forallb_str is_decimal (strip (py_str answer)) = true) ->
  exists r, _answer_to_index answer options = Ret r.
Proof.
  intros Hdec. rewrite answer_to_index_cases. cbn zeta.
  assert (Hres : exists r, resolve_text (strip (py_str answer))
                             (Z.of_nat (length options)) = Ret r).
  { unfold resolve_text. destruct (negb _); [by eexists|].
    destruct (first_standalone_letter _); [by eexists|].
    destruct (isdigit _) eqn:Hd; [|by eexists].
    unfold isdigit in Hd. apply andb_true_iff in Hd as [_ Hd]. specialize (Hdec Hd).
    assert (Hint : forall s acc, forallb_str is_decimal s = true ->
                                 exists z, int_digits acc s = Some z).
    { induction s as [|c s IH]; intros acc Hs; [by eexists|].
      cbn in Hs. apply andb_true_iff in Hs as [Hc Hs]. cbn. rewrite Hc. by apply IH. }
    destruct (Hint _ 0 Hdec) as [z ->]. by eexists. }
  destruct answer; try (by eexists); exact Hres.
Qed.

(** * Further properties *)

(** ** Trimming *)

Lemma lstrip_nonspace (s : string) : starts_nonspace s -> lstrip s = s.
Proof. destruct s as [|c s]; [tauto|]. simpl. by intros ->. Qed.

Lemma lstrip_head (s : string) : lstrip s = EmptyString \/ starts_nonspace (lstrip s).
Proof.
  induction s as [|c s IH]; [by left|]. simpl.
  destruct (is_space c) eqn:E; [exact IH|]. right. exact E.
Qed.

Lemma rstrip_head (s : string) : starts_nonspace s -> starts_nonspace (rstrip s).
Proof.
  destruct s as [|c s]; [tauto|]. simpl. intros Hc.
  destruct (rstrip s); [by rewrite Hc|exact Hc].
Qed.

Lemma rstrip_idempotent (s : string) : rstrip (rstrip s) = rstrip s.
Proof.
  induction s as [|c s IH]; [reflexivity|]. cbn [rstrip].
  destruct (rstrip s) as [|x r] eqn:E.
  - destruct (is_space c) eqn:Hc; [reflexivity|]. cbn. by rewrite Hc.
  - change (rstrip (String c (String x r)))
      with (match rstrip (String x r) with
            | EmptyString => if is_space c then EmptyString else String c EmptyString
            | r0 => String c r0
            end).
    by rewrite IH.
Qed.

(** [s.strip().strip() == s.strip()] *)
Lemma strip_idempotent (s : string) : strip (strip s) = strip s.
Proof.
  unfold strip. destruct (lstrip_head s) as [H|H].
  - by rewrite H.
  - rewrite (lstrip_nonspace (rstrip (lstrip s))) by by apply rstrip_head.
    apply rstrip_idempotent.
Qed.

Lemma strip_has_nonspace (s : string) : nonempty (strip s) = has_nonspace s.
Proof.
  unfold strip. induction s as [|c s IH]; [reflexivity|].
  cbn [lstrip has_nonspace]. destruct (is_space c) eqn:Hc; cbn [negb orb]; [exact IH|].
  apply rstrip_nonempty. exact Hc.
Qed.

Lemma has_nonspace_app (a b : string) :
  has_nonspace (a ++ b) = has_nonspace a || has_nonspace b.
Proof.
  induction a as [|c a IH]; [reflexivity|].
  change (has_nonspace (String c (a ++ b)) = has_nonspace (String c a) || has_nonspace b).
  cbn [has_nonspace]. by rewrite IH, orb_assoc.
Qed.

Lemma format_option_nonempty (l t : string) :
  nonempty (strip (format_option l t)) = true.
Proof.
  rewrite strip_has_nonspace. unfold format_option.
  rewrite !has_nonspace_app. cbn. by rewrite orb_true_r.
Qed.

(** ** The invariant of normalized quizzes *)

Lemma clean_options_nonempty (l : list value) :
  Forall (fun o => nonempty o = true) (map py_str (clean_options l)).
Proof.
  induction l as [|x l IH]; [constructor|].
  rewrite clean_options_cons. destruct (nonempty (strip (py_str x))) eqn:E; [|exact IH].
  cbn [map py_str]. by constructor.
Qed.

Lemma chars_of_nonempty (s : string) :
  Forall (fun o => nonempty o = true) (chars_of s) /\ length (chars_of s) = String.length s.
Proof.
  unfold chars_of. induction s as [|c s [IH1 IH2]]; [by split|].
  cbn. split; [by constructor|by rewrite IH2].
Qed.

Lemma options_field_items (d : list (string * value)) (n : Z) :
  py_len (options_field d) = Ret n ->
  n = Z.of_nat (length (seq_items (options_field d))) /\
  Forall (fun o => nonempty o = true) (seq_items (options_field d)).
Proof.
  unfold options_field.
  destruct (py_or _ _) as [|b|z|nz t|s|l|m]; cbn [py_len seq_items]; try discriminate.
  - intros [= <-]. destruct (chars_of_nonempty s) as [H1 H2]. by rewrite H2.
  - intros [= <-]. rewrite length_map. split; [reflexivity|apply clean_options_nonempty].
  - intros [= <-]. rewrite length_map. split; [reflexivity|apply clean_options_nonempty].
Qed.

Lemma normalize_question_ok (q : value) (x : question) :
  normalize_question q = Ret (Some x) -> question_ok x.
Proof.
  destruct q as [| | | | | |d]; try discriminate. unfold normalize_question.
  destruct (method_strip (question_field d)) as [t|] eqn:Ht; [|discriminate].
  rewrite ret_bind.
  destruct (method_strip (explanation_field d)) as [e|]; [|discriminate].
  rewrite ret_bind. destruct (nonempty t) eqn:Hne; [|discriminate]. cbn [negb].
  destruct (py_len (options_field d)) as [n|] eqn:Hn; [|discriminate].
  rewrite ret_bind. destruct (Z.ltb_spec n 2); [discriminate|].
  intros [= <-]. destruct (options_field_items d n Hn) as [Hlen Hall].
  unfold question_ok. cbn. repeat split; auto; [|lia].
  unfold method_strip in Ht. destruct (question_field d); try discriminate.
  injection Ht as <-. apply strip_idempotent.
Qed.

Lemma normalize_loop_ok (qs : list value) :
  forall out out', Forall question_ok out ->
  normalize_loop qs out = Ret out' -> Forall question_ok out'.
Proof.
  induction qs as [|q qs IH]; intros out out' Hout.
  - by intros [= <-].
  - cbn [normalize_loop].
    destruct (normalize_question q) as [r|] eqn:Hq; [|discriminate]. rewrite ret_bind.
    apply IH. destruct r as [x|]; [|exact Hout].
    apply Forall_app. split; [exact Hout|].
    constructor; [|constructor]. by apply (normalize_question_ok q).
Qed.

(** X1: every quiz the normalizer returns has one question at least, and each
    of its questions has a trimmed, non-empty text and two options at least,
    none of them empty. *)
Theorem normalized_quiz_ok (data : value) (quiz : quiz) :
  _normalize_qcm data = Ret (Some quiz) -> quiz_ok quiz.
Proof.
  intros H. split; [by apply (normalize_nonempty data)|].
  revert H. rewrite normalize_entries.
  destruct (question_entries data) as [|q qs]; [discriminate|].
  destruct (normalize_loop (q :: qs) []) as [out|] eqn:Hl; [|discriminate].
  rewrite ret_bind. destruct out as [|x out]; [discriminate|]. intros [= <-].
  by apply (normalize_loop_ok (q :: qs) [] (x :: out)).
Qed.

Lemma normalized_quiz_ok_witness : quiz_ok {| questions := mixed_survivors |}.
Proof.
  apply (normalized_quiz_ok mixed_payload). vm_compute. reflexivity.
Defined.

(** ** The text path: parsing, then the post-filter *)

Lemma block_options_shape (rc : string) (qt : string) (opts : list string) :
  block_options rc = Some (qt, opts) ->
  strip qt = qt /\ (2 <= length opts)%nat /\
  Forall (fun o => exists l t, o = format_option l t) opts.
Proof.
  unfold block_options.
  assert (Hfmt : forall ms : list Re.rmatch_obj,
    Forall (fun o => exists l t, o = format_option l t)
      (map (fun m => format_option (Re.group_str rc m 1) (Re.group_str rc m 2)) ms)).
  { intros ms. apply Forall_forall. intros o Ho. apply list_elem_of_fmap in Ho as (m & -> & _).
    eauto. }
  destruct (Nat.ltb_spec (length (option_line_matches rc)) 2) as [Hlt|Hge].
  - destruct (Nat.leb_spec 2 (length (option_inline_matches rc))) as [Hge|]; [|discriminate].
    intros [= <- <-]. rewrite length_map. split; [apply strip_idempotent|]. by split.
  - intros [= <- <-]. rewrite length_map. split; [apply strip_idempotent|]. by split.
Qed.

Lemma parse_block_shape (block : string) (v : value) :
  parse_block block = Some v ->
  exists qt opts ans exp,
    v = question_dict qt opts ans exp /\
    nonempty qt = true /\ strip qt = qt /\ (2 <= length opts)%nat /\
    Forall (fun o => exists l t, o = format_option l t) opts /\
    (ans = VNone \/ exists s, ans = VStr s) /\ strip exp = exp.
Proof.
  unfold parse_block.
  destruct (Re.re_match flags_I_S re_block_head block) as [m|]; [|discriminate].
  set (rest := strip (Re.group_str block m 2)).
  destruct (block_options (clean_rest rest)) as [[qt opts]|] eqn:Hb; [|discriminate].
  destruct (block_options_shape _ _ _ Hb) as (Hqt & Hlen & Hfmt).
  intros [= <-]. do 4 eexists. split; [reflexivity|].
  repeat split; try assumption.
  - by destruct (nonempty qt) eqn:E.
  - destruct (nonempty qt) eqn:E; [exact Hqt|reflexivity].
  - destruct (Re.re_search Re.IGNORECASE re_answer rest); [right; eauto|by left].
  - destruct (Re.re_search Re.IGNORECASE re_explanation rest);
      [apply strip_idempotent|reflexivity].
Qed.

Lemma clean_formatted_options (opts : list string) :
  Forall (fun o => exists l t, o = format_option l t) opts ->
  clean_options (map VStr opts) = map (fun o => VStr (strip o)) opts.
Proof.
  induction 1 as [|o opts (l & t & ->) _ IH]; [reflexivity|].
  cbn [map]. rewrite clean_options_cons. cbn [py_str].
  by rewrite format_option_nonempty, IH.
Qed.

(** The post-filter on a question of the text-block parser. *)
Lemma normalize_parsed_question (qt exp : string) (opts : list string) (ans : value) :
  nonempty qt = true -> strip qt = qt -> (2 <= length opts)%nat ->
  Forall (fun o => exists l t, o = format_option l t) opts ->
  (ans = VNone \/ exists s, ans = VStr s) -> strip exp = exp ->
  normalize_question (question_dict qt opts ans exp) =
  Ret (Some {| q_question := qt; q_options := map strip opts;
               q_answer := if truthy ans then ans else VNone;
               q_explanation := exp |}).
Proof.
  intros Hne Hqt Hlen Hfmt Hans Hexp.
  unfold normalize_question, question_dict.
  assert (Hq : question_field
            [("question", VStr qt); ("options", VList (map VStr opts));
             ("answer", ans); ("explanation", VStr exp)] = VStr qt).
  { unfold question_field, py_or, dict_get. cbn. rewrite Hne. cbn. by rewrite Hne. }
  assert (He : method_strip (explanation_field
            [("question", VStr qt); ("options", VList (map VStr opts));
             ("answer", ans); ("explanation", VStr exp)]) = Ret exp).
  { unfold explanation_field, py_or, dict_get. cbn.
    destruct (nonempty exp) eqn:E; cbn; rewrite ?E; cbn; [by rewrite Hexp|].
    apply nonempty_false in E. by subst exp. }
  assert (Ho : options_field
            [("question", VStr qt); ("options", VList (map VStr opts));
             ("answer", ans); ("explanation", VStr exp)]
            = VList (map (fun o => VStr (strip o)) opts)).
  { unfold options_field, py_or, dict_get. cbn.
    destruct opts as [|o opts]; [cbn in Hlen; lia|]. cbn [map truthy].
    f_equal. exact (clean_formatted_options (o :: opts) Hfmt). }
  assert (Ha : answer_field
            [("question", VStr qt); ("options", VList (map VStr opts));
             ("answer", ans); ("explanation", VStr exp)]
            = if truthy ans then ans else VNone).
  { unfold answer_field, py_or, dict_get. cbn. by destruct (truthy ans) eqn:E; rewrite ?E. }
  rewrite Hq, He, Ho, Ha. cbn [method_strip]. rewrite Hqt, !ret_bind, Hne. cbn [negb].
  cbn [py_len]. rewrite ret_bind, length_map.
  destruct (Z.ltb_spec (Z.of_nat (length opts)) 2); [lia|].
  cbn [seq_items]. rewrite map_map. reflexivity.
Qed.

Lemma parsed_options_dict (qt : string) (opts : list string) (ans : value) (exp : string) :
  parsed_options (question_dict qt opts ans exp) = opts.
Proof.
  unfold parsed_options, question_dict, dict_get. cbn.
  rewrite map_map. cbn. apply map_id.
Qed.

Lemma normalize_loop_parsed (vs : list value) :
  forall out,
  Forall (fun v => exists block, parse_block block = Some v) vs ->
  exists kept,
    normalize_loop vs out = Ret (out ++ kept)%list /\
    map q_question kept = map parsed_text vs /\
    map q_explanation kept = map parsed_explanation vs /\
    map q_options kept = map (fun v => map strip (parsed_options v)) vs /\
    map q_answer kept =
      map (fun v => if truthy (parsed_answer v) then parsed_answer v else VNone) vs.
Proof.
  induction vs as [|v vs IH]; intros out Hvs.
  - exists []. cbn. by rewrite app_nil_r.
  - inversion Hvs as [|? ? (block & Hb) Hvs']; subst.
    destruct (parse_block_shape block v Hb)
      as (qt & opts & ans & exp & -> & Hne & Hqt & Hlen & Hfmt & Hans & Hexp).
    cbn [normalize_loop].
    rewrite (normalize_parsed_question qt exp opts ans Hne Hqt Hlen Hfmt Hans Hexp), ret_bind.
    destruct (IH (out ++ [{| q_question := qt; q_options := map strip opts;
                             q_answer := if truthy ans then ans else VNone;
                             q_explanation := exp |}])%list Hvs')
      as (kept & -> & H1 & H2 & H3 & H4).
    eexists (_ :: kept). rewrite <- app_assoc. split; [reflexivity|].
    cbn [map]. rewrite H1, H2, H3, H4, (parsed_options_dict qt opts ans exp).
    repeat split.
Qed.

(** What the text-block parser returns when it returns something: the
    questions recovered from the blocks, of which there is one at least. *)
Lemma text_path_questions (raw : string) (v : value) :
  _parse_qcm_from_text raw = Some v ->
  v = VDict [("questions", VList (parsed_questions raw))] /\
  parsed_questions raw <> [] /\
  Forall (fun q => exists block, parse_block block = Some q) (parsed_questions raw).
Proof.
  unfold _parse_qcm_from_text, parsed_questions.
  destruct (negb (nonempty raw)); [discriminate|].
  destruct (omap parse_block (split_blocks raw)) as [|v0 vs] eqn:E; [discriminate|].
  intros [= <-]. repeat split; [discriminate|].
  apply Forall_forall. intros x Hx. rewrite <- E in Hx.
  apply list_elem_of_omap in Hx as (block & _ & Hb). eauto.
Qed.

Lemma normalize_questions_list (vs : list value) (kept : list question) :
  normalize_loop vs [] = Ret kept -> kept <> [] ->
  _normalize_qcm (VDict [("questions", VList vs)]) = Ret (Some {| questions := kept |}).
Proof.
  intros Hl Hne. rewrite normalize_entries.
  change (question_entries (VDict [("questions", VList vs)])) with vs.
  destruct vs as [|v0 vs]; [cbn in Hl; by injection Hl as <-|].
  rewrite Hl, ret_bind. by destruct kept.
Qed.

(** ** Positions of a match attempt *)

Lemma str_app_assoc (a b c : string) : (a ++ b) ++ c = a ++ b ++ c.
Proof.
  induction a as [|x a IH]; [reflexivity|].
  change (String x ((a ++ b) ++ c) = String x (a ++ b ++ c)). by rewrite IH.
Qed.

Lemma str_app_length (a b : string) :
  String.length (a ++ b) = (String.length a + String.length b)%nat.
Proof.
  induction a as [|x a IH]; [reflexivity|].
  change (S (String.length (a ++ b)) = S (String.length a + String.length b)).
  by rewrite IH.
Qed.

Lemma later_refl (st : Re.mstate) : later st st.
Proof. exists EmptyString, []. repeat split. cbn. lia. Qed.

Lemma later_trans (a b c : Re.mstate) : later a b -> later b c -> later a c.
Proof.
  intros (m1 & n1 & R1 & P1 & C1) (m2 & n2 & R2 & P2 & C2).
  exists (m1 ++ m2), (n2 ++ n1)%list. repeat split.
  - by rewrite R1, R2, str_app_assoc.
  - rewrite P2, P1, str_app_length. lia.
  - by rewrite C2, C1, app_assoc.
Qed.

Lemma later_advance (x : ascii) (rest : string) (st : Re.mstate) :
  Re.m_rest st = String x rest -> later st (Re.advance x rest st).
Proof.
  intros E. exists (String x EmptyString), []. repeat split; [exact E|].
  cbn. lia.
Qed.

Lemma later_set_cap (i : nat) (span : nat * nat) (st st' : Re.mstate) :
  later st st' -> later st (Re.set_cap i span st').
Proof.
  intros (m & n & R & P & C). exists m, ((i, span) :: n). repeat split; try assumption.
  cbn. by rewrite C.
Qed.

Lemma at_text_later (s : string) (st st' : Re.mstate) :
  at_text s st -> later st st' -> at_text s st'.
Proof.
  intros (pre & -> & Hp) (m & n & R & P & C). exists (pre ++ m). split.
  - by rewrite R, str_app_assoc.
  - rewrite str_app_length, P. lia.
Qed.

Lemma at_text_start (s : string) : at_text s (Re.start_state s).
Proof. by exists EmptyString. Qed.

Lemma step_char_inv (p : ascii -> bool) (st : Re.mstate) (k : Re.cont) (e : Re.mstate) :
  Re.step_char p st k = Some e ->
  exists x rest, Re.m_rest st = String x rest /\ p x = true /\
                 k (Re.advance x rest st) = Some e.
Proof.
  unfold Re.step_char. destruct (Re.m_rest st) as [|x rest]; [discriminate|].
  destruct (p x) eqn:E; [|discriminate]. intros H. by exists x, rest.
Qed.

Lemma or_else_inv (a b : option Re.mstate) (e : Re.mstate) :
  Re.or_else a b = Some e -> a = Some e \/ b = Some e.
Proof. destruct a; cbn; auto. Qed.

Section Attempt.

Variable body : Re.mstate -> Re.cont -> option Re.mstate.
Hypothesis body_later : forall st k e,
  body st k = Some e -> exists st', later st st' /\ k st' = Some e.

Lemma repeat_greedy_later (k : Re.cont) (e : Re.mstate) (n : nat) :
  forall st, Re.repeat_greedy body k n st = Some e ->
  exists st', later st st' /\ k st' = Some e.
Proof using body_later.
  induction n as [|n IH]; intros st; cbn [Re.repeat_greedy].
  - intros H. exists st. split; [apply later_refl|exact H].
  - intros H. apply or_else_inv in H as [H|H].
    + apply body_later in H as (st1 & L1 & H).
      destruct (Re.m_pos st <? Re.m_pos st1)%nat; [|discriminate].
      apply IH in H as (st2 & L2 & H). exists st2. split; [|exact H].
      by apply (later_trans st st1 st2).
    + exists st. split; [apply later_refl|exact H].
Qed.

Lemma repeat_lazy_later (k : Re.cont) (e : Re.mstate) (n : nat) :
  forall st, Re.repeat_lazy body k n st = Some e ->
  exists st', later st st' /\ k st' = Some e.
Proof using body_later.
  induction n as [|n IH]; intros st; cbn [Re.repeat_lazy].
  - intros H. exists st. split; [apply later_refl|exact H].
  - intros H. apply or_else_inv in H as [H|H].
    + exists st. split; [apply later_refl|exact H].
    + apply body_later in H as (st1 & L1 & H).
      destruct (Re.m_pos st <? Re.m_pos st1)%nat; [|discriminate].
      apply IH in H as (st2 & L2 & H). exists st2. split; [|exact H].
      by apply (later_trans st st1 st2).
Qed.

End Attempt.

(** A successful attempt of a pattern ends by calling its continuation at a
    later position of the same text. *)
Lemma rmatch_later (fl : Re.flags) (r : Re.regex) :
  forall st k e, Re.rmatch fl r st k = Some e ->
  exists st', later st st' /\ k st' = Some e.
Proof.
  induction r as [|c|neg items| | | | |r1 IH1 r2 IH2|r1 IH1 r2 IH2|r IH|r IH|r IH|i r IH|r IH];
    intros st k e; cbn [Re.rmatch].
  - intros H. exists st. split; [apply later_refl|exact H].
  - intros H. apply step_char_inv in H as (x & rest & E & _ & H).
    eexists. split; [by apply later_advance|exact H].
  - intros H. apply step_char_inv in H as (x & rest & E & _ & H).
    eexists. split; [by apply later_advance|exact H].
  - intros H. apply step_char_inv in H as (x & rest & E & _ & H).
    eexists. split; [by apply later_advance|exact H].
  - destruct (Re.at_bol fl st); [|discriminate].
    intros H. exists st. split; [apply later_refl|exact H].
  - destruct (Re.at_eol fl st); [|discriminate].
    intros H. exists st. split; [apply later_refl|exact H].
  - destruct (Re.at_word_boundary st); [|discriminate].
    intros H. exists st. split; [apply later_refl|exact H].
  - intros H. apply IH1 in H as (st1 & L1 & H). apply IH2 in H as (st2 & L2 & H).
    exists st2. split; [by apply (later_trans st st1 st2)|exact H].
  - intros H. apply or_else_inv in H as [H|H]; [by apply IH1|by apply IH2].
  - by apply repeat_greedy_later.
  - intros H. apply IH in H as (st1 & L1 & H).
    apply (repeat_greedy_later _ IH) in H as (st2 & L2 & H).
    exists st2. split; [by apply (later_trans st st1 st2)|exact H].
  - intros H. apply IH in H as (st1 & L1 & H).
    apply (repeat_lazy_later _ IH) in H as (st2 & L2 & H).
    exists st2. split; [by apply (later_trans st st1 st2)|exact H].
  - intros H. apply IH in H as (st1 & L1 & H).
    eexists. split; [|exact H]. by apply later_set_cap.
  - destruct (Re.rmatch fl r st Some); [|discriminate].
    intros H. exists st. split; [apply later_refl|exact H].
Qed.

(** A search that succeeds is an attempt that succeeds from a position of
    the text at or after the one the search starts from, with no group
    closed. *)
Lemma search_from_attempt (fl : Re.flags) (r : Re.regex) (s : string) (n : nat) :
  forall st mo, at_text s st ->
  Re.search_from fl r n st = Some mo ->
  exists st0, at_text s st0 /\ Re.m_caps st0 = [] /\
              (Re.m_pos st <= Re.m_pos st0)%nat /\
              Re.mo_start mo = Re.m_pos st0 /\
              Re.rmatch fl r st0 Some = Some (Re.mo_end mo).
Proof.
  induction n as [|n IH]; intros st mo Hat; cbn [Re.search_from].
  - destruct (Re.rmatch fl r (Re.clear_caps st) Some) as [e|] eqn:E.
    + intros [= <-]. exists (Re.clear_caps st). by repeat split.
    + by destruct (Re.m_rest st).
  - destruct (Re.rmatch fl r (Re.clear_caps st) Some) as [e|] eqn:E.
    + intros [= <-]. exists (Re.clear_caps st). by repeat split.
    + destruct (Re.m_rest st) as [|c rest] eqn:Er; [discriminate|].
      intros H. apply IH in H as (st0 & H0 & H1 & H2 & H3 & H4).
      * exists st0. repeat split; try assumption. cbn in H2. lia.
      * apply (at_text_later s st); [exact Hat|by apply later_advance].
Qed.

(** The text of a group closed over one character. *)
Lemma slice_one (s : string) (st : Re.mstate) (x : ascii) (rest : string) :
  at_text s st -> Re.m_rest st = String x rest ->
  slice (Re.m_pos st) (S (Re.m_pos st)) s = String x EmptyString.
Proof.
  intros (pre & -> & <-) ->. unfold slice.
  replace (S (String.length pre) - String.length pre)%nat
    with (String.length (String x EmptyString)) by (cbn; lia).
  exact (substring_middle pre (String x EmptyString) rest).
Qed.

(** ** The answer letter of the text-block parser *)

Lemma rmatch_seq (fl : Re.flags) (r1 r2 : Re.regex) (st : Re.mstate) (k : Re.cont)
    (e : Re.mstate) :
  Re.rmatch fl (Re.RSeq r1 r2) st k = Some e ->
  exists st1, later st st1 /\ Re.rmatch fl r2 st1 k = Some e.
Proof. cbn [Re.rmatch]. apply rmatch_later. Qed.

Lemma set_A_F_nocase (x : ascii) :
  Re.set_matches Re.IGNORECASE false [Re.CRange "A" "F"] x = is_a_f_nocase x.
Proof. destruct x as [[] [] [] [] [] [] [] []]; vm_compute; reflexivity. Qed.

Lemma upper_a_f (x : ascii) :
  is_a_f_nocase x = true ->
  exists y, is_A_F y = true /\ upper (String x EmptyString) = letter_text y.
Proof.
  intros H. exists (match upper (String x EmptyString) with String y _ => y | _ => x end).
  revert H.
  destruct x as [[] [] [] [] [] [] [] []]; vm_compute; intros H; try discriminate H;
    split; reflexivity.
Qed.

(** An attempt of the answer pattern closes group 1 over one letter. *)
Lemma rmatch_answer_letter (st e : Re.mstate) :
  Re.rmatch Re.IGNORECASE re_answer st Some = Some e ->
  exists st4 x rest,
    later st st4 /\ Re.m_rest st4 = String x rest /\ is_a_f_nocase x = true /\
    Re.find_cap 1 (Re.m_caps e) = Some (Re.m_pos st4, S (Re.m_pos st4)).
Proof.
  unfold re_answer. cbn [Re.seq]. intros H.
  apply rmatch_seq in H as (st1 & L1 & H). apply rmatch_seq in H as (st2 & L2 & H).
  apply rmatch_seq in H as (st3 & L3 & H). apply rmatch_seq in H as (st4 & L4 & H).
  cbn [Re.rmatch] in H. unfold re_A_F, set_of in H.
  apply step_char_inv in H as (x & rest & E & Hx & H).
  rewrite set_A_F_nocase in Hx.
  destruct (Re.at_word_boundary _); [|discriminate]. injection H as <-.
  exists st4, x, rest. repeat split; try assumption.
  eauto using later_trans.
Qed.

Lemma search_answer_letter (s : string) (mo : Re.rmatch_obj) :
  Re.re_search Re.IGNORECASE re_answer s = Some mo ->
  exists y, is_A_F y = true /\ upper (Re.group_str s mo 1) = letter_text y.
Proof.
  unfold Re.re_search. intros H.
  apply (search_from_attempt _ _ s) in H as (st0 & H0 & _ & _ & _ & H);
    [|apply at_text_start].
  apply rmatch_answer_letter in H as (st4 & x & rest & L & E & Hx & Hcap).
  unfold Re.group_str, Re.group. rewrite Hcap. cbn [default].
  rewrite (slice_one s st4 x rest); [by apply upper_a_f|by apply (at_text_later s st0)|exact E].
Qed.

Lemma parse_block_answer (block : string) (v : value) :
  parse_block block = Some v -> letter_answer (parsed_answer v).
Proof.
  unfold parse_block.
  destruct (Re.re_match flags_I_S re_block_head block) as [m|]; [|discriminate].
  destruct (block_options _) as [[qt opts]|]; [|discriminate].
  intros [= <-]. unfold parsed_answer, question_dict, dict_get.
  cbn [assoc String.eqb Ascii.eqb Bool.eqb default].
  destruct (Re.re_search Re.IGNORECASE re_answer _) as [mo|] eqn:E; [|by left].
  right. destruct (search_answer_letter _ _ E) as (y & Hy & ->). eauto.
Qed.

(** The resolver on a letter answer. *)
Lemma answer_to_index_letter (ans : value) (options : list string) :
  letter_answer ans ->
  _answer_to_index ans options = Ret (letter_index ans (Z.of_nat (length options))).
Proof.
  intros [->|(x & Hx & ->)]; [reflexivity|].
  pose proof (answer_to_index_cases (VStr (letter_text x)) options) as H.
  cbn zeta in H. rewrite H. clear H. revert Hx.
  destruct x as [[] [] [] [] [] [] [] []]; vm_compute; intros Hx; try discriminate Hx;
    reflexivity.
Qed.

(** ** The text path as a whole *)

(** X2: when the text-block parser recovers questions from a raw text, the
    post-filter of the normalizer returns on them without raising and keeps
    every one of them, in order, with its text, its explanation and its
    answer letter; the options are kept too, each trimmed once more. *)
Theorem text_path_keeps_parsed (raw : string) (v : value) :
  _parse_qcm_from_text raw = Some v ->
  exists quiz,
    _normalize_qcm v = Ret (Some quiz) /\
    map q_question (questions quiz) = map parsed_text (parsed_questions raw) /\
    map q_explanation (questions quiz) = map parsed_explanation (parsed_questions raw) /\
    map q_options (questions quiz) =
      map (fun v => map strip (parsed_options v)) (parsed_questions raw) /\
    map q_answer (questions quiz) =
      map (fun v => if truthy (parsed_answer v) then parsed_answer v else VNone)
          (parsed_questions raw).
Proof.
  intros H. destruct (text_path_questions raw v H) as (-> & Hne & Hall).
  destruct (normalize_loop_parsed (parsed_questions raw) [] Hall)
    as (kept & Hl & H1 & H2 & H3 & H4).
  cbn [app] in Hl. exists {| questions := kept |}. split; [|by cbn [questions]].
  apply normalize_questions_list; [exact Hl|].
  intros ->. destruct (parsed_questions raw); [by apply Hne|discriminate H1].
Qed.

Lemma text_path_keeps_parsed_witness :
  exists quiz,
    _normalize_qcm (VDict [("questions", VList (parsed_questions sample_text))])
      = Ret (Some quiz) /\
    map q_question (questions quiz) = ["What is 2+2?"].
Proof.
  destruct (text_path_keeps_parsed sample_text
              (VDict [("questions", VList (parsed_questions sample_text))]))
    as (quiz & Hn & Hq & _).
  { vm_compute. reflexivity. }
  exists quiz. split; [exact Hn|]. rewrite Hq. vm_compute. reflexivity.
Defined.

Lemma parsed_answers_kept (vs : list value) (kept : list question) :
  Forall (fun v => letter_answer (parsed_answer v)) vs ->
  map q_answer kept =
    map (fun v => if truthy (parsed_answer v) then parsed_answer v else VNone) vs ->
  Forall (fun q => letter_answer (q_answer q)) kept.
Proof.
  revert kept. induction vs as [|v vs IH]; intros [|q kept] Hall; try discriminate.
  - constructor.
  - inversion Hall as [|? ? Hv Hvs]; subst. cbn [map]. intros [= Hq Hk].
    constructor; [|by apply IH]. rewrite Hq.
    destruct Hv as [->|(x & Hx & ->)]; [by left|]. right. by exists x.
Qed.

Lemma text_path_letters (raw : string) (v : value) :
  _parse_qcm_from_text raw = Some v ->
  exists quiz,
    _normalize_qcm v = Ret (Some quiz) /\
    Forall (fun q => letter_answer (q_answer q)) (questions quiz).
Proof.
  intros H. destruct (text_path_questions raw v H) as (-> & Hne & Hall).
  destruct (normalize_loop_parsed (parsed_questions raw) [] Hall)
    as (kept & Hl & H1 & _ & _ & H4).
  cbn [app] in Hl. exists {| questions := kept |}. split.
  - apply normalize_questions_list; [exact Hl|].
    intros ->. destruct (parsed_questions raw); [by apply Hne|discriminate H1].
  - cbn [questions].
    apply (parsed_answers_kept (parsed_questions raw)); [|exact H4].
    eapply Forall_impl; [exact Hall|]. intros q (block & Hb).
    by apply (parse_block_answer block).
Qed.

(** X3: in a quiz that comes from the text-block parser, the answer of each
    question is absent or one upper-case letter A-F, and the answer resolver
    returns on it without raising: the position of the letter when it is
    below the number of options, unknown otherwise. *)
Theorem text_path_answers_resolve (raw : string) (v : value) :
  _parse_qcm_from_text raw = Some v ->
  exists quiz,
    _normalize_qcm v = Ret (Some quiz) /\
    Forall (fun q =>
              letter_answer (q_answer q) /\
              _answer_to_index (q_answer q) (q_options q) =
                Ret (letter_index (q_answer q) (Z.of_nat (length (q_options q)))))
           (questions quiz).
Proof.
  intros H. destruct (text_path_letters raw v H) as (quiz & Hn & Hans).
  exists quiz. split; [exact Hn|].
  eapply Forall_impl; [exact Hans|]. intros q Hq. split; [exact Hq|].
  by apply answer_to_index_letter.
Qed.

Lemma text_path_answers_resolve_witness :
  exists quiz,
    _normalize_qcm (VDict [("questions", VList (parsed_questions sample_text))])
      = Ret (Some quiz) /\
    Forall (fun q => _answer_to_index (q_answer q) (q_options q) =
                     Ret (letter_index (q_answer q) (Z.of_nat (length (q_options q)))))
           (questions quiz).
Proof.
  destruct (text_path_answers_resolve sample_text
              (VDict [("questions", VList (parsed_questions sample_text))]))
    as (quiz & Hn & Hq).
  { vm_compute. reflexivity. }
  exists quiz. split; [exact Hn|].
  eapply Forall_impl; [exact Hq|]. by intros q [_ Hr].
Defined.

(** ** Invariants of the quiz session *)

Section SessionInvariants.

Variable json_loads : string -> option value.

Lemma data_render (st : app_state) :
  qcm_data (fst (qcm_render_question st)) = qcm_data st.
Proof. pose proof (session_render st) as H. unfold session in H. by injection H. Qed.

Lemma data_save_choice (st : app_state) : qcm_data (qcm_save_choice st) = qcm_data st.
Proof. apply save_choice_rest. Qed.

(** An action keeps the stored quiz or replaces it by one that the
    normalizer returned. *)
Lemma data_perform (a : action) (st : app_state) :
  qcm_data (perform json_loads a st) = qcm_data st \/
  exists v data, _normalize_qcm v = Ret (Some data) /\
                 qcm_data (perform json_loads a st) = Some data.
Proof.
  destruct a as [env|i| | |]; cbn [perform].
  - destruct (generate_session_cases json_loads env st)
      as [[Hs _]|(raw & data & _ & _ & _ & _ & _ & _ & _ & _ & Hq & Hs & _)].
    + left. unfold session in Hs. by injection Hs.
    + right. unfold session in Hs. injection Hs as Hd _ _.
      unfold quiz_of_raw, from_json, from_text in Hq.
      destruct (_normalize_qcm (default VNone (_extract_json_obj json_loads raw)))
        as [[d|]|] eqn:Hj; try discriminate.
      * injection Hq as ->. eauto.
      * destruct (_normalize_qcm (default VNone (_parse_qcm_from_text raw)))
          as [[d|]|] eqn:Hx; try discriminate.
        injection Hq as ->. eauto.
  - left. unfold click_choice. destruct (_ <? _)%nat; [|reflexivity].
    by rewrite data_save_choice.
  - left. unfold qcm_prev. destruct (qcm_data st) eqn:E; [|exact E].
    rewrite data_render. destruct (0 <? _); cbn; by rewrite data_save_choice.
  - left. unfold qcm_next. destruct (qcm_data st) eqn:E; [|exact E].
    rewrite data_render. destruct (_ <? _); cbn; by rewrite data_save_choice.
  - left. unfold qcm_finish. destruct (qcm_data st) eqn:E; [|exact E].
    destruct (finish_loop _ _ _ _ _) as [[score lines]|e]; cbn;
      by rewrite data_save_choice.
Qed.

(** X4: in every state reached from the start of the application by
    generating quizzes, clicking options, [qcm_prev], [qcm_next] and
    [qcm_finish], the stored quiz (if any) has one question at least, and
    each of its questions has a trimmed, non-empty text and two non-empty
    options at least. *)
Theorem stored_quiz_ok (st : app_state) (data : quiz) :
  reachable json_loads st -> qcm_data st = Some data -> quiz_ok data.
Proof.
  intros Hr. revert data. induction Hr as [|st a Hr IH]; intros data; [discriminate|].
  destruct (data_perform a st) as [->|(v & d & Hv & ->)]; [apply IH|].
  intros [= <-]. split; [by apply (normalize_nonempty v)|].
  revert Hv. rewrite normalize_entries.
  destruct (question_entries v) as [|q qs]; [discriminate|].
  destruct (normalize_loop (q :: qs) []) as [out|] eqn:Hl; [|discriminate].
  rewrite ret_bind. destruct out as [|x out]; [discriminate|]. intros [= <-].
  by apply (normalize_loop_ok (q :: qs) [] (x :: out)).
Qed.

(** X5: in every reachable state the display agrees with the session: the
    options shown are those of the question at the current index, which is
    an index of the stored quiz; the selection shown is the answer recorded
    for that question, [-1] when there is none; every recorded answer is an
    option index of the question it is recorded for; without a stored quiz
    nothing is shown and nothing is recorded.  There [qcm_prev] and
    [qcm_next] return without raising. *)
Theorem reachable_consistent (st : app_state) :
  reachable json_loads st ->
  consistent st /\ snd (qcm_prev st) = None /\ snd (qcm_next st) = None.
Proof.
  intros Hr. pose proof (reachable_ok json_loads st Hr) as [Hs Hsel Hn].
  split; [split; [exact Hsel|]|].
  - unfold current_shown in Hs. unfold answers_in_range in Hn.
    destruct (qcm_data st) as [data|] eqn:Hd.
    + split; [exact Hs|]. intros k v Hkv.
      destruct (Hn k v Hkv) as (data' & q & [= <-] & H). by exists q.
    + split; [exact Hs|]. apply map_eq. intros k. rewrite lookup_empty.
      destruct (qcm_user_answers st !! k) as [v|] eqn:E; [|reflexivity].
      by destruct (Hn k v E) as (data' & q & [=] & _).
  - destruct (qcm_data st) as [data|] eqn:Hd.
    + assert (Hl : loaded st data) by (by apply shown_index_in_range).
      destruct (prev_loaded st data Hl) as (q & st' & _ & -> & _).
      by destruct (next_loaded st data Hl) as (q' & st'' & _ & -> & _).
    + unfold qcm_prev, qcm_next. by rewrite Hd.
Qed.

End SessionInvariants.

Lemma stored_quiz_ok_witness : quiz_ok sample_quiz.
Proof.
  apply (stored_quiz_ok json_loads_model sample_session sample_quiz).
  - apply reachable_run.
  - vm_compute. reflexivity.
Defined.

Lemma reachable_consistent_witness :
  consistent (run json_loads_model sample_run) /\
  qcm_index (run json_loads_model sample_run) = 1.
Proof.
  split; [|vm_compute; reflexivity].
  apply (reachable_consistent json_loads_model), reachable_run.
Defined.

(** ** The buttons of the quiz tab *)

Section Buttons.

Variable json_loads : string -> option value.

Lemma buttons_off_disabled (st : app_state) : buttons_ok (_set_qcm_enabled false st).
Proof. left. unfold _set_qcm_enabled. by destruct (qcm_data st). Qed.

Lemma buttons_on_enabled (st : app_state) (data : quiz) :
  qcm_data st = Some data -> buttons_ok (_set_qcm_enabled true st).
Proof.
  intros Hd. right. exists data. unfold _set_qcm_enabled. rewrite Hd. by cbn.
Qed.

Lemma buttons_ok_ext (st st' : app_state) :
  qcm_data st' = qcm_data st -> qcm_index st' = qcm_index st ->
  btn_prev st' = btn_prev st -> btn_next st' = btn_next st ->
  btn_finish st' = btn_finish st ->
  buttons_ok st -> buttons_ok st'.
Proof.
  intros Hd Hi Hp Hn Hf [(H1 & H2 & H3)|(data & Hdata & H1 & H2 & H3)].
  - left. unfold buttons_off. by rewrite Hp, Hn, Hf.
  - right. exists data. by rewrite Hd, Hi, Hp, Hn, Hf.
Qed.

Lemma buttons_render (st : app_state) (data : quiz) :
  qcm_data st = Some data -> snd (qcm_render_question st) = None ->
  buttons_ok (fst (qcm_render_question st)).
Proof.
  unfold qcm_render_question. intros Hd. rewrite Hd.
  destruct (py_index _ _) as [q|e]; [|discriminate]. intros _. cbn [fst].
  by apply (buttons_on_enabled _ data).
Qed.

Lemma buttons_save_choice (st : app_state) :
  buttons_ok st -> buttons_ok (qcm_save_choice st).
Proof.
  apply buttons_ok_ext; unfold qcm_save_choice; by destruct (0 <=? qcm_choice_var st).
Qed.

Lemma buttons_generate_failed (e : exn) (st : app_state) :
  buttons_ok (fst (generate_failed e st)).
Proof. apply buttons_off_disabled. Qed.

Lemma buttons_install (data : quiz) (st : app_state) :
  buttons_ok (fst (install_quiz data st)).
Proof.
  unfold install_quiz. set (st1 := _set_qcm_enabled true _).
  assert (Hd : qcm_data st1 = Some data) by (unfold st1; by rewrite data_set_enabled).
  destruct (snd (qcm_render_question st1)) as [e|] eqn:E;
    [apply buttons_generate_failed|].
  cbn [fst]. apply (buttons_ok_ext (fst (qcm_render_question st1))); try reflexivity.
  by apply (buttons_render st1 data).
Qed.

Lemma buttons_generate (env : gen_env) (st : app_state) :
  buttons_ok st -> buttons_ok (fst (gui_generate_qcm json_loads env st)).
Proof.
  intros Hok. unfold gui_generate_qcm. cbn zeta.
  destruct (negb (nonempty _)); [exact Hok|].
  destruct (negb (path_exists env)); [exact Hok|].
  destruct (file_read env) as [text|e]; [|apply buttons_generate_failed].
  destruct (negb (nonempty (strip text))); [exact Hok|].
  destruct (n_value env) as [n|e]; [|apply buttons_generate_failed].
  destruct (generate_qcm_quiz (proc env)) as [raw|e]; [|apply buttons_generate_failed].
  destruct (_normalize_qcm (default VNone (_extract_json_obj json_loads raw)))
    as [[data|]|e]; [apply buttons_install| |apply buttons_generate_failed].
  destruct (_normalize_qcm (default VNone (_parse_qcm_from_text raw)))
    as [[data|]|e]; [apply buttons_install|apply buttons_generate_failed..].
Qed.

Lemma buttons_perform (a : action) (st : app_state) :
  session_ok st -> buttons_ok st -> buttons_ok (perform json_loads a st).
Proof.
  intros Hok Hb. destruct a as [env|i| | |]; cbn [perform].
  - by apply buttons_generate.
  - unfold click_choice. destruct (_ <? _)%nat; [|exact Hb].
    apply buttons_save_choice. revert Hb. by apply buttons_ok_ext.
  - destruct (qcm_data st) as [data|] eqn:Hd; [|unfold qcm_prev; by rewrite Hd].
    assert (Hl : loaded st data) by (apply shown_index_in_range; [apply Hok|exact Hd]).
    destruct (prev_loaded st data Hl) as (q & st' & _ & Hp & _).
    revert Hp. unfold qcm_prev. rewrite Hd. intros Hp.
    apply (buttons_render _ data); [|by rewrite Hp].
    destruct (0 <? _); cbn; by rewrite data_save_choice.
  - destruct (qcm_data st) as [data|] eqn:Hd; [|unfold qcm_next; by rewrite Hd].
    assert (Hl : loaded st data) by (apply shown_index_in_range; [apply Hok|exact Hd]).
    destruct (next_loaded st data Hl) as (q & st' & _ & Hp & _).
    revert Hp. unfold qcm_next. rewrite Hd. intros Hp.
    apply (buttons_render _ data); [|by rewrite Hp].
    destruct (_ <? _); cbn; by rewrite data_save_choice.
  - unfold qcm_finish. destruct (qcm_data st) as [data|] eqn:Hd; [|exact Hb].
    destruct (finish_loop _ _ _ _ _) as [[score lines]|e]; cbn [fst].
    + apply (buttons_ok_ext (qcm_save_choice st)); try reflexivity.
      by apply buttons_save_choice.
    + by apply buttons_save_choice.
Qed.

Lemma reachable_buttons (st : app_state) : reachable json_loads st -> buttons_ok st.
Proof.
  induction 1 as [|st a Hr IH]; [by left|].
  apply buttons_perform; [by apply (reachable_ok json_loads)|exact IH].
Qed.

(** X6: in every reachable state the buttons of the quiz tab are all
    disabled or set for the question shown; an enabled [Précédent] button
    moves to the question before and an enabled [Suivant] button to the
    question after, and [Terminer] is enabled only with a stored quiz. *)
Theorem enabled_buttons_move (st : app_state) :
  reachable json_loads st ->
  buttons_ok st /\
  (btn_prev st = true -> qcm_index (fst (qcm_prev st)) = qcm_index st - 1) /\
  (btn_next st = true -> qcm_index (fst (qcm_next st)) = qcm_index st + 1) /\
  (btn_finish st = true -> exists data, loaded st data).
Proof.
  intros Hr. pose proof (reachable_buttons st Hr) as Hb.
  pose proof (reachable_ok json_loads st Hr) as Hok.
  split; [exact Hb|].
  destruct Hb as [(H1 & H2 & H3)|(data & Hd & H1 & H2 & H3)].
  - rewrite H1, H2, H3. by repeat split.
  - assert (Hl : loaded st data) by (apply shown_index_in_range; [apply Hok|exact Hd]).
    destruct (prev_loaded st data Hl) as (q & stp & _ & Hp & Hs & _).
    destruct (next_loaded st data Hl) as (q' & stn & _ & Hn & Hs' & _).
    unfold session in Hs, Hs'. injection Hs as _ Hip _. injection Hs' as _ Hin _.
    rewrite Hp, Hn. cbn [fst]. rewrite Hip, Hin, H1, H2.
    unfold prev_index, next_index. repeat split.
    + intros Hz. apply negb_true_iff, Z.eqb_neq in Hz.
      destruct Hl as [_ Hi]. destruct (Z.ltb_spec 0 (qcm_index st)); lia.
    + by intros ->.
    + intros _. by exists data.
Qed.

End Buttons.

Lemma enabled_buttons_move_witness :
  btn_next sample_session = true /\
  qcm_index (fst (qcm_next sample_session)) = qcm_index sample_session + 1.
Proof.
  split; [vm_compute; reflexivity|].
  apply (enabled_buttons_move json_loads_model sample_session); [apply reachable_run|].
  vm_compute. reflexivity.
Defined.

(** ** The outcome of [qcm_finish] *)

Lemma answer_to_index_raises (answer : value) (options : list string) (e : exn) :
  _answer_to_index answer options = Raise e -> e = ValueError.
Proof.
  pose proof (answer_to_index_cases answer options) as H. cbn zeta in H. rewrite H.
  assert (Ht : forall t n, resolve_text t n = Raise e -> e = ValueError).
  { intros t n. unfold resolve_text. destruct (negb (nonempty t)); [discriminate|].
    destruct (first_standalone_letter (upper t)); [discriminate|].
    destruct (isdigit t); [|discriminate].
    destruct (int_digits 0 t); [discriminate|]. by intros [= <-]. }
  destruct answer as [|b|z|nz t|s|l|d]; cbn [as_int]; try discriminate; try apply Ht.
  all: try (destruct (as_int _); [discriminate|apply Ht]).
Qed.

(** One question of [qcm_finish], whether the resolver returns on it or
    not. *)
Lemma finish_question_cases (answers : gmap Z Z) (idx : Z) (q : question) :
  (forall u, answers !! idx = Some u -> 0 <= u < Z.of_nat (length (q_options q))) ->
  (resolves q /\
   exists line, finish_question answers idx q = Ret (is_correct answers idx q, line) /\
                c_number line = idx + 1 /\ c_question line = q_question q) \/
  (~ resolves q /\ finish_question answers idx q = Raise ValueError).
Proof.
  intros Hu.
  destruct (_answer_to_index (q_answer q) (q_options q)) as [r|e] eqn:Hr.
  - left. assert (Hres : resolves q) by (by exists r). split; [exact Hres|].
    destruct (finish_question_resolved answers idx q Hres Hu) as (line & Hl & _).
    exists line. split; [exact Hl|].
    revert Hl. unfold finish_question. rewrite Hr, ret_bind.
    destruct (match answers !! idx with
              | Some u => x ← py_index (q_options q) u; Ret (Some x)
              | None => Ret None
              end) as [chosen|]; [|discriminate].
    rewrite ret_bind.
    destruct (match r with
              | Some c => x ← py_index (q_options q) c; Ret (Some x)
              | None => Ret None
              end) as [correct|]; [|discriminate].
    rewrite ret_bind. by intros [= _ <-].
  - right. split.
    + intros [r Hr']. congruence.
    + unfold finish_question. rewrite Hr.
      by rewrite (answer_to_index_raises _ _ _ Hr).
Qed.

Lemma finish_loop_cases (answers : gmap Z Z) (qs : list question) :
  forall (idx score : Z) (lines : list correction),
  (forall (k : nat) q u, qs !! k = Some q -> answers !! (idx + Z.of_nat k) = Some u ->
      0 <= u < Z.of_nat (length (q_options q))) ->
  (Forall resolves qs /\
   exists new,
     finish_loop answers idx qs score lines =
       Ret (score + count_correct answers idx qs, lines ++ new)%list /\
     map c_number new = numbers_from idx (length qs) /\
     map c_question new = map q_question qs) \/
  (Exists (fun q => ~ resolves q) qs /\
   finish_loop answers idx qs score lines = Raise ValueError).
Proof.
  induction qs as [|q qs IH]; intros idx score lines Hrange.
  - left. split; [constructor|]. exists []. cbn. by rewrite Z.add_0_r, app_nil_r.
  - cbn [finish_loop].
    destruct (finish_question_cases answers idx q) as [(Hres & line & Hq & Hn & Ht)|[Hres Hq]].
    { intros u Hu. apply (Hrange 0%nat q u); [done|]. by rewrite Z.add_0_r. }
    + rewrite Hq, ret_bind.
      destruct (IH (idx + 1) (if is_correct answers idx q then score + 1 else score)
                   (lines ++ [line])%list) as [(Hall & new & Hl & Hnum & Htxt)|[Hex Hl]].
      { intros k q' u Hk Hu. apply (Hrange (S k) q' u); [done|].
        by replace (idx + Z.of_nat (S k)) with (idx + 1 + Z.of_nat k) by lia. }
      * left. split; [by constructor|]. exists (line :: new). rewrite Hl.
        split; [|split].
        -- rewrite <- app_assoc. cbn [app count_correct]. do 2 f_equal.
           destruct (is_correct answers idx q); cbn [Z.b2z]; lia.
        -- cbn [map length numbers_from]. by rewrite Hn, Hnum.
        -- cbn [map]. by rewrite Ht, Htxt.
      * right. split; [by apply Exists_cons_tl|exact Hl].
    + right. split; [by apply Exists_cons_hd|]. by rewrite Hq.
Qed.

Section FinishOutcome.

Variable json_loads : string -> option value.

(** X7: in a reachable state with a stored quiz, [qcm_finish] either
    returns, and then the resolver returns on every question, the status is
    the score out of the number of questions, the score is the number of
    correct questions and lies between 0 and that number, the corrections
    are one per question, numbered from 1 in order with the question texts,
    and the session is as before; or it raises [ValueError], and then the
    resolver raises on some question and the state is left as it was. *)
Theorem finish_all_or_nothing (st : app_state) (data : quiz) :
  reachable json_loads st -> qcm_data st = Some data ->
  let qs := questions data in
  let total := Z.of_nat (length qs) in
  (Forall resolves qs /\
   exists score lines,
     qcm_finish st =
       (set_correction (Some lines) (set_status (StatusFinished score total) st), None) /\
     score = count_correct (qcm_user_answers st) 0 qs /\ 0 <= score <= total /\
     map c_number lines = numbers_from 0 (length qs) /\
     map c_question lines = map q_question qs) \/
  (Exists (fun q => ~ resolves q) qs /\ qcm_finish st = (st, Some ValueError)).
Proof.
  intros Hr Hd. cbn zeta. pose proof (reachable_ok json_loads st Hr) as Hok.
  unfold qcm_finish. rewrite Hd.
  rewrite (save_choice_recorded st (ok_selection st Hok)).
  destruct (finish_loop_cases (qcm_user_answers st) (questions data) 0 0 [])
    as [(Hall & new & Hl & Hnum & Htxt)|[Hex Hl]].
  { intros k q u Hk Hu.
    destruct (ok_answers st Hok _ _ Hu) as (data' & q' & Hd' & _ & Hq' & Hrange).
    rewrite Hd in Hd'. injection Hd' as <-.
    rewrite Z.add_0_l, Nat2Z.id, Hk in Hq'. by injection Hq' as <-. }
  - left. split; [exact Hall|]. rewrite Hl. cbn [app]. rewrite Z.add_0_l.
    exists (count_correct (qcm_user_answers st) 0 (questions data)), new.
    repeat split; try assumption; apply count_correct_bounds.
  - right. split; [exact Hex|]. by rewrite Hl.
Qed.

End FinishOutcome.

Lemma finish_all_or_nothing_witness :
  (Forall resolves (questions sample_quiz) /\
   exists score lines,
     qcm_finish sample_session =
       (set_correction (Some lines) (set_status (StatusFinished score 3) sample_session),
        None) /\
     score = count_correct (qcm_user_answers sample_session) 0 (questions sample_quiz) /\
     0 <= score <= 3 /\
     map c_number lines = [1; 2; 3] /\
     map c_question lines = ["Q1?"; "Q2?"; "Q3?"]) \/
  (Exists (fun q => ~ resolves q) (questions sample_quiz) /\
   qcm_finish sample_session = (sample_session, Some ValueError)).
Proof.
  apply (finish_all_or_nothing json_loads_model sample_session sample_quiz).
  - apply reachable_run.
  - vm_compute. reflexivity.
Defined.

(** ** Going to the next question and back *)

Section RoundTrip.

Variable json_loads : string -> option value.

Lemma saved_recorded (st : app_state) :
  session_ok st -> nonneg_selection_saved st = qcm_user_answers st.
Proof.
  intros Hok. by rewrite <- save_choice_answers, (save_choice_recorded st (ok_selection st Hok)).
Qed.

Lemma click_session (st : app_state) (j : nat) :
  (j < length (qcm_choices st))%nat ->
  session (click_choice j st) =
    (qcm_data st, qcm_index st, <[qcm_index st := Z.of_nat j]> (qcm_user_answers st)) /\
  display (click_choice j st) = (Z.of_nat j, qcm_choices st).
Proof.
  intros Hj. unfold click_choice.
  destruct (Nat.ltb_spec j (length (qcm_choices st))); [|lia].
  unfold qcm_save_choice. cbn [set_choice qcm_choice_var].
  destruct (Z.leb_spec 0 (Z.of_nat j)); [|lia]. by split.
Qed.

(** X8: in a reachable state showing a question that is not the last one,
    selecting an option, going to the next question and coming back shows
    the same question with the same options and with the option selected;
    the answers recorded are those of before with that selection added. *)
Theorem click_next_prev (st : app_state) (data : quiz) (j : nat) :
  reachable json_loads st -> qcm_data st = Some data ->
  qcm_index st < Z.of_nat (length (questions data)) - 1 ->
  (j < length (qcm_choices st))%nat ->
  let st' := fst (qcm_prev (fst (qcm_next (click_choice j st)))) in
  session st' =
    (Some data, qcm_index st, <[qcm_index st := Z.of_nat j]> (qcm_user_answers st)) /\
  display st' = (Z.of_nat j, qcm_choices st).
Proof.
  intros Hr Hd Hlast Hj. cbn zeta.
  pose proof (reachable_ok json_loads st Hr) as Hok.
  destruct (click_session st j Hj) as [Hs1 _].
  pose proof (session_ok_click j st Hok) as Hok1.
  set (st1 := click_choice j st) in *.
  unfold session in Hs1. injection Hs1 as Hd1 Hi1 Ha1. rewrite Hd in Hd1.
  assert (Hl1 : loaded st1 data) by (apply shown_index_in_range; [apply Hok1|exact Hd1]).
  destruct (next_loaded st1 data Hl1) as (q2 & st2 & _ & Hn & Hs2 & _).
  pose proof (session_ok_next st1 Hok1) as Hok2. rewrite Hn in *. cbn [fst] in *.
  rewrite (saved_recorded st1 Hok1) in Hs2.
  unfold session in Hs2. injection Hs2 as Hd2 Hi2 Ha2.
  assert (Hl2 : loaded st2 data) by (apply shown_index_in_range; [apply Hok2|exact Hd2]).
  destruct (prev_loaded st2 data Hl2) as (q3 & st3 & Hq3 & Hp & Hs3 & Hdis3).
  rewrite Hp. cbn [fst]. rewrite (saved_recorded st2 Hok2) in Hs3, Hdis3.
  assert (Hback : prev_index (qcm_index st2) = qcm_index st).
  { rewrite Hi2, Hi1. unfold next_index, prev_index.
    destruct (shown_index_in_range st data (ok_shown st Hok) Hd) as [_ Hi].
    destruct (Z.ltb_spec (qcm_index st) (Z.of_nat (length (questions data)) - 1)); [|lia].
    destruct (Z.ltb_spec 0 (qcm_index st + 1)); lia. }
  rewrite Hback in Hs3, Hdis3, Hq3. rewrite Ha2, Ha1 in Hs3, Hdis3.
  split; [exact Hs3|]. rewrite Hdis3, lookup_insert_eq. cbn [default]. f_equal.
  pose proof (ok_shown st Hok) as Hshown. unfold current_shown in Hshown.
  rewrite Hd in Hshown. destruct Hshown as (q & _ & Hq & ->). congruence.
Qed.

End RoundTrip.

Lemma click_next_prev_witness :
  display (fst (qcm_prev (fst (qcm_next (click_choice 2 sample_session)))))
  = (2, ["a"; "b"; "c"]).
Proof.
  apply (click_next_prev json_loads_model sample_session sample_quiz 2).
  - apply reachable_run.
  - vm_compute. reflexivity.
  - vm_compute. reflexivity.
  - vm_compute. lia.
Defined.

(** ** Texts without a question line *)

Lemma line_start_lstrip (p : ascii -> bool) (s : string) (x : ascii) (r : string) :
  lstrip s = String x r -> p x = true -> line_start p true s = true.
Proof.
  induction s as [|c s IH]; [discriminate|]. cbn [lstrip line_start].
  destruct (is_space c) eqn:Hc.
  - intros Hs Hx. rewrite andb_true_r, orb_true_r. rewrite (IH Hs Hx). apply orb_true_r.
  - intros [= -> ->] ->. reflexivity.
Qed.

Lemma rstrip_cons (s : string) (x : ascii) (r : string) :
  rstrip s = String x r -> exists r', s = String x r'.
Proof.
  destruct s as [|c s]; [discriminate|]. cbn [rstrip].
  destruct (rstrip s); [destruct (is_space c); [discriminate|]|]; intros [= -> _]; eauto.
Qed.

Lemma line_start_strip (p : ascii -> bool) (s : string) (x : ascii) (r : string) :
  strip s = String x r -> p x = true -> line_start p true s = true.
Proof.
  unfold strip. intros Hs Hx. apply rstrip_cons in Hs as [r' Hs].
  by apply (line_start_lstrip p s x r').
Qed.

Lemma line_start_at (p : ascii -> bool) (s : string) (st : Re.mstate) (y : ascii)
    (r : string) (fresh : bool) :
  at_text s st -> Re.m_rest st = String Re.newline (String y r) -> p y = true ->
  line_start p fresh s = true.
Proof.
  intros (pre & -> & _) -> Hy. clear st. revert fresh.
  induction pre as [|c pre IH]; intros fresh.
  - change (line_start p fresh (String Re.newline (String y r)) = true).
    cbn [line_start]. rewrite Hy. cbn. by rewrite !orb_true_r.
  - change (line_start p fresh (String c (pre ++ String Re.newline (String y r))) = true).
    cbn [line_start]. rewrite IH. apply orb_true_r.
Qed.

(** A separator of the blocks is a line feed before the letter Q. *)
Lemma rmatch_block_split (st e : Re.mstate) :
  Re.rmatch Re.no_flags re_block_split st Some = Some e ->
  exists y r, Re.m_rest st = String Re.newline (String y r) /\ is_Q y = true.
Proof.
  unfold re_block_split. cbn [Re.seq Re.rmatch]. intros H.
  apply step_char_inv in H as (x & rest & E & Hx & H).
  unfold Re.char_matches in Hx. cbn [Re.ignorecase Re.no_flags] in Hx.
  apply Ascii.eqb_eq in Hx as ->.
  destruct (Re.step_char _ _ _) as [e'|] eqn:E'; [|discriminate].
  apply step_char_inv in E' as (y & r & Ey & Hy & _).
  cbn [Re.advance Re.m_rest] in Ey. subst rest. exists y, r. split; [exact E|].
  unfold Re.char_matches in Hy. cbn [Re.ignorecase Re.no_flags] in Hy.
  by apply Ascii.eqb_eq in Hy as ->.
Qed.

Lemma substring_all (s : string) : String.substring 0 (String.length s) s = s.
Proof. induction s as [|c s IH]; [reflexivity|]. cbn. by rewrite IH. Qed.

Lemma split_no_separator (s : string) :
  line_start is_Q false s = false ->
  Re.re_split Re.no_flags re_block_split s = [s].
Proof.
  intros Hfree. unfold Re.re_split, Re.re_finditer. cbn [Re.matches_from].
  destruct (Re.search_from _ _ _ _) as [mo|] eqn:E.
  - apply (search_from_attempt _ _ s) in E as (st0 & Hat & _ & _ & _ & E);
      [|apply at_text_start].
    apply rmatch_block_split in E as (y & r & Er & Hy).
    by rewrite (line_start_at is_Q s st0 y r false Hat Er Hy) in Hfree.
  - cbn [Re.split_at]. unfold slice. by rewrite Nat.sub_0_r, substring_all.
Qed.

(** A block the parser accepts starts with the letter Q. *)
Lemma block_head_Q (block : string) (m : Re.rmatch_obj) :
  Re.re_match flags_I_S re_block_head block = Some m ->
  exists x r, block = String x r /\ is_Q x = true.
Proof.
  unfold Re.re_match.
  destruct (Re.rmatch _ _ _ _) as [e|] eqn:E; [|discriminate]. intros _.
  unfold re_block_head in E. cbn [Re.seq Re.rmatch] in E.
  apply step_char_inv in E as (x & r & Er & Hx & _).
  cbn [Re.start_state Re.m_rest] in Er. by exists x, r.
Qed.

(** X9: a text in which no line has the letter Q (in either case) as its
    first character that is not white space yields no quiz from the
    text-block parser.  Such is an answer in the layout shown by the prompt
    itself, where the question lines start with a dash. *)
Theorem no_question_line_no_quiz (raw : string) :
  line_start is_Q true (block_text raw) = false ->
  _parse_qcm_from_text raw = None.
Proof.
  intros Hfree. unfold _parse_qcm_from_text.
  destruct (negb (nonempty raw)); [reflexivity|].
  unfold split_blocks. fold (block_text raw).
  rewrite split_no_separator by exact Hfree.
  cbn [omap list_omap].
  destruct (nonempty (strip (nl ++ block_text raw))) eqn:Hne; [|reflexivity].
  cbn [omap list_omap]. unfold parse_block at 1.
  destruct (Re.re_match flags_I_S re_block_head _) as [m|] eqn:E; [|reflexivity].
  apply block_head_Q in E as (x & r & Hb & Hx).
  pose proof (line_start_strip is_Q (nl ++ block_text raw) x r Hb Hx) as H.
  change (line_start is_Q true (block_text raw) = true) in H. congruence.
Qed.

Lemma no_question_line_no_quiz_witness :
  line_start is_Q true (block_text prompt_layout_sample) = false /\
  _parse_qcm_from_text prompt_layout_sample = None.
Proof.
  split; [vm_compute; reflexivity|].
  apply no_question_line_no_quiz. vm_compute. reflexivity.
Defined.

(** ** The notes store *)

Lemma replace_space_fuel (fuel : nat) :
  forall s, (String.length s < fuel)%nat ->
  replace_fuel fuel " " "_" s = underscore_spaces s.
Proof.
  induction fuel as [|fuel IH]; intros s Hs; [lia|].
  destruct s as [|c s]; [reflexivity|].
  cbn [replace_fuel prefix_rest underscore_spaces].
  rewrite Ascii.eqb_sym.
  destruct (Ascii.eqb c " ").
  - change ("_" ++ replace_fuel fuel " " "_" s)
      with (String "_" (replace_fuel fuel " " "_" s)).
    rewrite IH by (cbn in Hs; lia). reflexivity.
  - rewrite IH by (cbn in Hs; lia). reflexivity.
Qed.

Lemma replace_space (s : string) : replace " " "_" s = underscore_spaces s.
Proof. apply replace_space_fuel. lia. Qed.

Lemma filter_str_all (p : ascii -> bool) (s : string) :
  forallb_str p (filter_str p s) = true.
Proof.
  induction s as [|c s IH]; [reflexivity|]. cbn [filter_str].
  destruct (p c) eqn:E; [|exact IH]. cbn [forallb_str]. by rewrite E.
Qed.

Lemma lstrip_all (p : ascii -> bool) (s : string) :
  forallb_str p s = true -> forallb_str p (lstrip s) = true.
Proof.
  induction s as [|c s IH]; [done|]. cbn [lstrip forallb_str].
  intros H. apply andb_true_iff in H as [Hc Hs].
  destruct (is_space c); [by apply IH|]. cbn [forallb_str]. by rewrite Hc, Hs.
Qed.

Lemma rstrip_all (p : ascii -> bool) (s : string) :
  forallb_str p s = true -> forallb_str p (rstrip s) = true.
Proof.
  induction s as [|c s IH]; [done|]. cbn [rstrip forallb_str].
  intros H. apply andb_true_iff in H as [Hc Hs]. specialize (IH Hs).
  destruct (rstrip s) as [|x r].
  - destruct (is_space c); [reflexivity|]. cbn. by rewrite Hc.
  - change (p c && forallb_str p (String x r) = true). by rewrite Hc, IH.
Qed.

Lemma underscore_spaces_chars (s : string) :
  forallb_str title_char s = true ->
  forallb_str filename_char (underscore_spaces s) = true.
Proof.
  induction s as [|c s IH]; [done|]. cbn [forallb_str underscore_spaces].
  intros H. apply andb_true_iff in H as [Hc Hs]. rewrite (IH Hs), andb_true_r.
  destruct (Ascii.eqb c " ") eqn:E; [reflexivity|].
  unfold title_char in Hc. unfold filename_char. rewrite E, orb_false_r in Hc.
  exact Hc.
Qed.

(** X10: the file of a note is always named by a non-empty text of letters,
    digits, underscores and hyphens followed by [.txt]: whatever the title,
    the name holds no path separator, no space and no dot before the
    extension. *)
Theorem note_filename_safe (title : string) :
  note_filename title = safe_title title ++ ".txt" /\
  nonempty (safe_title title) = true /\
  forallb_str filename_char (safe_title title) = true.
Proof.
  split; [reflexivity|]. unfold safe_title. cbn zeta.
  destruct (nonempty (replace " " "_" (strip (filter_str title_char title)))) eqn:E;
    cbn [negb]; [|by split].
  split; [exact E|]. rewrite replace_space. apply underscore_spaces_chars.
  unfold strip. apply rstrip_all, lstrip_all, filter_str_all.
Qed.

Lemma find_note_app (title : string) (l1 l2 : list note_entry) :
  find_note title (l1 ++ l2) =
  match find_note title l1 with
  | Some n => Some n
  | None => find_note title l2
  end.
Proof.
  induction l1 as [|n l1 IH]; [reflexivity|]. cbn [app find_note].
  by destruct (String.eqb (n_title n) title).
Qed.

Lemma find_note_some (title : string) (index : list note_entry) (n : note_entry) :
  find_note title index = Some n -> n ∈ index /\ n_title n = title.
Proof.
  induction index as [|m index IH]; [discriminate|]. cbn [find_note].
  destruct (String.eqb_spec (n_title m) title) as [Hm|Hm].
  - intros [= <-]. split; [left|exact Hm].
  - intros H. destruct (IH H) as [Hin Ht]. split; [by right|exact Ht].
Qed.

Lemma find_note_none (title : string) (index : list note_entry) :
  find_note title index = None <-> title ∉ map n_title index.
Proof.
  induction index as [|m index IH]; cbn [find_note map].
  - split; [intros _; apply not_elem_of_nil|done].
  - destruct (String.eqb_spec (n_title m) title) as [Hm|Hm].
    + split; [discriminate|]. intros H. exfalso. apply H. rewrite Hm. left.
    + rewrite IH, not_elem_of_cons. split; [by split|by intros [_ H]].
Qed.

Lemma find_note_file (title : string) (st : note_store) (n : note_entry) :
  index_ok st -> find_note title (note_index st) = Some n ->
  n_file n = note_filename title.
Proof.
  intros Hok Hn. apply find_note_some in Hn as [Hin <-].
  unfold index_ok in Hok. rewrite Forall_forall in Hok. by apply Hok.
Qed.

Lemma index_ok_create (now title content : string) (st : note_store) :
  index_ok st -> index_ok (create_note now title content st).
Proof.
  intros Hok. unfold index_ok, create_note. cbn [note_index].
  apply Forall_app. split; [exact Hok|]. by repeat constructor.
Qed.

Lemma index_ok_step (a : note_action) (st : note_store) :
  index_ok st -> index_ok (note_step a st).
Proof.
  intros Hok. destruct a as [now title content|title new_content|title]; cbn [note_step].
  - by apply index_ok_create.
  - unfold edit_note. destruct (find_note_path_by_title title st); [|exact Hok].
    by destruct (note_files st !! s).
  - unfold delete_note. destruct (find_note title (note_index st)); [|exact Hok].
    cbn [default]. unfold index_ok in *. cbn [note_index].
    rewrite Forall_forall in Hok. apply Forall_forall. intros m Hm.
    apply list_elem_of_filter in Hm as [_ Hm]. by apply Hok.
Qed.

Lemma reachable_index_ok (st : note_store) : notes_reachable st -> index_ok st.
Proof.
  induction 1 as [|st a _ IH]; [constructor|]. by apply index_ok_step.
Qed.

Lemma notes_reachable_run (l : list note_action) : notes_reachable (notes_run l).
Proof.
  unfold notes_run. rewrite <- fold_left_rev_right.
  induction (rev l) as [|a l' IH]; [constructor|]. simpl. by constructor.
Qed.

(** The file a title is read from in a reachable store. *)
Lemma read_note_file (title : string) (st : note_store) :
  index_ok st ->
  read_note title st =
  if bool_decide (title ∈ note_titles st)
  then note_files st !! note_filename title else None.
Proof.
  intros Hok. unfold read_note, find_note_path_by_title, note_titles.
  destruct (find_note title (note_index st)) as [n|] eqn:E.
  - cbn [option_map]. rewrite (find_note_file title st n Hok E).
    rewrite bool_decide_eq_true_2; [reflexivity|].
    apply find_note_some in E as [Hin <-]. by apply list_elem_of_fmap_2.
  - cbn [option_map]. apply find_note_none in E. by rewrite bool_decide_eq_false_2.
Qed.


Lemma filename_title (t title : string) :
  note_filename t <> note_filename title -> t <> title.
Proof. intros H ->. by apply H. Qed.






Lemma titles_filter (title : string) (l : list note_entry) :
  map n_title (filter (fun m => n_title m <> title) l) =
  filter (fun t => t <> title) (map n_title l).
Proof.
  induction l as [|m l IH]; [reflexivity|].
  cbn [map]. rewrite !filter_cons.
  destruct (decide (n_title m <> title)); cbn [map]; by rewrite IH.
Qed.

(** X14: [delete_note] raises exactly when the title is not listed.
    Otherwise the title is listed no more and reading it raises, the other
    titles are listed as before and in the same order, and in a reachable
    store the notes whose file has another name read as before. *)
Theorem delete_then_read (title : string) (st : note_store) :
  notes_reachable st ->
  match delete_note title st with
  | Some st' =>
      title ∈ note_titles st /\
      read_note title st' = None /\
      note_titles st' = filter (fun t => t <> title) (note_titles st) /\
      (forall t, note_filename t <> note_filename title ->
                 read_note t st' = read_note t st)
  | None => title ∉ note_titles st
  end.
Proof.
  intros Hr. pose proof (reachable_index_ok st Hr) as Hok.
  pose proof (index_ok_step (DeleteNote title) st Hok) as Hstep.
  cbn [note_step] in Hstep. unfold delete_note in *.
  destruct (find_note title (note_index st)) as [n|] eqn:E;
    [|by apply find_note_none].
  assert (Hok' : index_ok
            {| note_files := delete (n_file n) (note_files st);
               note_index := filter (fun m => n_title m <> title) (note_index st) |})
    by exact Hstep.
  clear Hstep.
  pose proof (find_note_file title st n Hok E) as Hn.
  assert (Htitles : note_titles
            {| note_files := delete (n_file n) (note_files st);
               note_index := filter (fun m => n_title m <> title) (note_index st) |}
          = filter (fun t => t <> title) (note_titles st)).
  { unfold note_titles. cbn [note_index]. apply titles_filter. }
  split; [|split; [|split; [exact Htitles|]]].
  - apply find_note_some in E as [Hin <-]. by apply list_elem_of_fmap_2.
  - rewrite (read_note_file _ _ Hok'), Htitles, bool_decide_eq_false_2; [reflexivity|].
    intros [H _]%list_elem_of_filter. by apply H.
  - intros t Ht. rewrite (read_note_file _ _ Hok'), (read_note_file _ _ Hok), Htitles.
    cbn [note_files]. rewrite Hn, lookup_delete_ne by (intros H; by apply Ht).
    apply filename_title in Ht.
    destruct (decide (t ∈ note_titles st)) as [Hm|Hm].
    + rewrite !bool_decide_eq_true_2; [reflexivity|exact Hm|].
      by apply list_elem_of_filter.
    + rewrite !bool_decide_eq_false_2; [reflexivity|exact Hm|].
      by intros [_ H]%list_elem_of_filter.
Qed.

Lemma delete_then_read_witness :
  note_titles (notes_run [CreateNote "t0" "a" "1"; CreateNote "t1" "b" "2";
                          DeleteNote "a"]) = ["b"] /\
  read_note "a" (notes_run [CreateNote "t0" "a" "1"; CreateNote "t1" "b" "2";
                            DeleteNote "a"]) = None.
Proof.
  pose proof (delete_then_read "a"
                (notes_run [CreateNote "t0" "a" "1"; CreateNote "t1" "b" "2"])
                (notes_reachable_run _)) as H.
  split; [vm_compute; reflexivity|].
  change (read_note "a"
            (default (notes_run [CreateNote "t0" "a" "1"; CreateNote "t1" "b" "2"])
                     (delete_note "a"
                        (notes_run [CreateNote "t0" "a" "1"; CreateNote "t1" "b" "2"])))
          = None).
  destruct (delete_note "a" _) as [st'|] eqn:E.
  - destruct H as (_ & H & _). exact H.
  - exfalso. apply H. vm_compute. left.
Defined.

(** ** Attempts of patterns without groups *)

Section AttemptRel.

Variable R : Re.mstate -> Re.mstate -> Prop.
Hypothesis R_refl : forall st, R st st.
Hypothesis R_trans : forall a b c, R a b -> R b c -> R a c.

Variable body : Re.mstate -> Re.cont -> option Re.mstate.
Hypothesis body_R : forall st k e,
  body st k = Some e -> exists st', R st st' /\ k st' = Some e.

Lemma repeat_greedy_rel (k : Re.cont) (e : Re.mstate) (n : nat) :
  forall st, Re.repeat_greedy body k n st = Some e ->
  exists st', R st st' /\ k st' = Some e.
Proof using R_refl R_trans body_R.
  induction n as [|n IH]; intros st; cbn [Re.repeat_greedy].
  - intros H. exists st. split; [apply R_refl|exact H].
  - intros H. apply or_else_inv in H as [H|H].
    + apply body_R in H as (st1 & L1 & H).
      destruct (Re.m_pos st <? Re.m_pos st1)%nat; [|discriminate].
      apply IH in H as (st2 & L2 & H). exists st2. split; [|exact H].
      by apply (R_trans st st1 st2).
    + exists st. split; [apply R_refl|exact H].
Qed.

Lemma repeat_lazy_rel (k : Re.cont) (e : Re.mstate) (n : nat) :
  forall st, Re.repeat_lazy body k n st = Some e ->
  exists st', R st st' /\ k st' = Some e.
Proof using R_refl R_trans body_R.
  induction n as [|n IH]; intros st; cbn [Re.repeat_lazy].
  - intros H. exists st. split; [apply R_refl|exact H].
  - intros H. apply or_else_inv in H as [H|H].
    + exists st. split; [apply R_refl|exact H].
    + apply body_R in H as (st1 & L1 & H).
      destruct (Re.m_pos st <? Re.m_pos st1)%nat; [|discriminate].
      apply IH in H as (st2 & L2 & H). exists st2. split; [|exact H].
      by apply (R_trans st st1 st2).
Qed.

End AttemptRel.

Lemma later_plain_refl (st : Re.mstate) : later_plain st st.
Proof. split; [apply later_refl|reflexivity]. Qed.

Lemma later_plain_trans (a b c : Re.mstate) :
  later_plain a b -> later_plain b c -> later_plain a c.
Proof.
  intros [L1 C1] [L2 C2]. split; [by apply (later_trans a b c)|congruence].
Qed.

Lemma later_plain_advance (x : ascii) (rest : string) (st : Re.mstate) :
  Re.m_rest st = String x rest -> later_plain st (Re.advance x rest st).
Proof. intros E. split; [by apply later_advance|reflexivity]. Qed.

(** A successful attempt of a pattern without group calls its continuation
    at a later position with the same groups closed. *)
Lemma rmatch_plain (fl : Re.flags) (r : Re.regex) :
  plain r = true ->
  forall st k e, Re.rmatch fl r st k = Some e ->
  exists st', later_plain st st' /\ k st' = Some e.
Proof.
  induction r as [|c|neg items| | | | |r1 IH1 r2 IH2|r1 IH1 r2 IH2|r IH|r IH|r IH|i r IH|r IH];
    cbn [plain]; intros Hp st k e; cbn [Re.rmatch].
  - intros H. exists st. split; [apply later_plain_refl|exact H].
  - intros H. apply step_char_inv in H as (x & rest & E & _ & H).
    eexists. split; [by apply later_plain_advance|exact H].
  - intros H. apply step_char_inv in H as (x & rest & E & _ & H).
    eexists. split; [by apply later_plain_advance|exact H].
  - intros H. apply step_char_inv in H as (x & rest & E & _ & H).
    eexists. split; [by apply later_plain_advance|exact H].
  - destruct (Re.at_bol fl st); [|discriminate].
    intros H. exists st. split; [apply later_plain_refl|exact H].
  - destruct (Re.at_eol fl st); [|discriminate].
    intros H. exists st. split; [apply later_plain_refl|exact H].
  - destruct (Re.at_word_boundary st); [|discriminate].
    intros H. exists st. split; [apply later_plain_refl|exact H].
  - apply andb_true_iff in Hp as [Hp1 Hp2]. intros H.
    apply (IH1 Hp1) in H as (st1 & L1 & H). apply (IH2 Hp2) in H as (st2 & L2 & H).
    exists st2. split; [by apply (later_plain_trans st st1 st2)|exact H].
  - apply andb_true_iff in Hp as [Hp1 Hp2]. intros H.
    apply or_else_inv in H as [H|H]; [by apply IH1|by apply IH2].
  - apply (repeat_greedy_rel later_plain later_plain_refl later_plain_trans _ (IH Hp)).
  - intros H. apply (IH Hp) in H as (st1 & L1 & H).
    apply (repeat_greedy_rel later_plain later_plain_refl later_plain_trans _ (IH Hp))
      in H as (st2 & L2 & H).
    exists st2. split; [by apply (later_plain_trans st st1 st2)|exact H].
  - intros H. apply (IH Hp) in H as (st1 & L1 & H).
    apply (repeat_lazy_rel later_plain later_plain_refl later_plain_trans _ (IH Hp))
      in H as (st2 & L2 & H).
    exists st2. split; [by apply (later_plain_trans st st1 st2)|exact H].
  - discriminate.
  - destruct (Re.rmatch fl r st Some); [|discriminate].
    intros H. exists st. split; [apply later_plain_refl|exact H].
Qed.

Lemma rmatch_seq_plain (fl : Re.flags) (r1 r2 : Re.regex) (st : Re.mstate) (k : Re.cont)
    (e : Re.mstate) :
  plain r1 = true ->
  Re.rmatch fl (Re.RSeq r1 r2) st k = Some e ->
  exists st1, later_plain st st1 /\ Re.rmatch fl r2 st1 k = Some e.
Proof. intros Hp. cbn [Re.rmatch]. by apply rmatch_plain. Qed.

Lemma later_between (st st' : Re.mstate) :
  later st st' -> exists mid, between st st' mid.
Proof. intros (mid & new & R & P & _). by exists mid. Qed.

Lemma between_trans (a b c : Re.mstate) (m1 m2 : string) :
  between a b m1 -> between b c m2 -> between a c (m1 ++ m2).
Proof.
  intros [R1 P1] [R2 P2]. split.
  - by rewrite R1, R2, str_app_assoc.
  - rewrite P2, P1, str_app_length. lia.
Qed.

Lemma between_advance (x : ascii) (rest : string) (st : Re.mstate) :
  Re.m_rest st = String x rest ->
  between st (Re.advance x rest st) (String x EmptyString).
Proof. intros E. split; [exact E|]. cbn. lia. Qed.


(** The text of a group closed between two positions. *)
Lemma slice_between (s : string) (st st' : Re.mstate) (mid : string) :
  at_text s st -> between st st' mid ->
  slice (Re.m_pos st) (Re.m_pos st') s = mid.
Proof.
  intros (pre & -> & Hp) [R P]. unfold slice. rewrite P, <- Hp, R.
  replace (String.length pre + String.length mid - String.length pre)%nat
    with (String.length mid) by lia.
  apply substring_middle.
Qed.

(** ** The labels of the options of the text-block parser *)

Lemma rmatch_later_end (fl : Re.flags) (r : Re.regex) (st e : Re.mstate) :
  Re.rmatch fl r st Some = Some e -> later st e.
Proof. intros H. apply rmatch_later in H as (st' & L & [= <-]). exact L. Qed.

(** Each match of [finditer] is a successful attempt at a position of the
    text, with no group closed before it. *)
Lemma matches_from_attempt (fl : Re.flags) (r : Re.regex) (s : string) (n : nat) :
  forall st mo, at_text s st -> mo ∈ Re.matches_from fl r n st ->
  exists st0, at_text s st0 /\ Re.m_caps st0 = [] /\
              Re.mo_start mo = Re.m_pos st0 /\
              Re.rmatch fl r st0 Some = Some (Re.mo_end mo).
Proof.
  induction n as [|n IH]; intros st mo Hat; cbn [Re.matches_from];
    [by intros H%elem_of_nil|].
  destruct (Re.search_from fl r _ st) as [m1|] eqn:E; [|by intros H%elem_of_nil].
  destruct (search_from_attempt fl r s _ st m1 Hat E) as (st0 & H0 & H1 & _ & H3 & H4).
  assert (Hend : at_text s (Re.mo_end m1)).
  { apply (at_text_later s st0); [exact H0|]. by apply (rmatch_later_end fl r). }
  destruct (Re.mo_start m1 <? Re.m_pos (Re.mo_end m1))%nat.
  - intros [->|Hin]%elem_of_cons; [by exists st0|]. by apply (IH (Re.mo_end m1)).
  - intros [->|Hin]%elem_of_cons; [by exists st0|].
    destruct (Re.m_rest (Re.mo_end m1)) as [|c rest] eqn:Er; [by apply elem_of_nil in Hin|].
    apply (IH (Re.advance c rest (Re.mo_end m1))); [|exact Hin].
    apply (at_text_later s (Re.mo_end m1)); [exact Hend|by apply later_advance].
Qed.

Lemma finditer_attempt (fl : Re.flags) (r : Re.regex) (s : string) (mo : Re.rmatch_obj) :
  mo ∈ Re.re_finditer fl r s ->
  exists st0, at_text s st0 /\ Re.m_caps st0 = [] /\
              Re.mo_start mo = Re.m_pos st0 /\
              Re.rmatch fl r st0 Some = Some (Re.mo_end mo).
Proof. apply matches_from_attempt, at_text_start. Qed.

(** Group 1 of the two option patterns is closed over one letter. *)
Lemma rmatch_option_line (st e : Re.mstate) :
  Re.rmatch flags_I_M re_option_line st Some = Some e ->
  exists st2 x rest,
    later st st2 /\ Re.m_rest st2 = String x rest /\ is_a_f_nocase x = true /\
    Re.find_cap 1 (Re.m_caps e) = Some (Re.m_pos st2, S (Re.m_pos st2)).
Proof.
  unfold re_option_line. cbn [Re.seq]. intros H.
  apply rmatch_seq in H as (st1 & L1 & H). apply rmatch_seq in H as (st2 & L2 & H).
  cbn [Re.rmatch] in H. unfold re_A_F in H. unfold set_of in H at 1.
  apply step_char_inv in H as (x & rest & E & Hx & H).
  change (Re.set_matches flags_I_M false [Re.CRange "A" "F"] x)
    with (Re.set_matches Re.IGNORECASE false [Re.CRange "A" "F"] x) in Hx.
  rewrite set_A_F_nocase in Hx.
  apply (rmatch_plain flags_I_M re_opt_sep eq_refl) in H as (st3 & [_ C3] & H).
  apply (rmatch_plain flags_I_M (Re.RStar re_s) eq_refl) in H as (st4 & [_ C4] & H).
  apply (rmatch_plain flags_I_M Re.RAny eq_refl) in H as (st5 & [_ C5] & H).
  apply (repeat_greedy_rel later_plain later_plain_refl later_plain_trans _
           (rmatch_plain flags_I_M Re.RAny eq_refl)) in H as (st6 & [_ C6] & H).
  destruct (Re.at_eol flags_I_M _); [|discriminate]. injection H as <-.
  exists st2, x, rest. repeat split; try assumption; [eauto using later_trans|].
  cbn [Re.set_cap Re.m_caps Re.find_cap Nat.eqb]. rewrite C6, C5, C4, C3.
  cbn [Re.set_cap Re.advance Re.m_caps Re.m_pos Re.find_cap Nat.eqb]. reflexivity.
Qed.

Lemma rmatch_option_inline (st e : Re.mstate) :
  Re.rmatch Re.IGNORECASE re_option_inline st Some = Some e ->
  exists x rest,
    Re.m_rest st = String x rest /\ is_a_f_nocase x = true /\
    Re.find_cap 1 (Re.m_caps e) = Some (Re.m_pos st, S (Re.m_pos st)).
Proof.
  unfold re_option_inline. cbn [Re.seq]. intros H.
  cbn [Re.rmatch] in H. unfold re_A_F in H. unfold set_of in H at 1.
  apply step_char_inv in H as (x & rest & E & Hx & H).
  rewrite set_A_F_nocase in Hx.
  apply (rmatch_plain Re.IGNORECASE re_opt_sep eq_refl) in H as (st3 & [_ C3] & H).
  apply (rmatch_plain Re.IGNORECASE (Re.RStar re_s) eq_refl) in H as (st4 & [_ C4] & H).
  apply (rmatch_plain Re.IGNORECASE (Re.RSet true [Re.CRange "A" "F"]) eq_refl)
    in H as (st5 & [_ C5] & H).
  apply (repeat_lazy_rel later_plain later_plain_refl later_plain_trans _
           (rmatch_plain Re.IGNORECASE (Re.RSet true [Re.CRange "A" "F"]) eq_refl))
    in H as (st6 & [_ C6] & H).
  destruct (Re.or_else _ _); [|discriminate]. injection H as <-.
  exists x, rest. repeat split; try assumption.
  cbn [Re.set_cap Re.m_caps Re.find_cap Nat.eqb]. rewrite C6, C5, C4, C3.
  cbn [Re.set_cap Re.advance Re.m_caps Re.m_pos Re.find_cap Nat.eqb]. reflexivity.
Qed.

Lemma group_letter (s : string) (mo : Re.rmatch_obj) (st : Re.mstate) (x : ascii)
    (rest : string) :
  at_text s st -> Re.m_rest st = String x rest -> is_a_f_nocase x = true ->
  Re.find_cap 1 (Re.m_caps (Re.mo_end mo)) = Some (Re.m_pos st, S (Re.m_pos st)) ->
  exists y, is_A_F y = true /\ upper (Re.group_str s mo 1) = letter_text y.
Proof.
  intros Hat E Hx Hcap. unfold Re.group_str, Re.group. rewrite Hcap. cbn [default].
  rewrite (slice_one s st x rest Hat E). by apply upper_a_f.
Qed.

Lemma format_option_labelled (l t : string) (y : ascii) :
  is_A_F y = true -> upper l = letter_text y -> labelled (format_option l t).
Proof.
  intros Hy Hl. exists y, (String " " (strip t)). split; [exact Hy|].
  unfold format_option. by rewrite Hl.
Qed.

Lemma block_options_labelled (rc : string) (qt : string) (opts : list string) :
  block_options rc = Some (qt, opts) -> Forall labelled opts.
Proof.
  unfold block_options.
  destruct (length (option_line_matches rc) <? 2)%nat.
  - destruct (2 <=? length (option_inline_matches rc))%nat; [|discriminate].
    intros [= _ <-]. apply Forall_forall. intros o Ho.
    apply list_elem_of_fmap in Ho as (mo & -> & Hmo).
    apply finditer_attempt in Hmo as (st0 & Hat & _ & _ & Hm).
    apply rmatch_option_inline in Hm as (x & rest & E & Hx & Hcap).
    destruct (group_letter rc mo st0 x rest Hat E Hx Hcap) as (y & Hy & Hu).
    by apply (format_option_labelled _ _ y).
  - intros [= _ <-]. apply Forall_forall. intros o Ho.
    apply list_elem_of_fmap in Ho as (mo & -> & Hmo).
    apply finditer_attempt in Hmo as (st0 & Hat & _ & _ & Hm).
    apply rmatch_option_line in Hm as (st2 & x & rest & L & E & Hx & Hcap).
    destruct (group_letter rc mo st2 x rest (at_text_later rc st0 st2 Hat L) E Hx Hcap)
      as (y & Hy & Hu).
    by apply (format_option_labelled _ _ y).
Qed.

Lemma parse_block_labelled (block : string) (v : value) :
  parse_block block = Some v -> Forall labelled (parsed_options v).
Proof.
  unfold parse_block.
  destruct (Re.re_match flags_I_S re_block_head block) as [m|]; [|discriminate].
  destruct (block_options _) as [[qt opts]|] eqn:Hb; [|discriminate].
  intros [= <-]. rewrite parsed_options_dict. exact (block_options_labelled _ _ _ Hb).
Qed.

Lemma rstrip_nonspace_cons (c : ascii) (r : string) :
  is_space c = false -> rstrip (String c r) = String c (rstrip r).
Proof. intros Hc. cbn [rstrip]. destruct (rstrip r); [by rewrite Hc|reflexivity]. Qed.

Lemma strip_labelled (o : string) : labelled o -> labelled (strip o).
Proof.
  intros (y & rest & Hy & ->). exists y, (rstrip rest). split; [exact Hy|].
  assert (Hs : is_space y = false).
  { revert Hy. destruct y as [[] [] [] [] [] [] [] []]; vm_compute; congruence. }
  unfold strip. cbn [lstrip]. rewrite Hs.
  rewrite (rstrip_nonspace_cons y _ Hs). by rewrite (rstrip_nonspace_cons ")" _ eq_refl).
Qed.

Lemma parsed_options_kept (vs : list value) (kept : list question) :
  Forall (fun v => Forall labelled (parsed_options v)) vs ->
  map q_options kept = map (fun v => map strip (parsed_options v)) vs ->
  Forall (fun q => Forall labelled (q_options q)) kept.
Proof.
  revert kept. induction vs as [|v vs IH]; intros [|q kept] Hall; try discriminate.
  - constructor.
  - inversion Hall as [|? ? Hv Hvs]; subst. cbn [map]. intros [= Hq Hk].
    constructor; [|by apply IH]. rewrite Hq.
    apply Forall_forall. intros o Ho. apply list_elem_of_fmap in Ho as (o' & -> & Ho').
    apply strip_labelled. rewrite Forall_forall in Hv. by apply Hv.
Qed.

(** X15: in a quiz that comes from the text-block parser, every option of
    every question starts with an upper-case letter A-F followed by a
    closing parenthesis, whatever the case of the letter and the separator
    in the text. *)
Theorem text_path_options_labelled (raw : string) (v : value) :
  _parse_qcm_from_text raw = Some v ->
  exists quiz,
    _normalize_qcm v = Ret (Some quiz) /\
    Forall (fun q => Forall labelled (q_options q)) (questions quiz).
Proof.
  intros H. destruct (text_path_questions raw v H) as (-> & Hne & Hall).
  destruct (normalize_loop_parsed (parsed_questions raw) [] Hall)
    as (kept & Hl & H1 & _ & H3 & _).
  cbn [app] in Hl. exists {| questions := kept |}. split.
  - apply normalize_questions_list; [exact Hl|].
    intros ->. destruct (parsed_questions raw); [by apply Hne|discriminate H1].
  - cbn [questions]. apply (parsed_options_kept (parsed_questions raw)); [|exact H3].
    eapply Forall_impl; [exact Hall|]. intros q (block & Hb).
    by apply (parse_block_labelled block).
Qed.

Lemma text_path_options_labelled_witness :
  exists quiz,
    _normalize_qcm (VDict [("questions", VList (parsed_questions sample_text))])
      = Ret (Some quiz) /\
    Forall (fun q => Forall labelled (q_options q)) (questions quiz).
Proof.
  apply (text_path_options_labelled sample_text). vm_compute. reflexivity.
Defined.

(** ** The JSON text of the model answer *)

Lemma char_matches_delimiter (fl : Re.flags) (c x : ascii) :
  c = "{"%char \/ c = "}"%char \/ c = backtick ->
  Re.char_matches fl c x = true -> x = c.
Proof.
  unfold Re.char_matches. intros Hc.
  destruct (Re.ignorecase fl); [|by intros H%Ascii.eqb_eq].
  destruct Hc as [->|[->| ->]];
    destruct x as [[] [] [] [] [] [] [] []]; vm_compute; congruence.
Qed.

Lemma or_else_first (a b : option Re.mstate) (e : Re.mstate) :
  Re.or_else a b = Some e -> a = Some e \/ (a = None /\ b = Some e).
Proof. destruct a; cbn; auto. Qed.

Lemma rmatch_seq_eq (fl : Re.flags) (r1 r2 : Re.regex) (st : Re.mstate) (k : Re.cont) :
  Re.rmatch fl (Re.RSeq r1 r2) st k =
  Re.rmatch fl r1 st (fun st' => Re.rmatch fl r2 st' k).
Proof. reflexivity. Qed.

Lemma rmatch_char (fl : Re.flags) (c : ascii) (st : Re.mstate) (k : Re.cont)
    (e : Re.mstate) :
  c = "{"%char \/ c = "}"%char \/ c = backtick ->
  Re.rmatch fl (Re.RChar c) st k = Some e ->
  exists rest, Re.m_rest st = String c rest /\ k (Re.advance c rest st) = Some e.
Proof.
  intros Hc H. cbn [Re.rmatch] in H. apply step_char_inv in H as (x & rest & E & Hx & H).
  apply (char_matches_delimiter fl c x Hc) in Hx as ->. by exists rest.
Qed.

(** A successful attempt of [\{.*?\}]: the text passed over is between
    braces, and no group is closed. *)
Lemma rmatch_block (fl : Re.flags) (st : Re.mstate) (k : Re.cont) (e : Re.mstate) :
  Re.rmatch fl re_block st k = Some e ->
  exists st' body,
    between st st' (braced body) /\ Re.m_caps st' = Re.m_caps st /\ k st' = Some e.
Proof.
  unfold re_block. cbn [Re.seq]. rewrite !rmatch_seq_eq. intros H.
  apply rmatch_char in H as (r1 & E1 & H); [|by left].
  apply (rmatch_plain fl (star_lazy Re.RAny) eq_refl) in H as (st2 & [L2 C2] & H).
  apply later_between in L2 as [mid B2].
  apply rmatch_char in H as (r3 & E3 & H); [|by right; left].
  exists (Re.advance "}" r3 st2), mid. split; [|split; [exact C2|exact H]].
  pose proof (between_trans _ _ _ _ _ (between_advance _ _ _ E1)
                (between_trans _ _ _ _ _ B2 (between_advance _ _ _ E3))) as B.
  exact B.
Qed.

(** The group of the two fenced patterns is closed over a text between
    braces. *)
Lemma rmatch_fenced (fl : Re.flags) (opening : Re.regex) (st e : Re.mstate) :
  plain opening = true ->
  Re.rmatch fl (Re.seq [opening; Re.RStar re_s; Re.RGroup 1 re_block;
                        Re.RStar re_s; Re.lit fence]) st Some = Some e ->
  exists st2 st3 body,
    later st st2 /\ between st2 st3 (braced body) /\
    Re.find_cap 1 (Re.m_caps e) = Some (Re.m_pos st2, Re.m_pos st3).
Proof.
  intros Hp. cbn [Re.seq]. intros H.
  apply (rmatch_seq_plain fl opening _ st Some e Hp) in H as (st1 & [L1 _] & H).
  apply (rmatch_seq_plain fl (Re.RStar re_s) _ st1 Some e eq_refl) in H as (st2 & [L2 _] & H).
  rewrite rmatch_seq_eq in H.
  change (Re.rmatch fl (Re.RGroup 1 re_block) st2
            (fun st' => Re.rmatch fl (Re.RSeq (Re.RStar re_s) (Re.lit fence)) st' Some))
    with (Re.rmatch fl re_block st2
            (fun st' => Re.rmatch fl (Re.RSeq (Re.RStar re_s) (Re.lit fence))
                          (Re.set_cap 1 (Re.m_pos st2, Re.m_pos st') st') Some)) in H.
  apply rmatch_block in H as (st3 & body & B & _ & H).
  apply (rmatch_plain fl (Re.RSeq (Re.RStar re_s) (Re.lit fence)) eq_refl)
    in H as (st4 & [_ C4] & [= <-]).
  exists st2, st3, body. split; [by apply (later_trans st st1 st2)|]. split; [exact B|].
  rewrite C4. cbn [Re.set_cap Re.m_caps Re.find_cap Nat.eqb]. reflexivity.
Qed.

Lemma at_text_has_char (s : string) (st : Re.mstate) (c : ascii) (r : string) :
  at_text s st -> Re.m_rest st = String c r -> has_char c s = true.
Proof.
  intros (pre & -> & _) ->. clear st. induction pre as [|x pre IH].
  - change (has_char c (String c r) = true). cbn [has_char].
    by rewrite Ascii.eqb_refl.
  - change (has_char c (String x (pre ++ String c r)) = true). cbn [has_char].
    rewrite IH. apply orb_true_r.
Qed.

Lemma fenced_starts_with_backtick (fl : Re.flags) (st e : Re.mstate) :
  Re.rmatch fl re_fenced st Some = Some e \/
  Re.rmatch fl re_fenced_json st Some = Some e ->
  exists rest, Re.m_rest st = String backtick rest.
Proof.
  unfold re_fenced, re_fenced_json, fence, fence_json.
  cbn [Re.seq Re.lit]. rewrite !rmatch_seq_eq.
  intros [H|H]; apply rmatch_char in H as (rest & E & _); eauto.
Qed.

(** The text of a match of a pattern searched in [s]. *)
Lemma search_attempt (fl : Re.flags) (r : Re.regex) (s : string) (mo : Re.rmatch_obj) :
  Re.re_search fl r s = Some mo ->
  exists st0, at_text s st0 /\ Re.mo_start mo = Re.m_pos st0 /\
              Re.rmatch fl r st0 Some = Some (Re.mo_end mo).
Proof.
  unfold Re.re_search. intros H.
  apply (search_from_attempt fl r s) in H as (st0 & H0 & _ & _ & H3 & H4);
    [|apply at_text_start].
  by exists st0.
Qed.

(** A part of a text. *)
Lemma at_text_between (s : string) (st st' : Re.mstate) (mid : string) :
  at_text s st -> between st st' mid ->
  exists pre post, s = pre ++ mid ++ post.
Proof. intros (pre & -> & _) [R _]. exists pre, (Re.m_rest st'). by rewrite R. Qed.

Lemma search_fenced (fl : Re.flags) (opening : Re.regex) (s : string)
    (mo : Re.rmatch_obj) :
  plain opening = true ->
  Re.re_search fl (Re.seq [opening; Re.RStar re_s; Re.RGroup 1 re_block;
                           Re.RStar re_s; Re.lit fence]) s = Some mo ->
  exists pre body post,
    s = pre ++ braced body ++ post /\ Re.group_str s mo 1 = braced body.
Proof.
  intros Hp H. apply search_attempt in H as (st0 & Hat & _ & H).
  apply (rmatch_fenced fl opening st0 _ Hp) in H as (st2 & st3 & body & L & B & Hcap).
  pose proof (at_text_later s st0 st2 Hat L) as Hat2.
  destruct (at_text_between s st2 st3 _ Hat2 B) as (pre & post & Hs).
  exists pre, body, post. split; [exact Hs|].
  unfold Re.group_str, Re.group. rewrite Hcap. cbn [default].
  by apply slice_between.
Qed.

(** The lazy run of [\{.*?\}] stops at the first closing brace. *)
Lemma lazy_run_stops (n : nat) :
  forall st e,
  Re.repeat_lazy (Re.rmatch flags_S Re.RAny) close_block n st = Some e ->
  exists body, between st e (body ++ "}") /\ has_char "}" body = false.
Proof.
  assert (Hclose : forall st e, close_block st = Some e ->
            between st e ("" ++ "}")).
  { intros st e H. unfold close_block in H.
    apply step_char_inv in H as (x & r & E & Hx & [= <-]).
    apply (char_matches_delimiter flags_S "}" x) in Hx as ->; [|by right; left].
    by apply between_advance. }
  induction n as [|n IH]; intros st e; cbn [Re.repeat_lazy].
  - intros H. exists EmptyString. split; [by apply Hclose|reflexivity].
  - intros H. apply or_else_first in H as [H|[Hnone H]].
    + exists EmptyString. split; [by apply Hclose|reflexivity].
    + cbn [Re.rmatch] in H. apply step_char_inv in H as (x & r & E & _ & H).
      destruct (Re.m_pos st <? _)%nat; [|discriminate].
      apply IH in H as (body & B & Hb). exists (String x body). split.
      * exact (between_trans _ _ _ _ _ (between_advance _ _ _ E) B).
      * cbn [has_char]. rewrite Hb, orb_false_r.
        unfold close_block, Re.step_char in Hnone. rewrite E in Hnone.
        unfold Re.char_matches in Hnone. cbn [Re.ignorecase flags_S] in Hnone.
        by destruct (Ascii.eqb x "}").
Qed.

Lemma rmatch_block_first (st e : Re.mstate) :
  Re.rmatch flags_S re_block st Some = Some e ->
  exists body, between st e (braced body) /\ has_char "}" body = false.
Proof.
  unfold re_block. cbn [Re.seq]. rewrite rmatch_seq_eq. intros H.
  apply rmatch_char in H as (r1 & E1 & H); [|by left].
  unfold star_lazy in H. cbn [Re.rmatch] in H.
  change (fun st' : Re.mstate => Re.step_char (Re.char_matches flags_S "}") st' Some)
    with close_block in H.
  assert (Hrun : exists body, between (Re.advance "{" r1 st) e (body ++ "}") /\
                              has_char "}" body = false).
  { apply or_else_first in H as [H|[Hnone H]].
    - apply (lazy_run_stops 0). exact H.
    - apply step_char_inv in H as (x & r & E & _ & H).
      destruct (lazy_run_stops _ _ _ H) as (body & B & Hb).
      exists (String x body). split.
      + exact (between_trans _ _ _ _ _ (between_advance _ _ _ E) B).
      + cbn [has_char]. rewrite Hb, orb_false_r.
        unfold Re.step_char in Hnone. rewrite E in Hnone.
        unfold Re.char_matches in Hnone. cbn [Re.ignorecase flags_S] in Hnone.
        by destruct (Ascii.eqb x "}"). }
  destruct Hrun as (body & B & Hb). exists body. split; [|exact Hb].
  exact (between_trans _ _ _ _ _ (between_advance _ _ _ E1) B).
Qed.

(** Each block found is a part of the text between braces with no closing
    brace inside. *)
Lemma findall_block (s block : string) :
  block ∈ re_findall flags_S re_block s ->
  exists pre body post,
    s = pre ++ braced body ++ post /\ block = braced body /\
    has_char "}" body = false.
Proof.
  unfold re_findall. intros H. apply list_elem_of_fmap in H as (mo & -> & Hmo).
  apply finditer_attempt in Hmo as (st0 & Hat & _ & Hstart & Hm).
  apply rmatch_block_first in Hm as (body & B & Hb).
  destruct (at_text_between s st0 _ _ Hat B) as (pre & post & Hs).
  exists pre, body, post. repeat split; try assumption.
  unfold Re.group0, Re.m_start, Re.m_end. rewrite Hstart. by apply slice_between.
Qed.

Lemma insert_by_len_elem (x y : string) (l : list string) :
  y ∈ insert_by_len x l <-> y = x \/ y ∈ l.
Proof.
  induction l as [|z l IH]; cbn [insert_by_len].
  - rewrite list_elem_of_singleton. split; [by left|]. intros [H|H]; [exact H|].
    by apply elem_of_nil in H.
  - destruct (String.length z <=? String.length x)%nat.
    + by rewrite elem_of_cons.
    + rewrite !elem_of_cons, IH. tauto.
Qed.

Lemma sort_by_len_elem (y : string) (l : list string) :
  y ∈ sort_by_len_desc l <-> y ∈ l.
Proof.
  unfold sort_by_len_desc. induction l as [|x l IH]; [reflexivity|].
  cbn [foldr]. by rewrite insert_by_len_elem, elem_of_cons, IH.
Qed.

Lemma first_sorted_elem (l : list string) :
  l <> [] -> first_piece (sort_by_len_desc l) ∈ l.
Proof.
  intros Hl. apply sort_by_len_elem. unfold first_piece.
  destruct (sort_by_len_desc l) as [|y l'] eqn:E; [|left].
  exfalso. destruct l as [|x l]; [done|].
  assert (Hx : x ∈ sort_by_len_desc (x :: l)) by (apply sort_by_len_elem; left).
  rewrite E in Hx. by apply elem_of_nil in Hx.
Qed.

Lemma rstrip_app_nonspace (s : string) (c : ascii) :
  is_space c = false -> rstrip (s ++ String c EmptyString) = s ++ String c EmptyString.
Proof.
  intros Hc. induction s as [|x s IH].
  - change (rstrip (String c EmptyString) = String c EmptyString). cbn. by rewrite Hc.
  - change (rstrip (String x (s ++ String c EmptyString))
            = String x (s ++ String c EmptyString)).
    cbn [rstrip]. rewrite IH. by destruct s.
Qed.

Lemma strip_braced (body : string) : strip (braced body) = braced body.
Proof.
  unfold strip, braced.
  change (rstrip (lstrip (String "{" (body ++ "}"))) = String "{" (body ++ "}")).
  cbn [lstrip]. change (is_space "{") with false. cbn iota.
  change (rstrip ((String "{" body) ++ "}") = (String "{" body) ++ "}").
  by apply rstrip_app_nonspace.
Qed.

(** An attempt of [\{.*?\}] at an opening brace with a closing brace after
    it succeeds. *)
Lemma lazy_run_finds (r : string) :
  forall st n, Re.m_rest st = r -> (String.length r <= n)%nat ->
  has_char "}" r = true ->
  exists e, Re.repeat_lazy (Re.rmatch flags_S Re.RAny) close_block n st = Some e.
Proof.
  induction r as [|x r IH]; intros st n E Hn Hr; [discriminate|].
  cbn [has_char] in Hr.
  destruct n as [|n]; [cbn in Hn; lia|]. cbn [Re.repeat_lazy].
  destruct (close_block st) as [e|] eqn:Hc; [by exists e|]. cbn [Re.or_else Re.rmatch].
  unfold Re.step_char at 1. rewrite E. cbn [Re.any_matches Re.dotall flags_S orb].
  cbn [Re.advance Re.m_pos].
  replace (Re.m_pos st <? S (Re.m_pos st))%nat with true
    by (symmetry; apply Nat.ltb_lt; lia).
  apply IH; [reflexivity|cbn in Hn; lia|].
  destruct (Ascii.eqb x "}") eqn:Hx; [|exact Hr].
  exfalso. unfold close_block, Re.step_char in Hc. rewrite E in Hc.
  unfold Re.char_matches in Hc. cbn [Re.ignorecase flags_S] in Hc.
  by rewrite Hx in Hc.
Qed.

Lemma block_attempt_succeeds (st : Re.mstate) (r : string) :
  Re.m_rest st = String "{" r -> has_char "}" r = true ->
  exists e, Re.rmatch flags_S re_block st Some = Some e.
Proof.
  intros E Hr. unfold re_block, star_lazy. cbn [Re.seq Re.rmatch].
  unfold Re.step_char at 1.
  rewrite E. cbn [Re.char_matches Re.ignorecase flags_S].
  change (Ascii.eqb "{" "{") with true. cbn iota.
  change (fun st' : Re.mstate => Re.step_char (Re.char_matches flags_S "}") st' Some)
    with close_block.
  change (Re.step_char (Re.char_matches flags_S "}") (Re.advance "{" r st) Some)
    with (close_block (Re.advance "{" r st)).
  destruct (close_block (Re.advance "{" r st)) as [e|] eqn:Hc; [by exists e|].
  cbn [Re.or_else]. unfold Re.step_char at 1. cbn [Re.advance Re.m_rest].
  destruct r as [|x r]; [discriminate|].
  cbn [Re.any_matches Re.dotall flags_S orb].
  apply (lazy_run_finds r); [reflexivity|lia|].
  cbn [has_char] in Hr. destruct (Ascii.eqb x "}") eqn:Hx; [|exact Hr].
  exfalso. unfold close_block, Re.step_char in Hc. cbn [Re.advance Re.m_rest] in Hc.
  unfold Re.char_matches in Hc. cbn [Re.ignorecase flags_S] in Hc.
  by rewrite Hx in Hc.
Qed.

Lemma search_block_finds (n : nat) :
  forall st, (String.length (Re.m_rest st) <= n)%nat ->
  has_pair (Re.m_rest st) = true ->
  exists mo, Re.search_from flags_S re_block n st = Some mo.
Proof.
  induction n as [|n IH]; intros st Hn Hp.
  - destruct (Re.m_rest st); [discriminate|cbn in Hn; lia].
  - cbn [Re.search_from].
    destruct (Re.rmatch flags_S re_block (Re.clear_caps st) Some) as [e|] eqn:E;
      [by eexists|].
    destruct (Re.m_rest st) as [|x r] eqn:Er; [discriminate|].
    cbn [has_pair] in Hp. apply orb_true_iff in Hp as [Hp|Hp].
    + apply andb_true_iff in Hp as [Hx Hr]. apply Ascii.eqb_eq in Hx as ->.
      destruct (block_attempt_succeeds (Re.clear_caps st) r Er Hr) as [e' He'].
      congruence.
    + apply IH; [cbn in Hn |- *; lia|exact Hp].
Qed.

Lemma findall_block_finds (s : string) :
  has_pair s = true -> re_findall flags_S re_block s <> [].
Proof.
  intros Hp. unfold re_findall, Re.re_finditer. cbn [Re.matches_from].
  destruct (search_block_finds (String.length (Re.m_rest (Re.start_state s)))
              (Re.start_state s)) as [mo Hmo]; [lia|exact Hp|].
  rewrite Hmo. by destruct (_ <? _)%nat.
Qed.

Lemma braced_has_pair (pre body post : string) :
  has_pair (pre ++ braced body ++ post) = true.
Proof.
  induction pre as [|x pre IH].
  - change (has_pair (String "{" ((body ++ "}") ++ post)) = true). cbn [has_pair].
    change (Ascii.eqb "{" "{") with true. cbn [andb].
    assert (H : has_char "}" ((body ++ "}") ++ post) = true); [|by rewrite H].
    clear. induction body as [|y body IH]; [reflexivity|].
    change (has_char "}" (String y ((body ++ "}") ++ post)) = true).
    cbn [has_char]. rewrite IH. apply orb_true_r.
  - change (has_pair (String x (pre ++ braced body ++ post)) = true).
    cbn [has_pair]. rewrite IH. apply orb_true_r.
Qed.

(** What [_extract_json] returns is one of its candidates. *)
Lemma extract_json_candidate (text s : string) :
  _extract_json text = Ret s ->
  exists pre body post, text = pre ++ braced body ++ post /\ s = braced body /\
    (has_char backtick text = false -> has_char "}" body = false).
Proof.
  unfold _extract_json.
  destruct (Re.re_search flags_I_S re_fenced_json text) as [m|] eqn:E1.
  { intros [= <-]. pose proof E1 as E1'.
    apply (search_fenced flags_I_S (Re.lit fence_json) text m eq_refl)
      in E1 as (pre & body & post & Hs & ->).
    exists pre, body, post. split; [exact Hs|]. split; [apply strip_braced|].
    intros Hno. apply search_attempt in E1' as (st0 & Hat & _ & Hm).
    destruct (fenced_starts_with_backtick flags_I_S st0 _ (or_intror Hm)) as [r Hr].
    by rewrite (at_text_has_char text st0 backtick r Hat Hr) in Hno. }
  destruct (Re.re_search flags_S re_fenced text) as [m|] eqn:E2.
  { intros [= <-]. pose proof E2 as E2'.
    apply (search_fenced flags_S (Re.lit fence) text m eq_refl)
      in E2 as (pre & body & post & Hs & ->).
    exists pre, body, post. split; [exact Hs|]. split; [apply strip_braced|].
    intros Hno. apply search_attempt in E2' as (st0 & Hat & _ & Hm).
    destruct (fenced_starts_with_backtick flags_S st0 _ (or_introl Hm)) as [r Hr].
    by rewrite (at_text_has_char text st0 backtick r Hat Hr) in Hno. }
  cbn zeta. destruct (re_findall flags_S re_block text) as [|b bs] eqn:Eb; [discriminate|].
  intros [= <-].
  assert (Hin : first_piece (sort_by_len_desc (b :: bs)) ∈ re_findall flags_S re_block text).
  { rewrite Eb. by apply first_sorted_elem. }
  apply findall_block in Hin as (pre & body & post & Hs & Hfirst & Hb).
  exists pre, body, post. split; [exact Hs|].
  change (insert_by_len b (sort_by_len_desc bs)) with (sort_by_len_desc (b :: bs)).
  rewrite Hfirst. split; [apply strip_braced|]. by intros _.
Qed.

Lemma extract_json_raise (text : string) (e : exn) :
  _extract_json text = Raise e -> e = ValueError /\ has_pair text = false.
Proof.
  unfold _extract_json.
  destruct (Re.re_search flags_I_S re_fenced_json text); [discriminate|].
  destruct (Re.re_search flags_S re_fenced text); [discriminate|]. cbn zeta.
  destruct (re_findall flags_S re_block text) as [|b bs] eqn:Eb; [|discriminate].
  intros [= <-]. split; [reflexivity|].
  destruct (has_pair text) eqn:Hp; [|reflexivity].
  by apply findall_block_finds in Hp.
Qed.

(** X16: [_extract_json] returns exactly when the text holds an opening
    brace with a closing brace somewhere after it, and raises [ValueError]
    otherwise; what it returns is a part of the text that starts with an
    opening brace and ends with a closing brace. *)
Theorem extract_json_outcome (text : string) :
  match _extract_json text with
  | Ret s =>
      has_pair text = true /\
      exists pre body post, text = pre ++ s ++ post /\ s = braced body
  | Raise e => e = ValueError /\ has_pair text = false
  end.
Proof.
  destruct (_extract_json text) as [s|e] eqn:E.
  - apply extract_json_candidate in E as (pre & body & post & Ht & -> & _).
    split; [rewrite Ht; apply braced_has_pair|]. by exists pre, body, post.
  - by apply extract_json_raise.
Qed.

(** X17: on a text without backtick, so without code fence, what
    [_extract_json] returns holds no closing brace before its last
    character: the block stops at the first closing brace after its opening
    brace, and an object that holds another object never comes back whole. *)
Theorem extract_json_first_brace (text s : string) :
  has_char backtick text = false -> _extract_json text = Ret s ->
  exists body, s = braced body /\ has_char "}" body = false.
Proof.
  intros Hno H. apply extract_json_candidate in H as (pre & body & post & _ & -> & Hb).
  exists body. split; [reflexivity|by apply Hb].
Qed.

Lemma extract_json_first_brace_witness :
  _extract_json nested_answer = Ret ("{" ++ jkey "header" ++ ": {" ++ jkey "title" ++ ": 1}") /\
  exists body, "{" ++ jkey "header" ++ ": {" ++ jkey "title" ++ ": 1}" = braced body /\
               has_char "}" body = false.
Proof.
  split; [vm_compute; reflexivity|].
  apply (extract_json_first_brace nested_answer); vm_compute; reflexivity.
Defined.

(** ** The structure of the CV *)

Lemma setdefault_has (k : string) (v : value) (d : list (string * value)) :
  dict_has k (setdefault k v d) = true.
Proof.
  unfold setdefault. destruct (dict_has k d) eqn:E; [exact E|].
  unfold dict_has in *. induction d as [|[k' v'] d IH]; cbn [app assoc] in *.
  - by rewrite String.eqb_refl.
  - destruct (String.eqb k k'); [discriminate|]. by apply IH.
Qed.

Lemma setdefault_keeps (k k' : string) (v : value) (d : list (string * value)) :
  dict_has k d = true -> dict_has k (setdefault k' v d) = true.
Proof.
  unfold setdefault. intros H. destruct (dict_has k' d); [exact H|].
  unfold dict_has in *. induction d as [|[k0 v0] d IH]; cbn [app assoc] in *;
    [discriminate|].
  destruct (String.eqb k k0); [reflexivity|]. by apply IH.
Qed.

Lemma experience_items_shape (l : list value) :
  Forall experience_shape (omap experience_item l).
Proof.
  apply Forall_forall. intros e He. apply list_elem_of_omap in He as (x & _ & Hx).
  destruct x; try discriminate. injection Hx as <-. unfold experience_shape. eauto.
Qed.

Lemma cv_structure_shape (data : cv_data) (decoded : value) :
  cv_shape (cv_structure data decoded).
Proof.
  unfold cv_structure. cbn zeta. unfold cv_shape. do 8 eexists.
  split; [|split; [|split; [|split]]].
  - f_equal. repeat (f_equal; try reflexivity).
    instantiate (1 := match _pick (_clean_keys decoded) "profile" with
                      | VStr s => s | _ => EmptyString end).
    by destruct (_pick (_clean_keys decoded) "profile").
  - apply setdefault_keeps, setdefault_keeps, setdefault_has.
  - apply setdefault_keeps, setdefault_has.
  - apply setdefault_has.
  - destruct (_pick (_clean_keys decoded) "experience"); try constructor.
    apply experience_items_shape.
Qed.

Section StructuredCVProperties.

Variable json_loads : string -> option value.

(** X18: [generate_cv_structured] either returns a mapping with exactly the
    keys header, profile, education, skills, experience, projects, languages
    and interests, in which the header is a mapping that has the keys
    full_name, title and contact, the profile is a text, the experience is a
    list of mappings with exactly the keys title, company, dates and bullets
    (the bullets being a list) and the other five are lists; or it raises
    [RuntimeError], the model having failed and nothing being written; or it
    raises [ValueError], the answer of the model holding no brace pair or
    the text extracted from it not being JSON.  The raw answer is written to
    [debug_cv_raw.txt] whenever the model answered, and the text that is not
    JSON to [debug_cv_bad_json.txt]. *)
Theorem generate_cv_outcome (data : cv_data) (proc : proc_outcome) :
  match generate_cv_structured json_loads data proc with
  | (written, Ret cv) =>
      cv_shape cv /\
      exists raw, ask_ollama proc = Ret raw /\ written = [("debug_cv_raw.txt", raw)]
  | (written, Raise e) =>
      (e = RuntimeError /\ model_fails proc /\ written = []) \/
      (e = ValueError /\
       exists raw, ask_ollama proc = Ret raw /\
         ((has_pair raw = false /\ written = [("debug_cv_raw.txt", raw)]) \/
          exists json_text,
            _extract_json raw = Ret json_text /\ json_loads json_text = None /\
            written = [("debug_cv_raw.txt", raw); ("debug_cv_bad_json.txt", json_text)]))
  end.
Proof.
  unfold generate_cv_structured.
  destruct (ask_ollama proc) as [raw|e] eqn:Ea.
  - cbn zeta. destruct (_extract_json raw) as [json_text|e] eqn:Ex.
    + destruct (json_loads json_text) as [parsed|] eqn:Ej.
      * split; [apply cv_structure_shape|]. by exists raw.
      * right. split; [reflexivity|]. exists raw. split; [reflexivity|].
        right. by exists json_text.
    + destruct (extract_json_raise raw e Ex) as [-> Hp]. right. split; [reflexivity|].
      exists raw. split; [reflexivity|]. by left.
  - left. assert (Hf : model_fails proc) by (apply ask_ollama_fails; by exists e).
    split; [|by split].
    revert Ea. unfold ask_ollama. destruct proc as [| |out err]; try by intros [= <-].
    destruct (negb _); [by intros [= <-]|discriminate].
Qed.

End StructuredCVProperties.

(** ** The items of a list field *)












(** The structure built from an answer between fences, and the failure on
    an answer without fence that holds a nested object. *)
Lemma generate_cv_sample :
  snd (generate_cv_structured json_loads_model sample_cv_data
         (ProcDone (Some sample_cv_answer) None)) =
  Ret (VDict
         [("header", VDict [("title", VStr "Ing"); ("full_name", VStr "Ada");
                            ("contact", VStr "ada@x.org")]);
          ("profile", VStr ""); ("education", VList []);
          ("skills", VList [VStr "python"; VStr "rocq"]);
          ("experience",
           VList [VDict [("title", VStr "Stage"); ("company", VStr "");
                         ("dates", VStr ""); ("bullets", VList [])]]);
          ("projects", VList []); ("languages", VList []);
          ("interests", VList [])]) /\
  snd (generate_cv_structured json_loads_model sample_cv_data
         (ProcDone (Some nested_answer) None)) = Raise ValueError.
Proof. split; vm_compute; reflexivity. Qed.

(** ** Closing braces and decoded mappings *)

Section JsonBraces.

Local Open Scope nat_scope.

Lemma count_skip_ws (s : string) : count_char "}" (PyJson.skip_ws s) = count_char "}" s.
Proof.
  induction s as [|c s IH]; [reflexivity|]. cbn [PyJson.skip_ws].
  destruct (PyJson.is_json_ws c) eqn:E; [|reflexivity].
  cbn [count_char]. rewrite IH.
  destruct (Ascii.eqb c "}") eqn:Hc; [|reflexivity].
  apply Ascii.eqb_eq in Hc as ->. discriminate E.
Qed.

Lemma count_tail (c : ascii) (s : string) : count_char "}" s <= count_char "}" (String c s).
Proof. cbn [count_char]. lia. Qed.

Lemma count_prefix_rest (p s r : string) :
  prefix_rest p s = Some r -> count_char "}" r <= count_char "}" s.
Proof.
  revert s. induction p as [|a p IH]; intros s; cbn [prefix_rest].
  - by intros [= ->].
  - destruct s as [|b s]; [discriminate|]. destruct (Ascii.eqb a b); [|discriminate].
    intros H. apply IH in H. pose proof (count_tail b s). lia.
Qed.

Lemma count_span_digits (s : string) :
  count_char "}" (snd (PyJson.span_digits s)) <= count_char "}" s.
Proof.
  induction s as [|c s IH]; [reflexivity|]. cbn [PyJson.span_digits].
  destruct (is_decimal c); [|reflexivity].
  destruct (PyJson.span_digits s) as [ds rest]. cbn [snd] in *.
  pose proof (count_tail c s). lia.
Qed.

Lemma count_hex4 (s rest : string) (n : N) :
  PyJson.hex4 s = Some (n, rest) -> count_char "}" rest <= count_char "}" s.
Proof.
  unfold PyJson.hex4. destruct s as [|a [|b [|c [|d r]]]]; try discriminate.
  destruct (PyJson.hex_value a), (PyJson.hex_value b), (PyJson.hex_value c),
    (PyJson.hex_value d); try discriminate.
  intros [= _ <-]. cbn [count_char]. lia.
Qed.

Lemma count_scanstring (fuel : nat) :
  forall s t r, PyJson.scanstring fuel s = Some (t, r) -> count_char "}" r <= count_char "}" s.
Proof.
  induction fuel as [|fuel IH]; intros s t r; [discriminate|].
  cbn [PyJson.scanstring]. destruct s as [|c s]; [discriminate|].
  pose proof (count_tail c s) as Hc.
  destruct (Ascii.eqb c dquote); [intros [= _ <-]; exact Hc|].
  destruct (Ascii.eqb c "\").
  - destruct s as [|e s']; [discriminate|]. pose proof (count_tail e s') as He.
    destruct (Ascii.eqb e "u").
    + destruct (PyJson.hex4 s') as [[n rest]|] eqn:Hh; [|discriminate].
      apply count_hex4 in Hh. destruct (n <? 256)%N; [|discriminate].
      destruct (PyJson.scanstring fuel rest) as [[t' r']|] eqn:Hs; [|discriminate].
      apply IH in Hs. intros [= _ <-]. lia.
    + destruct (PyJson.simple_escape e); [|discriminate]. cbn.
      destruct (PyJson.scanstring fuel s') as [[t' r']|] eqn:Hs; [|discriminate].
      apply IH in Hs. intros [= _ <-]. lia.
  - destruct (code c <? 32)%N; [discriminate|].
    destruct (PyJson.scanstring fuel s) as [[t' r']|] eqn:Hs; [|discriminate].
    apply IH in Hs. intros [= _ <-]. lia.
Qed.

Lemma count_match_number (s i f e r : string) :
  PyJson.match_number s = Some (i, f, e, r) -> count_char "}" r <= count_char "}" s.
Proof.
  unfold PyJson.match_number.
  set (sg := match s with String "-" r0 => ("-", r0) | _ => (EmptyString, s) end).
  assert (Hsg : count_char "}" (snd sg) <= count_char "}" s).
  { unfold sg. destruct s as [|c s']; [reflexivity|].
    destruct (Ascii.eqb_spec c "-") as [->|Hc]; [apply count_tail|].
    destruct c as [[] [] [] [] [] [] [] []]; try reflexivity; by destruct Hc. }
  destruct sg as [sign s1]. cbn [snd] in Hsg.
  destruct s1 as [|c r1]; [discriminate|].
  destruct (is_decimal c); [|discriminate].
  set (p2 := if Ascii.eqb c "0" then ("0", r1) else PyJson.span_digits (String c r1)).
  assert (H2 : count_char "}" (snd p2) <= count_char "}" (String c r1)).
  { unfold p2. destruct (Ascii.eqb c "0"); [apply count_tail|apply count_span_digits]. }
  destruct p2 as [int_digits s2]. cbn [snd] in H2.
  set (p3 := match s2 with
             | String "." r2 =>
                 let '(ds, r3) := PyJson.span_digits r2 in
                 if nonempty ds then ("." ++ ds, r3) else (EmptyString, s2)
             | _ => (EmptyString, s2)
             end).
  assert (H3 : count_char "}" (snd p3) <= count_char "}" s2).
  { unfold p3. destruct s2 as [|d r2]; [reflexivity|].
    destruct (Ascii.eqb_spec d ".") as [->|Hd].
    - pose proof (count_span_digits r2) as Hs. destruct (PyJson.span_digits r2) as [ds r3].
      cbn [snd] in Hs. destruct (nonempty ds); [|reflexivity]. cbn [snd].
      pose proof (count_tail "." r2). lia.
    - destruct d as [[] [] [] [] [] [] [] []]; try reflexivity; by destruct Hd. }
  destruct p3 as [frac s3]. cbn [snd] in H3.
  set (p4 := match s3 with
             | String e0 r3 =>
                 if Ascii.eqb e0 "e" || Ascii.eqb e0 "E" then
                   let '(sg0, r4) := match r3 with
                                     | String "+" r' => ("+", r')
                                     | String "-" r' => ("-", r')
                                     | _ => (EmptyString, r3)
                                     end in
                   let '(ds, r5) := PyJson.span_digits r4 in
                   if nonempty ds then (String e0 (sg0 ++ ds), r5) else (EmptyString, s3)
                 else (EmptyString, s3)
             | EmptyString => (EmptyString, s3)
             end).
  assert (H4 : count_char "}" (snd p4) <= count_char "}" s3).
  { unfold p4. destruct s3 as [|e0 r3]; [reflexivity|].
    destruct (Ascii.eqb e0 "e" || Ascii.eqb e0 "E"); [|reflexivity].
    set (q := match r3 with
              | String "+" r' => ("+", r')
              | String "-" r' => ("-", r')
              | _ => (EmptyString, r3)
              end).
    assert (Hq : count_char "}" (snd q) <= count_char "}" r3).
    { unfold q. destruct r3 as [|x r']; [reflexivity|].
      destruct (Ascii.eqb_spec x "+") as [->|Hx]; [apply count_tail|].
      destruct (Ascii.eqb_spec x "-") as [->|Hy]; [apply count_tail|].
      destruct x as [[] [] [] [] [] [] [] []]; try reflexivity;
        by (destruct Hx || destruct Hy). }
    destruct q as [sg0 r4]. cbn [snd] in Hq.
    pose proof (count_span_digits r4) as Hs. destruct (PyJson.span_digits r4) as [ds r5].
    cbn [snd] in Hs. destruct (nonempty ds); [|reflexivity]. cbn [snd].
    pose proof (count_tail e0 r3). lia. }
  destruct p4 as [exp s4]. cbn [snd] in H4.
  intros [= _ _ _ <-]. lia.
Qed.

Lemma list_sum_cons (x : nat) (l : list nat) : list_sum (x :: l) = x + list_sum l.
Proof. reflexivity. Qed.

Lemma list_sum_nil : list_sum [] = 0.
Proof. reflexivity. Qed.

Lemma dicts_dict_set (k : string) (v : value) (d : list (string * value)) :
  dicts_of_items (dict_set k v d) <= dicts_of_items d + dicts v.
Proof.
  unfold dicts_of_items. induction d as [|[k' v'] d IH]; cbn [dict_set map snd].
  - rewrite list_sum_cons, list_sum_nil. lia.
  - destruct (String.eqb k k'); cbn [map snd]; rewrite !list_sum_cons; lia.
Qed.

Lemma dicts_app (l : list value) (v : value) :
  list_sum (map dicts (l ++ [v])) = list_sum (map dicts l) + dicts v.
Proof. rewrite map_app, list_sum_app. cbn [map]. rewrite list_sum_cons, list_sum_nil. lia. Qed.

Variable float_of : string -> value.
Hypothesis float_plain : forall t, dicts (float_of t) = 0.

(** Decoding a text gives no more mappings than the text read holds closing
    braces. *)
Lemma decoder_braces (fuel : nat) :
  (forall s v rest, PyJson.scan_once float_of fuel s = Some (v, rest) ->
     dicts v + count_char "}" rest <= count_char "}" s) /\
  (forall acc s v rest, PyJson.json_object float_of fuel acc s = Some (v, rest) ->
     dicts v + count_char "}" rest <= dicts_of_items acc + count_char "}" s) /\
  (forall acc s v rest, PyJson.json_array float_of fuel acc s = Some (v, rest) ->
     dicts v + count_char "}" rest <= list_sum (map dicts acc) + count_char "}" s).
Proof using float_plain.
  induction fuel as [|fuel (IHs & IHo & IHa)]; [by repeat split|].
  split; [|split].
  - intros s v rest. cbn [PyJson.scan_once].
    destruct s as [|c r]; [discriminate|]. pose proof (count_tail c r) as Hc.
    destruct (Ascii.eqb c dquote).
    { destruct (PyJson.scanstring (String.length r) r) as [[t r']|] eqn:Hs; [|discriminate].
      apply count_scanstring in Hs. intros [= <- <-]. cbn [dicts]. lia. }
    destruct (Ascii.eqb c "{").
    { pose proof (count_skip_ws r) as Hw.
      destruct (PyJson.skip_ws r) as [|x r'] eqn:Er.
      - intros H. apply IHo in H. unfold dicts_of_items in H. cbn [map] in H.
        rewrite list_sum_nil in H. cbn [count_char] in *. lia.
      - destruct (Ascii.eqb_spec x "}") as [->|Hx].
        + intros [= <- <-]. cbn [dicts map]. rewrite ?list_sum_nil. cbn [count_char] in Hw.
          change (Ascii.eqb "}" "}") with true in Hw. cbn iota in Hw. lia.
        + assert (Hgo : PyJson.json_object float_of fuel [] (String x r') = Some (v, rest) ->
                        dicts v + count_char "}" rest <= count_char "}" (String c r)).
          { intros H. apply IHo in H. unfold dicts_of_items in H. cbn [map] in H.
            rewrite list_sum_nil in H. lia. }
          destruct x as [[] [] [] [] [] [] [] []]; try exact Hgo. by destruct Hx. }
    destruct (Ascii.eqb c "[").
    { pose proof (count_skip_ws r) as Hw.
      destruct (PyJson.skip_ws r) as [|x r'] eqn:Er.
      - intros H. apply IHa in H. cbn [map] in H. rewrite list_sum_nil in H.
        cbn [count_char] in *. lia.
      - destruct (Ascii.eqb_spec x "]") as [->|Hx].
        + intros [= <- <-]. cbn [dicts map]. rewrite ?list_sum_nil. cbn [count_char] in Hw.
          change (Ascii.eqb "]" "}") with false in Hw. cbn iota in Hw. lia.
        + assert (Hgo : PyJson.json_array float_of fuel [] (String x r') = Some (v, rest) ->
                        dicts v + count_char "}" rest <= count_char "}" (String c r)).
          { intros H. apply IHa in H. cbn [map] in H. rewrite list_sum_nil in H. lia. }
          destruct x as [[] [] [] [] [] [] [] []]; try exact Hgo. by destruct Hx. }
    destruct (prefix_rest "null" (String c r)) as [r'|] eqn:H1.
    { apply count_prefix_rest in H1. intros [= <- <-]. cbn [dicts]. lia. }
    destruct (prefix_rest "true" (String c r)) as [r'|] eqn:H2.
    { apply count_prefix_rest in H2. intros [= <- <-]. cbn [dicts]. lia. }
    destruct (prefix_rest "false" (String c r)) as [r'|] eqn:H3.
    { apply count_prefix_rest in H3. intros [= <- <-]. cbn [dicts]. lia. }
    destruct (PyJson.match_number (String c r)) as [[[[i f] e] r']|] eqn:Hn.
    { apply count_match_number in Hn.
      destruct (nonempty f || nonempty e); intros [= <- <-];
        rewrite ?float_plain; cbn [dicts]; lia. }
    destruct (prefix_rest "NaN" (String c r)) as [r'|] eqn:H4.
    { apply count_prefix_rest in H4. intros [= <- <-]. rewrite float_plain. lia. }
    destruct (prefix_rest "Infinity" (String c r)) as [r'|] eqn:H5.
    { apply count_prefix_rest in H5. intros [= <- <-]. rewrite float_plain. lia. }
    destruct (prefix_rest "-Infinity" (String c r)) as [r'|] eqn:H6; [|discriminate].
    apply count_prefix_rest in H6. intros [= <- <-]. rewrite float_plain. lia.
  - intros acc s v rest. cbn [PyJson.json_object].
    destruct s as [|c r]; [discriminate|]. pose proof (count_tail c r) as Hc.
    destruct (Ascii.eqb c dquote); [|discriminate].
    destruct (PyJson.scanstring (String.length r) r) as [[key r1]|] eqn:Hs; [|discriminate].
    apply count_scanstring in Hs. cbn.
    pose proof (count_skip_ws r1) as Hw1.
    destruct (PyJson.skip_ws r1) as [|x r2] eqn:Er1; [discriminate|].
    destruct (Ascii.eqb_spec x ":") as [->|Hx];
      [|destruct x as [[] [] [] [] [] [] [] []]; try discriminate; by destruct Hx].
    cbn [count_char] in Hw1. change (Ascii.eqb ":" "}") with false in Hw1. cbn iota in Hw1.
    pose proof (count_skip_ws r2) as Hw2.
    destruct (PyJson.scan_once float_of fuel (PyJson.skip_ws r2)) as [[v1 r3]|] eqn:Hv;
      [|discriminate].
    apply IHs in Hv. cbn.
    pose proof (dicts_dict_set key v1 acc) as Hset.
    pose proof (count_skip_ws r3) as Hw3.
    destruct (PyJson.skip_ws r3) as [|y r4] eqn:Er3; [discriminate|].
    destruct (Ascii.eqb_spec y "}") as [->|Hy].
    + intros [= <- <-]. cbn [dicts]. fold (dicts_of_items (dict_set key v1 acc)).
      cbn [count_char] in Hw3. change (Ascii.eqb "}" "}") with true in Hw3. cbn iota in Hw3. lia.
    + destruct (Ascii.eqb_spec y ",") as [->|Hz].
      * intros H. apply IHo in H. pose proof (count_skip_ws r4) as Hw4.
        cbn [count_char] in Hw3. change (Ascii.eqb "," "}") with false in Hw3. cbn iota in Hw3. lia.
      * destruct y as [[] [] [] [] [] [] [] []]; try discriminate;
          by (destruct Hy || destruct Hz).
  - intros acc s v rest. cbn [PyJson.json_array].
    destruct (PyJson.scan_once float_of fuel s) as [[v1 r1]|] eqn:Hv; [|discriminate].
    apply IHs in Hv. cbn.
    pose proof (count_skip_ws r1) as Hw1.
    destruct (PyJson.skip_ws r1) as [|y r2] eqn:Er1; [discriminate|].
    destruct (Ascii.eqb_spec y "]") as [->|Hy].
    + intros [= <- <-]. cbn [dicts]. rewrite dicts_app.
      cbn [count_char] in Hw1. change (Ascii.eqb "]" "}") with false in Hw1. cbn iota in Hw1. lia.
    + destruct (Ascii.eqb_spec y ",") as [->|Hz].
      * intros H. apply IHa in H. rewrite dicts_app in H.
        pose proof (count_skip_ws r2) as Hw2.
        cbn [count_char] in Hw1. change (Ascii.eqb "," "}") with false in Hw1. cbn iota in Hw1. lia.
      * destruct y as [[] [] [] [] [] [] [] []]; try discriminate;
          by (destruct Hy || destruct Hz).
Qed.

Lemma loads_braces (s : string) (v : value) :
  PyJson.loads float_of s = Some v -> dicts v <= count_char "}" s.
Proof using float_plain.
  unfold PyJson.loads.
  destruct (PyJson.scan_once float_of _ (PyJson.skip_ws s)) as [[v' rest]|] eqn:E;
    [|discriminate].
  apply (decoder_braces _) in E. rewrite count_skip_ws in E. cbn.
  destruct (PyJson.skip_ws rest); [|discriminate]. intros [= <-]. lia.
Qed.

End JsonBraces.

(** ** The structured CV from an answer without fence *)

Lemma value_induction (P : value -> Prop) :
  P VNone -> (forall b, P (VBool b)) -> (forall z, P (VInt z)) ->
  (forall nz t, P (VFloat nz t)) -> (forall s, P (VStr s)) ->
  (forall l, Forall P l -> P (VList l)) ->
  (forall d, Forall (fun kv => P (snd kv)) d -> P (VDict d)) ->
  forall v, P v.
Proof.
  intros HN HB HI HF HS HL HD. fix IH 1. intros [|b|z|nz t|s|l|d].
  - exact HN.
  - apply HB.
  - apply HI.
  - apply HF.
  - apply HS.
  - apply HL. induction l as [|x l IHl]; constructor; [apply IH|exact IHl].
  - apply HD. induction d as [|[k x] d IHd]; constructor; [apply IH|exact IHd].
Qed.

Lemma list_sum_le (A : Type) (f g : A -> nat) (l : list A) :
  Forall (fun x => (f x <= g x)%nat) l ->
  (list_sum (map f l) <= list_sum (map g l))%nat.
Proof.
  induction 1 as [|x l Hx _ IH]; [reflexivity|].
  cbn [map]. rewrite !list_sum_cons. lia.
Qed.

Lemma dicts_fold_set (items acc : list (string * value)) :
  (dicts_of_items (fold_left (fun clean kv => dict_set (fst kv) (snd kv) clean) items acc)
   <= dicts_of_items acc + dicts_of_items items)%nat.
Proof.
  revert acc. induction items as [|[k v] items IH]; intros acc; cbn [fold_left fst snd].
  - unfold dicts_of_items at 3. cbn [map]. rewrite list_sum_nil. lia.
  - specialize (IH (dict_set k v acc)). pose proof (dicts_dict_set k v acc) as Hs.
    unfold dicts_of_items at 3. cbn [map snd]. rewrite list_sum_cons.
    fold (dicts_of_items items). lia.
Qed.

Lemma clean_keys_dicts (v : value) : (dicts (_clean_keys v) <= dicts v)%nat.
Proof.
  induction v as [|b|z|nz t|s|l IH|d IH] using value_induction; try reflexivity.
  - cbn [_clean_keys dicts]. rewrite map_map. by apply list_sum_le.
  - cbn [_clean_keys dicts]. apply le_n_S.
    etransitivity; [apply dicts_fold_set|].
    unfold dicts_of_items. cbn [map]. rewrite list_sum_nil, Nat.add_0_l, map_map.
    cbn [snd]. by apply list_sum_le.
Qed.

Lemma dicts_elem (l : list value) (v : value) :
  v ∈ l -> (dicts v <= list_sum (map dicts l))%nat.
Proof.
  induction 1 as [x l|x y l _ IH]; cbn [map]; rewrite list_sum_cons; lia.
Qed.

Lemma dicts_assoc (k : string) (d : list (string * value)) (v : value) :
  assoc k d = Some v -> (dicts v <= dicts_of_items d)%nat.
Proof.
  unfold dicts_of_items. induction d as [|[k' v'] d IH]; [discriminate|].
  cbn [assoc map snd]. rewrite list_sum_cons.
  destruct (String.eqb k k'); [intros [= <-]; lia|]. intros H. apply IH in H. lia.
Qed.

Lemma dicts_pick_norm (w : string) (d : list (string * value)) (v : value) :
  pick_norm w d = Some v -> (dicts v <= dicts_of_items d)%nat.
Proof.
  unfold dicts_of_items. induction d as [|[k' v'] d IH]; [discriminate|].
  cbn [pick_norm map snd]. rewrite list_sum_cons.
  destruct (String.eqb (_norm_key k') w); [intros [= <-]; lia|].
  intros H. apply IH in H. lia.
Qed.

(** What [_pick] finds in a value with one mapping at most holds no
    mapping. *)
Lemma pick_plain (parsed : value) (wanted : string) :
  (dicts parsed <= 1)%nat -> dicts (_pick parsed wanted) = O.
Proof.
  destruct parsed as [| | | | | |d]; try reflexivity. cbn [dicts _pick].
  fold (dicts_of_items d). intros Hd.
  destruct (assoc wanted d) as [v|] eqn:E.
  - apply dicts_assoc in E. lia.
  - destruct (pick_norm (_norm_key wanted) d) as [v|] eqn:E'; [|reflexivity].
    apply dicts_pick_norm in E'. cbn [default from_option id]. lia.
Qed.

Lemma plain_list_no_experience (l : list value) :
  list_sum (map dicts l) = O -> omap experience_item l = [].
Proof.
  induction l as [|x l IH]; [reflexivity|]. cbn [map]. rewrite list_sum_cons.
  intros H. assert (Hx : dicts x = O) by lia. assert (Hl : list_sum (map dicts l) = O) by lia.
  specialize (IH Hl). destruct x; try discriminate Hx; exact IH.
Qed.

Lemma count_braced (body : string) :
  has_char "}" body = false -> count_char "}" (braced body) = 1%nat.
Proof.
  intros Hb. unfold braced. change (count_char "}" (String "{" (body ++ "}")) = 1%nat).
  cbn [count_char]. change (Ascii.eqb "{" "}") with false. cbn iota.
  induction body as [|c body IH]; [reflexivity|].
  cbn [has_char] in Hb. apply orb_false_iff in Hb as [Hc Hb].
  change (count_char "}" (String c (body ++ "}")) = 1%nat). cbn [count_char].
  rewrite Hc. by apply IH.
Qed.

Lemma cv_structure_plain (data : cv_data) (decoded : value) :
  (dicts decoded <= 1)%nat ->
  exists profile education skills projects languages interests,
    cv_structure data decoded =
    VDict [("header", form_header data); ("profile", VStr profile);
           ("education", VList education); ("skills", VList skills);
           ("experience", VList []); ("projects", VList projects);
           ("languages", VList languages); ("interests", VList interests)].
Proof.
  intros Hd. assert (Hc : (dicts (_clean_keys decoded) <= 1)%nat).
  { pose proof (clean_keys_dicts decoded). lia. }
  unfold cv_structure. cbn zeta. set (parsed := _clean_keys decoded) in *.
  assert (Hh : match py_or (_pick parsed "header") (VDict []) with
               | VDict h => h | _ => [] end = []).
  { pose proof (pick_plain parsed "header" Hc) as Hp. unfold py_or.
    destruct (_pick parsed "header"); try reflexivity; try (by destruct (truthy _));
      discriminate Hp. }
  assert (He : match _pick parsed "experience" with
               | VList l => omap experience_item l | _ => [] end = []).
  { pose proof (pick_plain parsed "experience" Hc) as Hp.
    destruct (_pick parsed "experience"); try reflexivity.
    by apply plain_list_no_experience. }
  assert (Hp : match _pick parsed "profile" with
               | VStr _ => _pick parsed "profile" | _ => VStr EmptyString end
               = VStr (match _pick parsed "profile" with
                       | VStr s => s | _ => EmptyString end)).
  { by destruct (_pick parsed "profile"). }
  rewrite Hh, He, Hp. by do 6 eexists.
Qed.

Section UnfencedCV.

Variable json_loads : string -> option value.
Hypothesis json_loads_braces :
  forall t v, json_loads t = Some v -> (dicts v <= count_char "}" t)%nat.

(** X20: when the answer of the model holds no backtick, so no code fence,
    the structured CV takes nothing nested from it: whatever the answer, if
    [generate_cv_structured] returns, the header holds exactly the name, the
    title and the contact of the form, and the experience is empty.  The
    decoder is any function that, as [json.loads] does, gives no more
    mappings than the text holds closing braces. *)
Theorem unfenced_answer_loses_nesting (data : cv_data) (proc : proc_outcome)
    (raw : string) (cv : value) :
  ask_ollama proc = Ret raw -> has_char backtick raw = false ->
  snd (generate_cv_structured json_loads data proc) = Ret cv ->
  dict_get "header" (match cv with VDict items => items | _ => [] end) = form_header data /\
  dict_get "experience" (match cv with VDict items => items | _ => [] end) = VList [].
Proof using json_loads_braces.
  intros Ha Hno. unfold generate_cv_structured. rewrite Ha. cbn zeta.
  destruct (_extract_json raw) as [json_text|e] eqn:Ex; [|discriminate].
  destruct (extract_json_candidate raw json_text Ex) as (pre & body & post & _ & -> & Hb).
  specialize (Hb Hno).
  destruct (json_loads (braced body)) as [parsed|] eqn:Ej; [|discriminate].
  apply json_loads_braces in Ej. rewrite (count_braced body Hb) in Ej.
  destruct (cv_structure_plain data parsed Ej) as (p & ed & sk & pr & la & it & ->).
  cbn [snd]. intros [= <-]. by split.
Qed.

End UnfencedCV.

Lemma json_loads_model_braces (t : string) (v : value) :
  json_loads_model t = Some v -> (dicts v <= count_char "}" t)%nat.
Proof. apply loads_braces. reflexivity. Qed.

Lemma unfenced_answer_loses_nesting_witness :
  snd (generate_cv_structured json_loads_model sample_cv_data
         (ProcDone (Some unfenced_answer) None)) =
    Ret (VDict [("header", form_header sample_cv_data); ("profile", VStr "");
                ("education", VList []); ("skills", VList []);
                ("experience", VList []); ("projects", VList []);
                ("languages", VList []); ("interests", VList [])]) /\
  dict_get "header"
    [("header", form_header sample_cv_data); ("profile", VStr "");
     ("education", VList []); ("skills", VList []);
     ("experience", VList []); ("projects", VList []);
     ("languages", VList []); ("interests", VList [])] = form_header sample_cv_data.
Proof.
  split; [vm_compute; reflexivity|].
  apply (unfenced_answer_loses_nesting json_loads_model json_loads_model_braces
           sample_cv_data (ProcDone (Some unfenced_answer) None) unfenced_answer
           (VDict [("header", form_header sample_cv_data); ("profile", VStr "");
                   ("education", VList []); ("skills", VList []);
                   ("experience", VList []); ("projects", VList []);
                   ("languages", VList []); ("interests", VList [])]));
    vm_compute; reflexivity.
Defined.

(** ** Notes without colliding titles *)






(** ** The name of the selected document *)

Lemma prefix_sep_app (s x : string) :
  (4 <= String.length s)%nat ->
  prefix_rest doc_sep (s ++ x) = None <-> prefix_rest doc_sep s = None.
Proof.
  destruct s as [|a [|b [|c [|d s]]]]; cbn [String.length]; try lia. intros _.
  change (prefix_rest doc_sep (String a (String b (String c (String d (s ++ x))))) = None
          <-> prefix_rest doc_sep (String a (String b (String c (String d s)))) = None).
  unfold doc_sep. cbn [prefix_rest].
  by destruct (Ascii.eqb " " a), (Ascii.eqb " " b), (Ascii.eqb " " c), (Ascii.eqb "[" d).
Qed.

Lemma prefix_sep_length (s r : string) :
  prefix_rest doc_sep s = Some r -> (4 <= String.length s)%nat.
Proof.
  destruct s as [|a [|b [|c [|d s]]]]; unfold doc_sep; cbn [prefix_rest String.length].
  - discriminate.
  - by destruct (Ascii.eqb " " a).
  - by destruct (Ascii.eqb " " a), (Ascii.eqb " " b).
  - by destruct (Ascii.eqb " " a), (Ascii.eqb " " b), (Ascii.eqb " " c).
  - lia.
Qed.

Lemma contains_length (s : string) :
  contains doc_sep s = true -> (4 <= String.length s)%nat.
Proof.
  induction s as [|c s IH]; cbn [contains].
  - destruct (prefix_rest doc_sep "") eqn:E; [|discriminate].
    intros _. by apply (prefix_sep_length _ _ E).
  - destruct (prefix_rest doc_sep (String c s)) eqn:E.
    + intros _. by apply (prefix_sep_length _ _ E).
    + intros H. apply IH in H. cbn [String.length]. lia.
Qed.

(** The separator that follows a name starts no earlier occurrence. *)
Lemma prefix_sep_short (s x : string) :
  (1 <= String.length s < 4)%nat -> prefix_rest doc_sep (s ++ doc_sep ++ x) = None.
Proof.
  destruct s as [|a [|b [|c [|d s]]]]; cbn [String.length]; try lia; intros _.
  - change (prefix_rest doc_sep (String a (String " " (String " " (String " " (String "[" x)))))
            = None).
    unfold doc_sep. cbn [prefix_rest]. by destruct (Ascii.eqb " " a).
  - change (prefix_rest doc_sep
              (String a (String b (String " " (String " " (String " " (String "[" x))))))
            = None).
    unfold doc_sep. cbn [prefix_rest]. by destruct (Ascii.eqb " " a), (Ascii.eqb " " b).
  - change (prefix_rest doc_sep
              (String a (String b (String c
                 (String " " (String " " (String " " (String "[" x)))))))
            = None).
    unfold doc_sep. cbn [prefix_rest].
    by destruct (Ascii.eqb " " a), (Ascii.eqb " " b), (Ascii.eqb " " c).
Qed.

Lemma before_first_absent (s : string) :
  contains doc_sep s = false -> before_first doc_sep s = s.
Proof.
  induction s as [|c s IH]; cbn [contains before_first].
  - by destruct (prefix_rest doc_sep "").
  - destruct (prefix_rest doc_sep (String c s)); [discriminate|].
    intros H. by rewrite IH.
Qed.

Lemma before_first_sep (name x : string) :
  contains doc_sep name = false ->
  before_first doc_sep (name ++ doc_sep ++ x) = name.
Proof.
  induction name as [|c name IH]; intros Hc.
  - reflexivity.
  - change (before_first doc_sep (String c (name ++ doc_sep ++ x)) = String c name).
    cbn [before_first]. cbn [contains] in Hc.
    destruct (prefix_rest doc_sep (String c name)) eqn:E; [discriminate|].
    assert (Hnone : prefix_rest doc_sep (String c (name ++ doc_sep ++ x)) = None).
    { destruct (le_lt_dec 4 (String.length (String c name))) as [Hlen|Hlen].
      - by apply (prefix_sep_app (String c name) (doc_sep ++ x) Hlen).
      - apply (prefix_sep_short (String c name) x). cbn [String.length] in *. lia. }
    rewrite Hnone. by rewrite IH.
Qed.

Lemma before_first_inside (s x : string) :
  contains doc_sep s = true ->
  before_first doc_sep (s ++ x) = before_first doc_sep s /\
  (String.length (before_first doc_sep s) < String.length s)%nat.
Proof.
  induction s as [|c s IH].
  - intros H. vm_compute in H. discriminate H.
  - intros H.
    change (before_first doc_sep (String c (s ++ x)) = before_first doc_sep (String c s)
            /\ (String.length (before_first doc_sep (String c s))
                < String.length (String c s))%nat).
    cbn [before_first].
    destruct (prefix_rest doc_sep (String c s)) as [r|] eqn:E.
    + assert (Hlen : (4 <= String.length (String c s))%nat)
        by (by apply (prefix_sep_length _ _ E)).
      destruct (prefix_rest doc_sep (String c (s ++ x))) eqn:E'.
      * cbn [String.length]. split; [reflexivity|lia].
      * apply (prefix_sep_app (String c s) x Hlen) in E'. congruence.
    + cbn [contains] in H. rewrite E in H. destruct (IH H) as [IH1 IH2].
      assert (Hlen : (4 <= String.length (String c s))%nat).
      { apply contains_length in H. cbn [String.length]. lia. }
      assert (E' : prefix_rest doc_sep (String c (s ++ x)) = None)
        by (by apply (prefix_sep_app (String c s) x Hlen)).
      rewrite E', IH1. cbn [String.length]. split; [reflexivity|lia].
Qed.

Lemma lstrip_length (s : string) : (String.length (lstrip s) <= String.length s)%nat.
Proof.
  induction s as [|c s IH]; [reflexivity|]. cbn [lstrip].
  destruct (is_space c); cbn [String.length]; lia.
Qed.

Lemma rstrip_length (s : string) : (String.length (rstrip s) <= String.length s)%nat.
Proof.
  induction s as [|c s IH]; [reflexivity|]. cbn [rstrip].
  destruct (rstrip s) as [|x r]; [destruct (is_space c)|]; cbn [String.length] in *; lia.
Qed.

Lemma strip_length (s : string) : (String.length (strip s) <= String.length s)%nat.
Proof.
  unfold strip. pose proof (rstrip_length (lstrip s)). pose proof (lstrip_length s). lia.
Qed.

(** X22: the name read back from the line of a document in the list is the
    name of the document exactly when the name does not hold the separator
    put before the folder (three spaces and an opening bracket) and has no
    white space at its ends; for any other name, opening, deleting or moving
    the selected document is asked for another name. *)
Theorem selected_doc_name_round_trip (name : string) (folder : option string) :
  selected_doc_name (doc_item name folder) = name <->
  contains doc_sep name = false /\ strip name = name.
Proof.
  unfold selected_doc_name. split.
  - intros H. assert (Hs : strip name = name).
    { rewrite <- H at 1. rewrite strip_idempotent. exact H. }
    split; [|exact Hs].
    destruct (contains doc_sep name) eqn:Hc; [|reflexivity]. exfalso.
    assert (Hlt : (String.length (before_first doc_sep (doc_item name folder))
                   < String.length name)%nat).
    { unfold doc_item. destruct folder as [f|].
      - destruct (nonempty f).
        + destruct (before_first_inside name (doc_sep ++ f ++ "]") Hc) as [-> Hl].
          exact Hl.
        + destruct (before_first_inside name EmptyString Hc) as [_ Hl]. exact Hl.
      - destruct (before_first_inside name EmptyString Hc) as [_ Hl]. exact Hl. }
    pose proof (strip_length (before_first doc_sep (doc_item name folder))) as Hle.
    rewrite H in Hle. lia.
  - intros [Hc Hs]. unfold doc_item. destruct folder as [f|].
    + destruct (nonempty f).
      * by rewrite before_first_sep.
      * by rewrite before_first_absent.
    + by rewrite before_first_absent.
Qed.

(** ** The quiz tab on answers in the text format *)

Section TextOnly.

Variable json_loads : string -> option value.

Lemma normalize_none : _normalize_qcm VNone = Ret None.
Proof. reflexivity. Qed.

Lemma data_kept (a : action) (st : app_state) :
  match a with
  | Generate _ => True
  | _ => qcm_data (perform json_loads a st) = qcm_data st
  end.
Proof.
  destruct a as [env|i| | |]; cbn [perform]; [exact I|..].
  - unfold click_choice. destruct (_ <? _)%nat; [|reflexivity].
    by rewrite data_save_choice.
  - unfold qcm_prev. destruct (qcm_data st) eqn:E; [|exact E].
    rewrite data_render. destruct (0 <? _); cbn; by rewrite data_save_choice.
  - unfold qcm_next. destruct (qcm_data st) eqn:E; [|exact E].
    rewrite data_render. destruct (_ <? _); cbn; by rewrite data_save_choice.
  - unfold qcm_finish. destruct (qcm_data st) eqn:E; [|exact E].
    destruct (finish_loop _ _ _ _ _) as [[score lines]|e]; cbn;
      by rewrite data_save_choice.
Qed.

Lemma quiz_resolves_perform (a : action) (st : app_state) :
  text_only json_loads a -> quiz_resolves st ->
  quiz_resolves (perform json_loads a st).
Proof.
  intros Ha Hst. pose proof (data_kept a st) as Hk.
  destruct a as [env|i| | |]; try (intros d Hd; apply Hst; congruence).
  cbn [perform]. cbn [text_only] in Ha.
  destruct (generate_session_cases json_loads env st)
    as [[Hs _]|(raw & data & _ & _ & _ & _ & _ & _ & _ & Hg & Hq & Hs & _)].
  - intros d Hd. apply Hst. unfold session in Hs. injection Hs as Hs _ _. congruence.
  - intros d Hd. unfold session in Hs. injection Hs as Hs _ _.
    assert (d = data) as -> by congruence.
    unfold quiz_of_raw, from_json, from_text in Hq.
    rewrite (Ha raw Hg) in Hq. cbn [default from_option id] in Hq.
    rewrite normalize_none in Hq.
    destruct (_parse_qcm_from_text raw) as [v|] eqn:Hv;
      [|cbn [default from_option id] in Hq; rewrite normalize_none in Hq; discriminate].
    cbn [default from_option id] in Hq.
    destruct (text_path_letters raw v Hv) as (quiz & Hn & Hans).
    rewrite Hn in Hq. injection Hq as <-.
    eapply Forall_impl; [exact Hans|]. intros q Hl.
    eexists. by apply answer_to_index_letter.
Qed.

Lemma quiz_resolves_run (l : list action) :
  Forall (text_only json_loads) l -> quiz_resolves (run json_loads l).
Proof.
  unfold run. intros Hl.
  assert (H : forall st, quiz_resolves st ->
                         quiz_resolves (fold_left (fun st a => perform json_loads a st) l st)).
  { induction Hl as [|a l Ha _ IH]; intros st Hst; [exact Hst|].
    cbn [fold_left]. apply IH. by apply quiz_resolves_perform. }
  apply H. intros d Hd. discriminate Hd.
Qed.

(** X23: when every model answer is in the text format, that is none holds
    JSON that [_extract_json_obj] recovers, no method of the quiz tab
    raises: after any sequence of generate, click, [qcm_prev], [qcm_next]
    and [qcm_finish] actions, [qcm_prev], [qcm_next] and [qcm_finish]
    return, and [qcm_finish] on a stored quiz writes the score out of the
    number of questions. *)
Theorem text_format_never_raises (l : list action) :
  Forall (text_only json_loads) l ->
  let st := run json_loads l in
  snd (qcm_prev st) = None /\ snd (qcm_next st) = None /\ snd (qcm_finish st) = None /\
  forall data, qcm_data st = Some data ->
    exists score,
      qcm_status (fst (qcm_finish st)) =
        StatusFinished score (Z.of_nat (length (questions data))) /\
      0 <= score <= Z.of_nat (length (questions data)).
Proof.
  intros Hl. cbn zeta. set (st := run json_loads l).
  pose proof (quiz_resolves_run l Hl) as Hres. fold st in Hres.
  assert (Hok : session_ok st) by apply (reachable_ok json_loads), reachable_run.
  assert (Hnav : snd (qcm_prev st) = None /\ snd (qcm_next st) = None).
  { destruct (qcm_data st) as [data|] eqn:Hd.
    - assert (Hload : loaded st data) by (apply shown_index_in_range; [apply Hok|exact Hd]).
      destruct (prev_loaded st data Hload) as (q & st' & _ & -> & _).
      by destruct (next_loaded st data Hload) as (q' & st'' & _ & -> & _).
    - unfold qcm_prev, qcm_next. by rewrite Hd. }
  destruct Hnav as [Hp Hn]. split; [exact Hp|]. split; [exact Hn|].
  destruct (qcm_data st) as [data|] eqn:Hd.
  - assert (Hall : forall q, q ∈ questions data -> resolves q).
    { intros q Hq. specialize (Hres data Hd). rewrite Forall_forall in Hres.
      by apply Hres. }
    destruct (qcm_finish_score st data Hok Hd Hall) as (lines & -> & _).
    split; [reflexivity|]. intros d [= <-]. eexists. split; [reflexivity|].
    apply count_correct_bounds.
  - split; [unfold qcm_finish; by rewrite Hd|]. intros d Hd'. discriminate Hd'.
Qed.

End TextOnly.

Lemma text_format_never_raises_witness :
  snd (qcm_finish (run json_loads_model
                     [Generate (env_with sample_text); Click 1; Next; Prev])) = None.
Proof.
  apply (text_format_never_raises json_loads_model
           [Generate (env_with sample_text); Click 1; Next; Prev]).
  repeat constructor. intros raw [= <-]. vm_compute. reflexivity.
Defined.
